(** * creditscore-pro: the SQL dump converter [src/data/parse-sql-data.py]

    A shallow embedding of the script that extracts the rows of the
    [alerta_cooperativa_sicoob] INSERT statements from a SQL dump and writes
    them back as one consolidated JSON document, one JSON document per
    cooperative and one CSV file.

    Text.  A Python [str] is modelled as a list of characters, a character
    being a code point below 256 (Rocq's [ascii], read as Latin-1).  On that
    range the classes used by the script are finite tables, written out
    below: [str.isspace] and the regular expression class [\s] are the code
    points 9-13, 28-32, 133 and 160; [int] accepts the digits 0-9 only.  Code
    points above 255 are outside the model.

    Integers.  An [int] is modelled as a [Z].  The integers of a record
    are those [int()] returned, of 4300 digits at most, and on these [str]
    and the f-string return their decimal writing, [str_of_Z]; longer
    integers, which the interpreter refuses to write, are outside the model.

    Exceptions.  A Python call either returns or raises; the model returns a
    [result], and the loops stop at the first [Raise] as the interpreter does.

    Dictionaries.  A [dict] keeps its keys in insertion order and the script
    relies on it (JSON key order, the order of the per-cooperative files), so
    a dictionary is an association list updated through [dict_set]. *)

From Stdlib Require Import String Ascii ZArith Lia Bool Arith List Permutation.
From Stdlib Require Import DecimalString DecimalPos DecimalZ.
Import ListNotations.

(** ** Strings *)

Definition str := list ascii.

Definition lit (s : string) : str := list_ascii_of_string s.

Definition code (c : ascii) : N := N_of_ascii c.

Definition in_range (lo hi : N) (c : ascii) : bool :=
  (N.leb lo (code c) && N.leb (code c) hi)%bool.

Definition chr_eqb (a b : ascii) : bool := Ascii.eqb a b.

Fixpoint str_eqb (a b : str) : bool :=
  match a, b with
  | [], [] => true
  | x :: a', y :: b' => chr_eqb x y && str_eqb a' b'
  | _, _ => false
  end.

(** [str.isspace] on one character, which is also the class [\s] of [re] for
    a [str] pattern. *)
Definition is_space (c : ascii) : bool :=
  in_range 9 13 c || in_range 28 32 c || N.eqb (code c) 133 || N.eqb (code c) 160.

Fixpoint drop_while (p : ascii -> bool) (s : str) : str :=
  match s with
  | [] => []
  | c :: t => if p c then drop_while p t else s
  end.

(** [s.strip(chars)], the set of characters given as a predicate: the longest
    prefix and the longest suffix made of such characters are removed. *)
Definition strip_with (p : ascii -> bool) (s : str) : str :=
  rev (drop_while p (rev (drop_while p s))).

(** [s.strip()] *)
Definition strip (s : str) : str := strip_with is_space s.

Definition is_paren (c : ascii) : bool := chr_eqb c "("%char || chr_eqb c ")"%char.

(** [s.strip('()')] *)
Definition strip_parens (s : str) : str := strip_with is_paren s.

(** [s.startswith(p)], with what follows the prefix. *)
Fixpoint after_prefix (p s : str) : option str :=
  match p, s with
  | [], _ => Some s
  | x :: p', y :: s' => if chr_eqb x y then after_prefix p' s' else None
  | _ :: _, [] => None
  end.

Definition startswith (s p : str) : bool :=
  match after_prefix p s with Some _ => true | None => false end.

(** [x in xs] for a list of strings. *)
Definition str_in (x : str) (xs : list str) : bool := existsb (str_eqb x) xs.

(** ** Exceptions *)

Inductive exn := ValueError | KeyError | IndexError | TypeError.

Inductive result (A : Type) :=
| OK (a : A)
| Raise (e : exn).

Arguments OK {A} a.
Arguments Raise {A} e.

Definition bind {A B} (m : result A) (k : A -> result B) : result B :=
  match m with
  | OK a => k a
  | Raise e => Raise e
  end.

Notation "x <- m ;; k" := (bind m (fun x => k))
  (at level 61, m at next level, right associativity).

(** ** The builtins [int] and [str] on integers *)

Definition digit_of (c : ascii) : option Z :=
  if in_range 48 57 c then Some (Z.of_N (code c) - 48)%Z else None.

(** The whitespace [int] skips around the number: the C locale's six and, in a
    string that is not pure ASCII, the two Latin-1 spaces.  The separators
    28-31 are [isspace] but not accepted here. *)
Definition int_space (c : ascii) : bool :=
  in_range 9 13 c || N.eqb (code c) 32 || N.eqb (code c) 133 || N.eqb (code c) 160.

(** The digits that follow a first digit: more digits, each possibly preceded
    by one underscore.  Returns the value and the number of digits read. *)
Fixpoint digits_from (acc : Z) (n : nat) (s : str) : option (Z * nat) :=
  match s with
  | [] => Some (acc, n)
  | c :: t =>
      match digit_of c with
      | Some d => digits_from (10 * acc + d)%Z (S n) t
      | None =>
          if chr_eqb c "_"%char then
            match t with
            | c' :: t' =>
                match digit_of c' with
                | Some d => digits_from (10 * acc + d)%Z (S n) t'
                | None => None
                end
            | [] => None
            end
          else None
      end
  end.

Definition digits (s : str) : option (Z * nat) :=
  match s with
  | c :: t =>
      match digit_of c with
      | Some d => digits_from d 1 t
      | None => None
      end
  | [] => None
  end.

(** [sys.int_info.default_max_str_digits]: CPython 3.11 and later refuse, with
    a [ValueError], a decimal literal of more digits. *)
Definition max_str_digits : nat := 4300.

(** [int(s)] for a string [s]: [None] stands for [ValueError]. *)
Definition py_int (s : str) : option Z :=
  let body := strip_with int_space s in
  let '(neg, ds) :=
    match body with
    | c :: t =>
        if chr_eqb c "-"%char then (true, t)
        else if chr_eqb c "+"%char then (false, t)
        else (false, body)
    | [] => (false, body)
    end in
  match digits ds with
  | Some (v, n) =>
      if Nat.ltb max_str_digits n then None
      else Some (if neg then (- v)%Z else v)
  | None => None
  end.

(** [str(n)] for an integer. *)
Definition str_of_Z (z : Z) : str :=
  list_ascii_of_string (NilZero.string_of_int (Z.to_int z)).

(** ** The two regular expressions

    [re.findall] and [re.split] scan the text from left to right; after a
    match the scan resumes where the match ended.  The functions below recurse
    on the text and carry the number of characters still covered by the last
    match ([skip]); [findall_match] and [split_match] further down give the
    resulting equations. *)

Definition insert_prefix : str := lit "INSERT INTO `alerta_cooperativa_sicoob`".
Definition values_kw : str := lit "VALUES".

(** The longest prefix without a semicolon (what [[^;]+] takes first), and
    what follows it. *)
Fixpoint span_group (s : str) : str * str :=
  match s with
  | [] => ([], [])
  | c :: t =>
      if chr_eqb c ";"%char then ([], s)
      else let '(g, r) := span_group t in (c :: g, r)
  end.

(** [\s*\(([^;]+)\);] at the head of [s]: the group and the text after the
    match.  [\s*] takes all the white space (with less, [\(] faces a blank);
    [[^;]+] runs to the first semicolon and gives back exactly one character,
    which must be the closing parenthesis, and must keep one at least. *)
Definition match_tail (s : str) : option (str * str) :=
  match drop_while is_space s with
  | c :: t =>
      if chr_eqb c "("%char then
        let '(run, rest) := span_group t in
        match rest, rev run with
        | _ :: rest', last :: g_rev =>
            if chr_eqb last ")"%char then
              match g_rev with
              | _ :: _ => Some (rev g_rev, rest')
              | [] => None
              end
            else None
        | _, _ => None
        end
      else None
  | [] => None
  end.

Definition match_values (s : str) : option (str * str) :=
  match after_prefix values_kw s with
  | Some r => match_tail r
  | None => None
  end.

(** [.*?VALUES\s*\(([^;]+)\);] with DOTALL: the lazy [.*?] is lengthened one
    character at a time until the rest of the pattern matches. *)
Fixpoint match_lazy (s : str) : option (str * str) :=
  match match_values s with
  | Some m => Some m
  | None =>
      match s with
      | [] => None
      | _ :: t => match_lazy t
      end
  end.

(** The whole pattern at the head of [s]. *)
Definition match_at (s : str) : option (str * str) :=
  match after_prefix insert_prefix s with
  | Some r => match_lazy r
  | None => None
  end.

Fixpoint findall_from (skip : nat) (s : str) : list str :=
  match s with
  | [] => []
  | _ :: t =>
      match skip with
      | S k => findall_from k t
      | O =>
          match match_at s with
          | Some (g, rest) => g :: findall_from (length s - length rest - 1) t
          | None => findall_from 0 t
          end
      end
  end.

(** [re.findall(insert_pattern, sql_content, re.MULTILINE | re.DOTALL)] *)
Definition findall (s : str) : list str := findall_from 0 s.

(** [\),\s*\(] at the head of [s]: the text after the separator. *)
Definition sep_at (s : str) : option str :=
  match s with
  | c1 :: c2 :: t =>
      if chr_eqb c1 ")"%char && chr_eqb c2 ","%char then
        match drop_while is_space t with
        | c3 :: r => if chr_eqb c3 "("%char then Some r else None
        | [] => None
        end
      else None
  | _ => None
  end.

Fixpoint split_from (skip : nat) (cur : str) (s : str) : list str :=
  match s with
  | [] => [cur]
  | c :: t =>
      match skip with
      | S k => split_from k cur t
      | O =>
          match sep_at s with
          | Some rest => cur :: split_from (length s - length rest - 1) [] t
          | None => split_from 0 (cur ++ [c]) t
          end
      end
  end.

(** [re.split(r'\),\s*\(', match)] *)
Definition split (s : str) : list str := split_from 0 [] s.

(** ** Values, dictionaries and records *)

(** What a field of a record holds: [None], an [int] or a [str]. *)
Inductive value :=
| VNone
| VInt (z : Z)
| VStr (s : str).

Definition dict (V : Type) := list (str * V).

(** [d[k] = v]: an existing key keeps its place, a new one goes last. *)
Fixpoint dict_set {V} (d : dict V) (k : str) (v : V) : dict V :=
  match d with
  | [] => [(k, v)]
  | (k', v') :: d' =>
      if str_eqb k' k then (k', v) :: d' else (k', v') :: dict_set d' k v
  end.

(** [d.get(k)] *)
Fixpoint dict_get {V} (d : dict V) (k : str) : option V :=
  match d with
  | [] => None
  | (k', v') :: d' => if str_eqb k' k then Some v' else dict_get d' k
  end.

(** [k in d] *)
Definition dict_mem {V} (d : dict V) (k : str) : bool :=
  match dict_get d k with Some _ => true | None => false end.

(** [d[k]] *)
Definition getitem {V} (d : dict V) (k : str) : result V :=
  match dict_get d k with Some v => OK v | None => Raise KeyError end.

Definition keys {V} (d : dict V) : list str := map fst d.

Definition record := dict value.

(** ** The schema *)

Definition COLUMNS : list str := map lit [
  "cd_sistema"; "cd_central"; "cd_cooperativa"; "ano"; "mes";
  "nota_sobras_ou_perdas_sobre_recursos_totais"; "nota_inadimplencia";
  "nota_liquidez_na_central"; "nota_adto_depositante";
  "nota_custo_fixo_sobre_total_recursos"; "nota_tarifas_sobre_custo_fixo";
  "nota_honorarios_e_cedula_sobre_custo_fixo"; "nota_folha_encargos_sobre_total_recursos";
  "nota_receita_financeira_sobre_total_recursos"; "nota_retorno_carteira_de_credito";
  "nota_despesas_financeiras_sobre_recursos_captados"; "nota_despesas_captacao_sobre_dep_prazo";
  "nota_resultado_PCLD_sobre_despesas_totais_mes"; "nota_resultado_PCLD_sobre_total_recursos";
  "nota_liquidez_geral"; "nota_participacao_capital_proprio";
  "nota_rentabilidade_sobras_sobre_receitas_brutas"; "nota_rentabilidade_sobre_capital_proprio";
  "nota_evolucao_quadro_social"; "nota_limite_exposicao_por_cliente";
  "nota_concentacao_carteira_credito"; "nota_enquadramento_PRE";
  "nota_concentracao_depositos"; "nota_imobilizacao_capital_proprio";
  "nota_evolucao_patrimonial";
  "alerta_sobras_ou_perdas_sobre_recursos_totais"; "alerta_inadimplencia";
  "alerta_liquidez_na_central"; "alerta_adto_depositante";
  "alerta_custo_fixo_sobre_total_recursos"; "alerta_tarifas_sobre_custo_fixo";
  "alerta_honorarios_e_cedula_sobre_custo_fixo"; "alerta_folha_encargos_sobre_total_recursos";
  "alerta_receita_financeira_sobre_total_recursos"; "alerta_retorno_carteira_de_credito";
  "alerta_despesas_financeiras_sobre_recursos_captados"; "alerta_despesas_captacao_sobre_dep_prazo";
  "alerta_resultado_PCLD_sobre_despesas_totais_mes"; "alerta_resultado_PCLD_sobre_total_recursos";
  "alerta_liquidez_geral"; "alerta_participacao_capital_proprio";
  "alerta_rentabilidade_sobras_sobre_receitas_brutas"; "alerta_rentabilidade_sobre_capital_proprio";
  "alerta_evolucao_quadro_social"; "alerta_limite_exposicao_por_cliente";
  "alerta_concentacao_carteira_credito"; "alerta_enquadramento_PRE";
  "alerta_concentracao_depositos"; "alerta_imobilizacao_capital_proprio";
  "alerta_evolucao_patrimonial";
  "total"; "nu_justificativa"; "nu_plano";
  "tx_justificativa"; "tx_plano"; "st_justificativa"; "st_plano"
]%string.

(** ** [parse_sql_insert_values] *)

(** The state of the character loop over one row. *)
Record tok_state := {
  values : list str;
  current_value : str;
  in_quotes : bool
}.

Definition tok_init : tok_state :=
  {| values := []; current_value := []; in_quotes := false |}.

(** A string is true in a condition when it is not empty. *)
Definition truthy (s : str) : bool :=
  match s with [] => false | _ :: _ => true end.

(** [if current_value.strip(): values.append(current_value.strip())] *)
Definition flush (vs : list str) (cur : str) : list str :=
  if truthy (strip cur) then vs ++ [strip cur] else vs.

(** One turn of [for char in row]. *)
Definition tok_step (st : tok_state) (char : ascii) : tok_state :=
  if chr_eqb char "'"%char && negb (in_quotes st) then
    {| values := values st; current_value := []; in_quotes := true |}
  else if chr_eqb char "'"%char && in_quotes st then
    {| values := values st ++ [current_value st]; current_value := [];
       in_quotes := false |}
  else if chr_eqb char ","%char && negb (in_quotes st) then
    {| values := flush (values st) (current_value st); current_value := [];
       in_quotes := in_quotes st |}
  else
    {| values := values st; current_value := current_value st ++ [char];
       in_quotes := in_quotes st |}.

Definition tok_loop (st : tok_state) (row : str) : tok_state :=
  fold_left tok_step row st.

(** The last value is added after the loop. *)
Definition tok_finish (st : tok_state) : list str :=
  flush (values st) (current_value st).

(** The tokens of a row, once stripped of blanks and parentheses. *)
Definition tokenize (row : str) : list str :=
  tok_finish (tok_loop tok_init row).

Definition int_or_raise (val : str) : result value :=
  match py_int val with
  | Some z => OK (VInt z)
  | None => Raise ValueError
  end.

(** The [if]/[elif] chain that types one token for its column. *)
Definition convert (col val : str) : result value :=
  if str_eqb val [] || str_eqb val (lit "''") then OK VNone
  else if str_in col [lit "ano"; lit "mes"] then int_or_raise val
  else if startswith col (lit "nota_") || startswith col (lit "alerta_")
          || str_in col [lit "total"; lit "nu_justificativa"; lit "nu_plano";
                         lit "st_justificativa"; lit "st_plano"]
  then int_or_raise val
  else if str_in col [lit "cd_sistema"; lit "cd_central"; lit "cd_cooperativa"]
  then int_or_raise val
  else OK (VStr val).

(** [for col, val in zip(COLUMNS, values): record[col] = ...] *)
Fixpoint fill_record (rec : record) (pairs : list (str * str)) : result record :=
  match pairs with
  | [] => OK rec
  | (col, val) :: rest =>
      v <- convert col val ;;
      fill_record (dict_set rec col v) rest
  end.

(** [record = {}] and the loop over [zip(COLUMNS, values)]. *)
Definition build_record (vs : list str) : result record :=
  fill_record [] (combine COLUMNS vs).

(** [row.strip().strip('()')] *)
Definition clean_row (row : str) : str := strip_parens (strip row).

(** The body of [for row in rows], on the list of records built so far. *)
Definition process_row (records : list record) (row : str) : result (list record) :=
  let vs := tokenize (clean_row row) in
  if Nat.eqb (length vs) (length COLUMNS) then
    rec <- build_record vs ;;
    OK (records ++ [rec])
  else OK records.

(** A [for] loop whose body may raise. *)
Fixpoint for_each {A S} (body : S -> A -> result S) (xs : list A) (s : S) : result S :=
  match xs with
  | [] => OK s
  | x :: xs' => s' <- body s x ;; for_each body xs' s'
  end.

(** The body of [for match in matches]. *)
Definition process_match (records : list record) (m : str) : result (list record) :=
  for_each process_row (split m) records.

Definition parse_sql_insert_values (sql_content : str) : result (list record) :=
  for_each process_match (findall sql_content) [].

(** ** Output: files and the console

    The script's effects are recorded as a trace of events: what is printed,
    which file is read, and which file is written with what.  A JSON document
    is kept as the object given to [json.dump] and a CSV file as its rows of
    fields, before quoting.  Opening a file for writing is assumed to succeed
    (the directories exist and are writable). *)

Definition path := list str.

(** [p / name] and [p.parent] *)
Definition path_join (p : path) (name : str) : path := p ++ [name].
Definition parent (p : path) : path := removelast p.

Inductive content :=
| JsonConsolidated (total_records total_cooperativas : nat)
                   (fonte data_extracao : str) (data : list record)
| JsonCooperativa (cooperativa : value) (total_registros : nat)
                  (periodos : list record)
| Csv (rows : list (list str)).

(** The lines the script prints, one constructor per [print] call. *)
Inductive message :=
| MRule
| MTitle
| MSqlNotFound (p : path)
| MReading
| MFileRead (n : nat)
| MExtracting
| MExtracted (n : nat)
| MStatistics
| MCooperativas (n : nat) (lo hi : value)
| MPeriodo (lo hi : value)
| MTotal (n : nat)
| MSaving
| MJsonSaved (p : path)
| MCoopJsonSaved (p : path)
| MCsvSaved (p : path)
| MNothingToSave
| MDone
| MNoRecords
| MLastRule.

Inductive event :=
| EPrint (m : message)
| ERead (p : path)
| EWrite (p : path) (c : content).

(** A computation with effects: the trace it leaves and how it ends. *)
Definition io (A : Type) : Type := list event * result A.

Definition io_ret {A} (a : A) : io A := ([], OK a).

Definition io_bind {A B} (m : io A) (k : A -> io B) : io B :=
  match m with
  | (t, OK a) => let '(t', r) := k a in (t ++ t', r)
  | (t, Raise e) => (t, Raise e)
  end.

Definition emit (e : event) : io unit := ([e], OK tt).
Definition print (m : message) : io unit := emit (EPrint m).
Definition lift {A} (r : result A) : io A := ([], r).

Notation "x <~ m ;; k" := (io_bind m (fun x => k))
  (at level 61, m at next level, right associativity).
Notation "m ;;; k" := (io_bind m (fun _ => k))
  (at level 61, right associativity).

(** A sequence of statements run for each element of a list. *)
Fixpoint io_iter {A} (body : A -> io unit) (xs : list A) : io unit :=
  match xs with
  | [] => io_ret tt
  | x :: xs' => body x ;;; io_iter body xs'
  end.

(** ** [save_to_json] *)

(** [str(v)], as an f-string and the csv writer format a field. *)
Definition format_value (v : value) : str :=
  match v with
  | VNone => lit "None"
  | VInt z => str_of_Z z
  | VStr s => s
  end.

(** The body of [for record in records] that fills [by_cooperativa]. *)
Definition group_step (by_cooperativa : dict (list record)) (rec : record)
  : result (dict (list record)) :=
  v <- getitem rec (lit "cd_cooperativa") ;;
  let coop_key := lit "cooperativa_" ++ format_value v in
  let by1 :=
    if dict_mem by_cooperativa coop_key then by_cooperativa
    else dict_set by_cooperativa coop_key [] in
  l <- getitem by1 coop_key ;;
  OK (dict_set by1 coop_key (l ++ [rec])).

Definition group_records (records : list record) : result (dict (list record)) :=
  for_each group_step records [].

(** The body of [for coop_key, coop_records in by_cooperativa.items()]. *)
Definition write_cooperativa (output_path : path) (item : str * list record) : io unit :=
  let '(coop_key, coop_records) := item in
  let coop_file :=
    path_join (path_join (parent output_path) (lit "balances"))
              (coop_key ++ lit ".json") in
  first <~ lift (match coop_records with
                 | r :: _ => getitem r (lit "cd_cooperativa")
                 | [] => Raise IndexError
                 end) ;;
  emit (EWrite coop_file
          (JsonCooperativa first (length coop_records) coop_records)) ;;;
  print (MCoopJsonSaved coop_file).

Definition save_to_json (records : list record) (output_path : path) : io unit :=
  by_cooperativa <~ lift (group_records records) ;;
  emit (EWrite output_path
          (JsonConsolidated (length records) (length by_cooperativa)
             (lit "grc-web.sql") (lit "2025-10-23") records)) ;;;
  print (MJsonSaved output_path) ;;;
  io_iter (write_cooperativa output_path) by_cooperativa.

(** ** [save_to_csv] *)

(** What [csv.DictWriter] writes for a field: [None] as the empty string. *)
Definition csv_field (v : option value) : str :=
  match v with
  | None => []                      (* [restval] for a missing key *)
  | Some VNone => []
  | Some (VInt z) => str_of_Z z
  | Some (VStr s) => s
  end.

(** [DictWriter._dict_to_list]: a key outside [fieldnames] is refused. *)
Definition dict_to_list (fieldnames : list str) (rowdict : record) : result (list str) :=
  if forallb (fun k => str_in k fieldnames) (keys rowdict) then
    OK (map (fun k => csv_field (dict_get rowdict k)) fieldnames)
  else Raise ValueError.

(** [writer.writerows(records)]: the rows written, and whether a record
    stopped the loop. *)
Fixpoint writerows (fieldnames : list str) (records : list record)
  : list (list str) * result unit :=
  match records with
  | [] => ([], OK tt)
  | r :: rs =>
      match dict_to_list fieldnames r with
      | OK row => let '(rows, res) := writerows fieldnames rs in (row :: rows, res)
      | Raise e => ([], Raise e)
      end
  end.

Definition save_to_csv (records : list record) (output_path : path) : io unit :=
  match records with
  | [] => print MNothingToSave
  | _ :: _ =>
      let '(rows, res) := writerows COLUMNS records in
      emit (EWrite output_path (Csv (COLUMNS :: rows))) ;;;
      lift res ;;;
      print (MCsvSaved output_path)
  end.

(** ** [main] *)

(** [a < b] between two values: only two integers or two strings compare. *)
Fixpoint str_ltb (a b : str) : bool :=
  match a, b with
  | _, [] => false
  | [], _ :: _ => true
  | x :: a', y :: b' =>
      if N.ltb (code x) (code y) then true
      else if N.ltb (code y) (code x) then false
      else str_ltb a' b'
  end.

Definition value_lt (a b : value) : result bool :=
  match a, b with
  | VInt x, VInt y => OK (Z.ltb x y)
  | VStr x, VStr y => OK (str_ltb x y)
  | _, _ => Raise TypeError
  end.

Definition value_eqb (a b : value) : bool :=
  match a, b with
  | VNone, VNone => true
  | VInt x, VInt y => Z.eqb x y
  | VStr x, VStr y => str_eqb x y
  | _, _ => false
  end.

(** [set(...)]: the distinct values.  The order a set is walked in is the
    interpreter's; [min], [max] and [len] do not depend on it. *)
Fixpoint py_set (xs : list value) : list value :=
  match xs with
  | [] => []
  | x :: t => x :: filter (fun y => negb (value_eqb x y)) (py_set t)
  end.

(** [min(xs)] and [max(xs)] *)
Definition py_min (xs : list value) : result value :=
  match xs with
  | [] => Raise ValueError
  | x :: t =>
      for_each (fun cur item => b <- value_lt item cur ;; OK (if b then item else cur)) t x
  end.

Definition py_max (xs : list value) : result value :=
  match xs with
  | [] => Raise ValueError
  | x :: t =>
      for_each (fun cur item => b <- value_lt cur item ;; OK (if b then item else cur)) t x
  end.

(** [set(r[k] for r in records)] *)
Definition column_set (k : str) (records : list record) : result (list value) :=
  vs <- for_each (fun acc r => v <- getitem r k ;; OK (acc ++ [v])) records [] ;;
  OK (py_set vs).

Definition sql_file : path :=
  map lit ["Users"; "ceciliodaher"; "Library"; "CloudStorage"; "OneDrive-Personal";
           "Downloads"; "Mac-Downloads"; "grc-web.sql"]%string.

Definition output_dir : path :=
  map lit ["Users"; "ceciliodaher"; "Documents"; "git"; "creditscore-pro"; "data"]%string.

(** [main], run on a file system where [sql_file] holds [Some] text (as
    decoded by [open]) or does not exist. *)
Definition main (fs : option str) : io unit :=
  print MRule ;;; print MTitle ;;; print MRule ;;;
  match fs with
  | None => print (MSqlNotFound sql_file)
  | Some sql_content =>
      print MReading ;;;
      emit (ERead sql_file) ;;;
      print (MFileRead (length sql_content)) ;;;
      print MExtracting ;;;
      records <~ lift (parse_sql_insert_values sql_content) ;;
      print (MExtracted (length records)) ;;;
      match records with
      | _ :: _ =>
          cooperativas <~ lift (column_set (lit "cd_cooperativa") records) ;;
          anos <~ lift (column_set (lit "ano") records) ;;
          print MStatistics ;;;
          lo <~ lift (py_min cooperativas) ;;
          hi <~ lift (py_max cooperativas) ;;
          print (MCooperativas (length cooperativas) lo hi) ;;;
          lo' <~ lift (py_min anos) ;;
          hi' <~ lift (py_max anos) ;;
          print (MPeriodo lo' hi') ;;;
          print (MTotal (length records)) ;;;
          print MSaving ;;;
          save_to_json records (path_join output_dir (lit "alerta_cooperativa_sicoob.json")) ;;;
          save_to_csv records (path_join output_dir (lit "alerta_cooperativa_sicoob.csv")) ;;;
          print MDone
      | [] => print MNoRecords
      end ;;;
      print MLastRule
  end.

(** ** Vocabulary of the statements

    The definitions below are not part of the script; the theorems use them
    to speak about it. *)

(** The rows in the order the two nested loops visit them. *)
Definition all_rows (sql_content : str) : list str :=
  flat_map split (findall sql_content).

(** The tokens of a row as the loop body computes them. *)
Definition row_tokens (row : str) : list str := tokenize (clean_row row).

(** The columns the [elif] chain sends to [int]. *)
Definition is_int_column (col : str) : bool :=
  str_in col [lit "ano"; lit "mes"]
  || (startswith col (lit "nota_") || startswith col (lit "alerta_")
      || str_in col [lit "total"; lit "nu_justificativa"; lit "nu_plano";
                     lit "st_justificativa"; lit "st_plano"])
  || str_in col [lit "cd_sistema"; lit "cd_central"; lit "cd_cooperativa"].

(** A token [int] is called on and refuses. *)
Definition untypable (col val : str) : bool :=
  is_int_column col && negb (str_eqb val []) && negb (str_eqb val (lit "''"))
  && match py_int val with Some _ => false | None => true end.

(** A row with the schema's number of tokens, one of them untypable. *)
Definition row_raises (row : str) : bool :=
  Nat.eqb (length (row_tokens row)) 62
  && existsb (fun p => untypable (fst p) (snd p)) (combine COLUMNS (row_tokens row)).

(** What the loop body makes of one row: nothing, or one record. *)
Definition row_record (row : str) : result (option record) :=
  if Nat.eqb (length (row_tokens row)) 62 then
    rec <- build_record (row_tokens row) ;; OK (Some rec)
  else OK None.

(** The records of a list of rows, from an empty list. *)
Definition rows_records (rows : list str) : result (list record) :=
  for_each process_row rows [].

(** A field holds an integer or null. *)
Definition int_or_null (v : value) : Prop :=
  v = VNone \/ exists z, v = VInt z.

(** A string without the quote character. *)
Definition quote_free (s : str) : Prop := ~ In "'"%char s.

(** The strings of a list occur in a text one after the other, without
    overlap, in the order of the list. *)
Inductive occurs_in_order : list str -> str -> Prop :=
| oio_nil (s : str) : occurs_in_order [] s
| oio_cons (a g b : str) (gs : list str) :
    occurs_in_order gs b -> occurs_in_order (g :: gs) (a ++ g ++ b).

(** [subseq xs ys]: [xs] is [ys] with some elements left out. *)
Inductive subseq {A : Type} : list A -> list A -> Prop :=
| subseq_nil : subseq [] []
| subseq_skip (y : A) (xs ys : list A) : subseq xs ys -> subseq xs (y :: ys)
| subseq_keep (x : A) (xs ys : list A) : subseq xs ys -> subseq (x :: xs) (x :: ys).

(** The key [save_to_json] files a record under, when it has the column. *)
Definition coop_key_of (rec : record) : option str :=
  match dict_get rec (lit "cd_cooperativa") with
  | Some v => Some (lit "cooperativa_" ++ format_value v)
  | None => None
  end.

Definition has_coop_key (k : str) (rec : record) : bool :=
  match coop_key_of rec with
  | Some k' => str_eqb k' k
  | None => false
  end.

(** What [by_cooperativa] is once the records [done] have been filed: no key
    twice, under each key the records of that key in the order of [done] and
    at least one, a key for every record, and all in all the records of
    [done] and no other. *)
Definition grouped (done : list record) (by_cooperativa : dict (list record)) : Prop :=
  NoDup (keys by_cooperativa) /\
  (forall k g, In (k, g) by_cooperativa ->
               g <> [] /\ g = filter (has_coop_key k) done) /\
  (forall r, In r done ->
             exists k, coop_key_of r = Some k /\ In k (keys by_cooperativa)) /\
  Permutation (concat (map snd by_cooperativa)) done.

(** The file of a cooperative, beside the consolidated file [output_path]. *)
Definition coop_file_of (output_path : path) (coop_key : str) : path :=
  path_join (path_join (parent output_path) (lit "balances")) (coop_key ++ lit ".json").

(** The [cd_cooperativa] of the first record of a group. *)
Definition first_cooperativa (coop_records : list record) : value :=
  match coop_records with
  | r :: _ =>
      match dict_get r (lit "cd_cooperativa") with Some v => v | None => VNone end
  | [] => VNone
  end.

(** The events of one turn of the loop over [by_cooperativa.items()]. *)
Definition coop_events (output_path : path) (item : str * list record) : list event :=
  [EWrite (coop_file_of output_path (fst item))
          (JsonCooperativa (first_cooperativa (snd item)) (length (snd item)) (snd item));
   EPrint (MCoopJsonSaved (coop_file_of output_path (fst item)))].

(** The row [DictWriter] writes for a record of the schema. *)
Definition csv_row (rec : record) : list str :=
  map (fun k => csv_field (dict_get rec k)) COLUMNS.

(** Readings of a trace: the record counts the written documents announce. *)
Definition total_records_written (t : list event) : list nat :=
  flat_map (fun e => match e with
                     | EWrite _ (JsonConsolidated n _ _ _ _) => [n]
                     | _ => []
                     end) t.

Definition total_registros_written (t : list event) : list nat :=
  flat_map (fun e => match e with
                     | EWrite _ (JsonCooperativa _ n _) => [n]
                     | _ => []
                     end) t.

(** The number of rows after the header, for each CSV file written. *)
Definition csv_data_rows_written (t : list event) : list nat :=
  flat_map (fun e => match e with
                     | EWrite _ (Csv rows) => [length rows - 1]
                     | _ => []
                     end) t.

(** Readings of a trace: the record lists of the written documents. *)
Definition data_written (t : list event) : list (list record) :=
  flat_map (fun e => match e with
                     | EWrite _ (JsonConsolidated _ _ _ _ data) => [data]
                     | _ => []
                     end) t.

(** The per-cooperative files: where each is written and its [periodos]. *)
Definition coop_files_written (t : list event) : list (path * list record) :=
  flat_map (fun e => match e with
                     | EWrite p (JsonCooperativa _ _ periodos) => [(p, periodos)]
                     | _ => []
                     end) t.

Definition csv_written (t : list event) : list (list (list str)) :=
  flat_map (fun e => match e with
                     | EWrite _ (Csv rows) => [rows]
                     | _ => []
                     end) t.

(** The files a trace writes, in order. *)
Definition paths_written (t : list event) : list path :=
  flat_map (fun e => match e with EWrite p _ => [p] | _ => [] end) t.

Definition is_read (e : event) : bool :=
  match e with ERead _ => true | _ => false end.

(** [nodupb xs]: no string occurs twice. *)
Fixpoint nodupb (xs : list str) : bool :=
  match xs with
  | [] => true
  | x :: t => negb (str_in x t) && nodupb t
  end.

(** A row with the schema's number of tokens. *)
Definition is_full_row (row : str) : bool :=
  Nat.eqb (length (row_tokens row)) 62.

(** A text field as the parser can return it: not empty, and without the
    two characters the patterns and the character loop never let through. *)
Definition clean_text (s : str) : Prop :=
  s <> [] /\ ~ In "'"%char s /\ ~ In ";"%char s.

(** A field as a dump writes it: bare (a number, NULL) or between quotes. *)
Inductive field :=
| Bare (s : str)
| Quoted (s : str).

Definition render_field (f : field) : str :=
  match f with
  | Bare s => s
  | Quoted s => "'"%char :: s ++ ["'"%char]
  end.

(** The value of a field: its text, without the quotes. *)
Definition field_token (f : field) : str :=
  match f with
  | Bare s => s
  | Quoted s => s
  end.

(** The fields of a row, separated by commas. *)
Fixpoint render_row (fs : list field) : str :=
  match fs with
  | [] => []
  | f :: fs' =>
      match fs' with
      | [] => render_field f
      | _ :: _ => render_field f ++ ","%char :: render_row fs'
      end
  end.

(** The rows of a statement, separated by [),(]. *)
Fixpoint render_rows (rows : list (list field)) : str :=
  match rows with
  | [] => []
  | fs :: rows' =>
      match rows' with
      | [] => render_row fs
      | _ :: _ => render_row fs ++ lit "),(" ++ render_rows rows'
      end
  end.

(** One INSERT statement of the table, as [mysqldump] writes it. *)
Definition render_statement (rows : list (list field)) : str :=
  insert_prefix ++ lit " VALUES (" ++ render_rows rows ++ lit ");".

(** The statements of a dump, one per line. *)
Definition render_dump (stmts : list (list (list field))) : str :=
  flat_map (fun rows => render_statement rows ++ [ascii_of_nat 10]) stmts.

(** The characters of a bare field: no blank, quote, comma, parenthesis or
    semicolon. *)
Definition bare_char (c : ascii) : bool :=
  negb (is_space c || chr_eqb c "'"%char || chr_eqb c ","%char
        || chr_eqb c "("%char || chr_eqb c ")"%char || chr_eqb c ";"%char).

(** The characters of a quoted field: no quote, closing parenthesis or
    semicolon. *)
Definition quoted_char (c : ascii) : bool :=
  negb (chr_eqb c "'"%char || chr_eqb c ")"%char || chr_eqb c ";"%char).

Definition well_formed (f : field) : bool :=
  match f with
  | Bare s => truthy s && forallb bare_char s
  | Quoted s => forallb quoted_char s
  end.

Definition well_formed_row (fs : list field) : bool :=
  match fs with
  | [] => false
  | _ :: _ => forallb well_formed fs
  end.

(** What the row loop makes of rows given by their field values. *)
Definition records_of_fields (rows : list (list field)) : result (list record) :=
  for_each (fun acc fs =>
              if Nat.eqb (length fs) 62 then
                rec <- build_record (map field_token fs) ;; OK (acc ++ [rec])
              else OK acc) rows [].

(** A statement with at least one row, all its rows well formed. *)
Definition well_formed_statement (rows : list (list field)) : bool :=
  match rows with
  | [] => false
  | _ :: _ => forallb well_formed_row rows
  end.

(** The [total_cooperativas] the consolidated documents announce. *)
Definition total_cooperativas_written (t : list event) : list nat :=
  flat_map (fun e => match e with
                     | EWrite _ (JsonConsolidated _ n _ _ _) => [n]
                     | _ => []
                     end) t.



(** The values of a column, record after record (a record without the
    column gives none). *)
Definition column_values (k : str) (records : list record) : list value :=
  flat_map (fun r => match dict_get r k with Some v => [v] | None => [] end) records.

(** The key a value of [cd_cooperativa] is filed under. *)
Definition key_of_value (v : value) : str := lit "cooperativa_" ++ format_value v.

Definition is_int_value (v : value) : bool :=
  match v with VInt _ => true | _ => false end.

(** The two files [main] gives to the writers. *)
Definition json_path : path := path_join output_dir (lit "alerta_cooperativa_sicoob.json").
Definition csv_path : path := path_join output_dir (lit "alerta_cooperativa_sicoob.csv").

(** The per-cooperative documents of a trace: path, [cooperativa],
    [total_registros] and [periodos]. *)
Definition coop_docs_written (t : list event)
  : list (path * value * nat * list record) :=
  flat_map (fun e => match e with
                     | EWrite p (JsonCooperativa v n periodos) => [(p, v, n, periodos)]
                     | _ => []
                     end) t.

(** What a column of a parsed record can hold. *)
Definition field_ok (col : str) (v : value) : Prop :=
  if is_int_column col then int_or_null v
  else v = VNone \/ exists s, v = VStr s /\ s <> [].

(** [agrees p t]: [p] and [t] are the same as far as both go, so that [t],
    followed by more text, could start with [p]. *)
Fixpoint agrees (p t : str) : bool :=
  match p, t with
  | [], _ => true
  | _ :: _, [] => true
  | x :: p', y :: t' => chr_eqb x y && agrees p' t'
  end.

(** Text at no place of which the INSERT prefix of the table starts, not
    even cut short by the end of the text. *)
Fixpoint other_text (s : str) : bool :=
  match s with
  | [] => true
  | _ :: t => negb (agrees insert_prefix s) && other_text t
  end.

(** Text at no place of which the keyword VALUES starts, not even cut short
    by the end of the text. *)
Fixpoint no_values (s : str) : bool :=
  match s with
  | [] => true
  | _ :: t => negb (agrees values_kw s) && no_values t
  end.

(** An INSERT statement of the table with any text [mid] (a column list,
    say) between the table name and VALUES, and blanks [w] after VALUES. *)
Definition render_statement_with (mid w : str) (rows : list (list field)) : str :=
  insert_prefix ++ mid ++ values_kw ++ w ++ "("%char :: render_rows rows ++ lit ");".

(** The backslash, by which a dump escapes a quote inside a literal. *)
Definition backslash : ascii := ascii_of_nat 92.

(** A text that holds two quote characters in a row, as the literal of an
    empty string is written. *)
Definition holds_quoted_empty (s : str) : Prop :=
  exists a b, s = a ++ lit "''" ++ b.

(** The strings of a list in the order they first appear, each once. *)
Fixpoint first_seen (ks : list str) : list str :=
  match ks with
  | [] => []
  | k :: t => k :: filter (fun k' => negb (str_eqb k k')) (first_seen t)
  end.

(** ** Sample texts, used to run the definitions *)

(** A row of 62 fields, two of them quoted, one with a comma inside. *)
Definition row_a : str := lit
  "1,2,3,2024,5,5,1,4,2,5,1,3,4,5,2,1,4,4,1,1,1,2,4,1,4,1,5,1,5,5,0,1,1,0,1,3,3,2,0,0,1,1,0,1,0,0,1,2,0,3,2,3,1,2,3,9,1,1,'late, twice','',0,1".

(** A second full row, of another cooperative. *)
Definition row_b : str := lit
  "1,2,4,2023,12,5,4,4,1,5,4,5,1,3,5,2,3,2,5,5,5,3,2,3,3,3,3,1,5,2,2,2,1,0,2,1,3,2,1,2,0,3,0,1,1,1,1,1,3,1,2,0,0,3,1,7,0,0,'ok','plan b',1,0".

(** A third full row, of the first row's cooperative. *)
Definition row_c : str := lit
  "1,2,3,2024,6,2,2,2,3,3,2,3,3,2,4,2,5,4,2,1,5,2,2,4,3,5,5,2,1,3,2,2,3,2,2,0,1,2,3,3,3,2,2,0,1,1,2,0,2,1,1,3,1,0,0,8,1,0,'x','',0,0".

(** A row of two fields. *)
Definition row_short : str := lit
  "1,2".

(** [row_a] with [NULL], as a dump writes a missing value, in the first [nota_] column. *)
Definition row_null : str := lit
  "1,2,3,2024,5,NULL,1,4,2,5,1,3,4,5,2,1,4,4,1,1,1,2,4,1,4,1,5,1,5,5,0,1,1,0,1,3,3,2,0,0,1,1,0,1,0,0,1,2,0,3,2,3,1,2,3,9,1,1,'late, twice','',0,1".

(** [row_a] with nothing between the commas of the first [nota_] column. *)
Definition row_gap : str := lit
  "1,2,3,2024,5,,1,4,2,5,1,3,4,5,2,1,4,4,1,1,1,2,4,1,4,1,5,1,5,5,0,1,1,0,1,3,3,2,0,0,1,1,0,1,0,0,1,2,0,3,2,3,1,2,3,9,1,1,'late, twice','',0,1".

(** [row_a] with a quoted-empty [cd_cooperativa]. *)
Definition row_nocoop : str := lit
  "1,2,'',2024,5,5,1,4,2,5,1,3,4,5,2,1,4,4,1,1,1,2,4,1,4,1,5,1,5,5,0,1,1,0,1,3,3,2,0,0,1,1,0,1,0,0,1,2,0,3,2,3,1,2,3,9,1,1,'late, twice','',0,1".

(** [row_a] with a semicolon for the comma of its text field. *)
Definition row_semicolon : str := lit
  "1,2,3,2024,5,5,1,4,2,5,1,3,4,5,2,1,4,4,1,1,1,2,4,1,4,1,5,1,5,5,0,1,1,0,1,3,3,2,0,0,1,1,0,1,0,0,1,2,0,3,2,3,1,2,3,9,1,1,'late; twice','',0,1".

(** One INSERT statement around the given rows. *)
Definition insert_of (rows : list str) : str :=
  lit "INSERT INTO `alerta_cooperativa_sicoob` VALUES ("
  ++ concat (map (fun r => r ++ lit "),(") (removelast rows)) ++ last rows []
  ++ lit ");".

Definition sql_good : str := insert_of [row_a; row_short; row_b; row_c].
Definition sql_null : str := insert_of [row_a; row_null].
Definition sql_gap : str := insert_of [row_gap].

Definition sql_mixed : str := insert_of [row_nocoop; row_b].
Definition sql_semicolon : str := insert_of [row_semicolon].

(** A dump without any INSERT statement for the table. *)
Definition sql_other : str := lit "CREATE TABLE `t` (`a` int);".

(** The records of [sql_good], computed once. *)
Definition records_good : list record :=
  Eval vm_compute in
    match parse_sql_insert_values sql_good with
    | OK records => records
    | Raise _ => []
    end.

(** The fields of [row_a], [row_b] and [row_short]. *)
Definition fields_a : list field :=
  map Bare (firstn 58 (row_tokens row_a))
  ++ [Quoted (lit "late, twice"); Quoted []; Bare (lit "0"); Bare (lit "1")].

Definition fields_b : list field :=
  map Bare (firstn 58 (row_tokens row_b))
  ++ [Quoted (lit "ok"); Quoted (lit "plan b"); Bare (lit "1"); Bare (lit "0")].

Definition fields_short : list field := [Bare (lit "1"); Bare (lit "2")].

(** A dump of two statements. *)
Definition dump_good : list (list (list field)) :=
  [[fields_a; fields_short]; [fields_b]].

(** What a dump holds before the statements of the table. *)
Definition noise_good : str :=
  lit "-- MySQL dump
LOCK TABLES `alerta_cooperativa_sicoob` WRITE;
INSERT INTO `alerta_central` VALUES (1,2);
".

(** [row_a] with an escaped quote in its text field, before the comma. *)
Definition row_escaped : str := lit
  "1,2,3,2024,5,5,1,4,2,5,1,3,4,5,2,1,4,4,1,1,1,2,4,1,4,1,5,1,5,5,0,1,1,0,1,3,3,2,0,0,1,1,0,1,0,0,1,2,0,3,2,3,1,2,3,9,1,1,'late\', twice','',0,1".

Definition sql_escaped : str := insert_of [row_escaped].

(** * Properties *)

(** ** Characters, strings and loops *)

Lemma chr_eqb_eq (a b : ascii) : chr_eqb a b = true <-> a = b.
Proof. apply Ascii.eqb_eq. Qed.

Lemma chr_eqb_refl (a : ascii) : chr_eqb a a = true.
Proof. apply Ascii.eqb_refl. Qed.

Lemma chr_eqb_neq (a b : ascii) : chr_eqb a b = false <-> a <> b.
Proof. apply Ascii.eqb_neq. Qed.

Lemma str_eqb_eq (a b : str) : str_eqb a b = true <-> a = b.
Proof.
  revert b; induction a as [|x a IH]; intros [|y b]; simpl; split;
    try discriminate; try reflexivity.
  - intros H. apply andb_true_iff in H as [Hx Ha].
    apply chr_eqb_eq in Hx. apply IH in Ha. congruence.
  - intros H. injection H as -> ->.
    rewrite chr_eqb_refl. simpl. apply IH. reflexivity.
Qed.

Lemma str_eqb_refl (a : str) : str_eqb a a = true.
Proof. apply str_eqb_eq. reflexivity. Qed.

Lemma str_eqb_neq (a b : str) : str_eqb a b = false <-> a <> b.
Proof.
  split.
  - intros H E. apply str_eqb_eq in E. congruence.
  - intros H. destruct (str_eqb a b) eqn:E; [|reflexivity].
    apply str_eqb_eq in E. contradiction.
Qed.

Lemma str_in_In (x : str) (xs : list str) : str_in x xs = true <-> In x xs.
Proof.
  unfold str_in. rewrite existsb_exists. split.
  - intros (y & Hy & E). apply str_eqb_eq in E. subst. exact Hy.
  - intros H. exists x. split; [exact H | apply str_eqb_refl].
Qed.

Lemma after_prefix_app (p s r : str) :
  after_prefix p s = Some r <-> s = p ++ r.
Proof.
  revert s; induction p as [|x p IH]; intros s; simpl.
  - split; congruence.
  - destruct s as [|y s].
    + split; discriminate.
    + destruct (chr_eqb x y) eqn:E.
      * apply chr_eqb_eq in E. subst. rewrite IH. split; congruence.
      * apply chr_eqb_neq in E. split; [discriminate | congruence].
Qed.

Lemma drop_while_suffix (p : ascii -> bool) (s : str) :
  exists a, s = a ++ drop_while p s /\ forallb p a = true.
Proof.
  induction s as [|c s (a & E & Ha)]; simpl.
  - exists []. split; reflexivity.
  - destruct (p c) eqn:Hc.
    + exists (c :: a). simpl. rewrite Hc, Ha. split; [congruence | reflexivity].
    + exists []. split; reflexivity.
Qed.

Lemma strip_with_infix (p : ascii -> bool) (s : str) :
  exists a b, s = a ++ strip_with p s ++ b.
Proof.
  unfold strip_with.
  destruct (drop_while_suffix p s) as (a & E & _).
  destruct (drop_while_suffix p (rev (drop_while p s))) as (b & E' & _).
  exists a, (rev b).
  rewrite <- rev_app_distr, <- E', rev_involutive. exact E.
Qed.

(** [for_each] over a concatenation. *)
Lemma for_each_app {A S} (body : S -> A -> result S) (xs ys : list A) (s : S) :
  for_each body (xs ++ ys) s = (s' <- for_each body xs s ;; for_each body ys s').
Proof.
  revert s; induction xs as [|x xs IH]; intros s; simpl; [reflexivity|].
  destruct (body s x); simpl; [apply IH | reflexivity].
Qed.

Lemma for_each_snoc {A S} (body : S -> A -> result S) (xs : list A) (x : A) (s : S) :
  for_each body (xs ++ [x]) s = (s' <- for_each body xs s ;; body s' x).
Proof.
  rewrite for_each_app. destruct (for_each body xs s); simpl; [|reflexivity].
  destruct (body a x); reflexivity.
Qed.

Lemma for_each_flat_map {A B S} (body : S -> B -> result S) (f : A -> list B)
      (xs : list A) (s : S) :
  for_each (fun acc x => for_each body (f x) acc) xs s
  = for_each body (flat_map f xs) s.
Proof.
  revert s; induction xs as [|x xs IH]; intros s; simpl; [reflexivity|].
  rewrite for_each_app. destruct (for_each body (f x) s); simpl; [apply IH | reflexivity].
Qed.

(** ** Strings occurring in order *)

Lemma oio_prefix (a s : str) (gs : list str) :
  occurs_in_order gs s -> occurs_in_order gs (a ++ s).
Proof.
  intros H. destruct H as [s | a' g b gs H].
  - constructor.
  - rewrite app_assoc. constructor. exact H.
Qed.

Lemma oio_suffix (s b : str) (gs : list str) :
  occurs_in_order gs s -> occurs_in_order gs (s ++ b).
Proof.
  induction 1 as [s | a g b' gs H IH].
  - constructor.
  - rewrite <- !app_assoc. constructor. exact IH.
Qed.

Lemma oio_app (xs ys : list str) (a b : str) :
  occurs_in_order xs a -> occurs_in_order ys b ->
  occurs_in_order (xs ++ ys) (a ++ b).
Proof.
  induction 1 as [s | a' g b' gs H IH]; intros Hy; simpl.
  - apply oio_prefix. exact Hy.
  - rewrite <- !app_assoc. constructor. apply IH. exact Hy.
Qed.

Lemma oio_flat_map (f : str -> list str) (gs : list str) (s : str) :
  occurs_in_order gs s ->
  (forall g, In g gs -> occurs_in_order (f g) g) ->
  occurs_in_order (flat_map f gs) s.
Proof.
  induction 1 as [s | a g b gs H IH]; intros Hf; simpl.
  - constructor.
  - apply oio_prefix. apply oio_app.
    + apply Hf. left. reflexivity.
    + apply IH. intros g' Hg'. apply Hf. right. exact Hg'.
Qed.

(** Leaving strings out keeps the others in order. *)
Lemma oio_drop (g : str) (gs : list str) (s : str) :
  occurs_in_order (g :: gs) s -> occurs_in_order gs s.
Proof.
  intros H. inversion H; subst. apply oio_prefix. apply oio_prefix. assumption.
Qed.

(** ** The scans of [findall] and [split] *)

Lemma span_group_app (s g r : str) : span_group s = (g, r) -> s = g ++ r.
Proof.
  revert g r; induction s as [|c s IH]; intros g r; simpl.
  - intros H. injection H as <- <-. reflexivity.
  - destruct (chr_eqb c ";"%char).
    + intros H. injection H as <- <-. reflexivity.
    + destruct (span_group s) as [g' r'] eqn:E.
      intros H. injection H as <- <-. simpl. f_equal. apply IH. reflexivity.
Qed.

Lemma span_group_rest (s g r : str) :
  span_group s = (g, r) -> r = [] \/ exists r', r = ";"%char :: r'.
Proof.
  revert g r; induction s as [|c s IH]; intros g r; simpl.
  - intros H. injection H as <- <-. left. reflexivity.
  - destruct (chr_eqb c ";"%char) eqn:Hc.
    + intros H. injection H as <- <-. apply chr_eqb_eq in Hc. subst.
      right. eexists. reflexivity.
    + destruct (span_group s) as [g' r'] eqn:E.
      intros H. injection H as <- <-. eapply IH. reflexivity.
Qed.

Lemma span_group_no_semicolon (s g r : str) :
  span_group s = (g, r) -> ~ In ";"%char g.
Proof.
  revert g r; induction s as [|c s IH]; intros g r; simpl.
  - intros H. injection H as <- <-. intros [].
  - destruct (chr_eqb c ";"%char) eqn:Hc.
    + intros H. injection H as <- <-. intros [].
    + destruct (span_group s) as [g' r'] eqn:E.
      intros H. injection H as <- <-. intros [Hin|Hin].
      * subst. rewrite chr_eqb_refl in Hc. discriminate.
      * eapply IH; [reflexivity | exact Hin].
Qed.

(** A match of the tail of the pattern: blanks, the opening parenthesis, the
    group, then [");"]. *)
Lemma match_tail_shape (s g rest : str) :
  match_tail s = Some (g, rest) ->
  exists w, forallb is_space w = true /\
            s = w ++ "("%char :: g ++ ")"%char :: ";"%char :: rest /\
            g <> [] /\ ~ In ";"%char g.
Proof.
  unfold match_tail.
  destruct (drop_while_suffix is_space s) as (w & E & Hw).
  destruct (drop_while is_space s) as [|c t]; [discriminate|].
  destruct (chr_eqb c "("%char) eqn:Hc; [|discriminate].
  apply chr_eqb_eq in Hc. subst c.
  destruct (span_group t) as [run rest0] eqn:Hs.
  destruct rest0 as [|semi rest']; [discriminate|].
  destruct (rev run) as [|last g_rev] eqn:Hr; [discriminate|].
  destruct (chr_eqb last ")"%char) eqn:Hl; [|discriminate].
  destruct g_rev as [|x g_rev]; [discriminate|].
  intros H. injection H as <- <-.
  apply chr_eqb_eq in Hl. subst last.
  pose proof (span_group_app _ _ _ Hs) as Ht.
  pose proof (span_group_no_semicolon _ _ _ Hs) as Hns.
  destruct (span_group_rest _ _ _ Hs) as [Hn | (r' & Hr')]; [discriminate|].
  injection Hr' as -> <-.
  assert (Hrun : run = rev (x :: g_rev) ++ [")"%char]).
  { rewrite <- (rev_involutive run), Hr. reflexivity. }
  exists w. split; [exact Hw|]. split; [|split].
  - rewrite E at 1. rewrite Ht, Hrun, <- app_assoc. reflexivity.
  - simpl. intros Hnil. apply app_eq_nil in Hnil as [_ Hnil]. discriminate.
  - intros Hin. apply Hns. rewrite Hrun. apply in_or_app. left. exact Hin.
Qed.

Lemma match_lazy_shape (s g rest : str) :
  match_lazy s = Some (g, rest) ->
  exists a, s = a ++ g ++ ")"%char :: ";"%char :: rest.
Proof.
  induction s as [|c s IH]; simpl.
  - unfold match_values. simpl. discriminate.
  - destruct (match_values (c :: s)) as [m|] eqn:Hm.
    + intros H. injection H as ->. unfold match_values in Hm.
      destruct (after_prefix values_kw (c :: s)) as [r|] eqn:Hp; [|discriminate].
      apply after_prefix_app in Hp.
      apply match_tail_shape in Hm as (w & _ & Hr & _).
      exists (values_kw ++ w ++ ["("%char]).
      rewrite Hp, Hr, <- !app_assoc. reflexivity.
    + intros H. apply IH in H as (a & Ha). exists (c :: a). simpl. congruence.
Qed.

Lemma match_at_shape (s g rest : str) :
  match_at s = Some (g, rest) ->
  exists a, s = a ++ g ++ ")"%char :: ";"%char :: rest.
Proof.
  unfold match_at.
  destruct (after_prefix insert_prefix s) as [r|] eqn:Hp; [|discriminate].
  apply after_prefix_app in Hp.
  intros H. apply match_lazy_shape in H as (a & Ha).
  exists (insert_prefix ++ a). rewrite Hp, Ha, <- app_assoc. reflexivity.
Qed.

Lemma findall_from_skip (a r : str) :
  findall_from (length a) (a ++ r) = findall_from 0 r.
Proof.
  induction a as [|c a IH]; simpl; [reflexivity | exact IH].
Qed.

(** After a match the scan resumes where the match ended. *)
Lemma findall_match (s g rest : str) :
  match_at s = Some (g, rest) -> findall s = g :: findall rest.
Proof.
  intros H. pose proof (match_at_shape _ _ _ H) as (a & Hs).
  unfold findall. destruct s as [|c t].
  - destruct a; [destruct g|]; discriminate.
  - cbn [findall_from]. rewrite H. f_equal.
    assert (Ht : exists m, t = m ++ rest /\ length (c :: t) - length rest - 1 = length m).
    { remember (a ++ g ++ [")"%char; ";"%char]) as m0 eqn:Hm0.
      assert (Hs' : c :: t = m0 ++ rest).
      { rewrite Hs, Hm0, <- !app_assoc. reflexivity. }
      destruct m0 as [|c0 m].
      - destruct a; [destruct g|]; discriminate.
      - injection Hs' as -> ->. exists m. split; [reflexivity|].
        change (length (c0 :: m ++ rest)) with (S (length (m ++ rest))).
        rewrite length_app. lia. }
    destruct Ht as (m & -> & ->). apply findall_from_skip.
Qed.

(** Without a match the scan moves on by one character. *)
Lemma findall_nomatch (c : ascii) (t : str) :
  match_at (c :: t) = None -> findall (c :: t) = findall t.
Proof. intros H. unfold findall. simpl. rewrite H. reflexivity. Qed.

Lemma findall_in_order_bounded (n : nat) (s : str) :
  length s <= n -> occurs_in_order (findall s) s.
Proof.
  revert s; induction n as [|n IH]; intros s Hn.
  - destruct s; [constructor | simpl in Hn; lia].
  - destruct s as [|c t]; [constructor|].
    destruct (match_at (c :: t)) as [[g rest]|] eqn:Hm.
    + rewrite (findall_match _ _ _ Hm).
      destruct (match_at_shape _ _ _ Hm) as (a & Hs). rewrite Hs.
      constructor. apply (oio_prefix [")"%char; ";"%char]). apply IH.
      apply (f_equal (@length ascii)) in Hs.
      rewrite !length_app in Hs. simpl in Hs, Hn. lia.
    + rewrite (findall_nomatch _ _ Hm). apply (oio_prefix [c]). apply IH.
      simpl in Hn. lia.
Qed.

(** The groups [findall] returns lie in the text in the order returned. *)
Lemma findall_in_order (s : str) : occurs_in_order (findall s) s.
Proof. apply (findall_in_order_bounded (length s)). lia. Qed.

Lemma sep_at_shape (s rest : str) :
  sep_at s = Some rest -> exists m, s = m ++ rest /\ m <> [].
Proof.
  unfold sep_at. destruct s as [|c1 [|c2 t]]; try discriminate.
  destruct (chr_eqb c1 ")"%char && chr_eqb c2 ","%char); [|discriminate].
  destruct (drop_while_suffix is_space t) as (w & E & _).
  destruct (drop_while is_space t) as [|c3 r]; [discriminate|].
  destruct (chr_eqb c3 "("%char); [|discriminate].
  intros H. injection H as <-.
  exists (c1 :: c2 :: w ++ [c3]). split; [|discriminate].
  simpl. rewrite <- app_assoc. simpl. congruence.
Qed.

Lemma split_from_skip (a r cur : str) :
  split_from (length a) cur (a ++ r) = split_from 0 cur r.
Proof.
  induction a as [|c a IH]; simpl; [reflexivity | exact IH].
Qed.

(** At a separator the piece read so far ends and a new one starts after it. *)
Lemma split_match (s rest cur : str) :
  sep_at s = Some rest -> split_from 0 cur s = cur :: split_from 0 [] rest.
Proof.
  intros H. destruct (sep_at_shape _ _ H) as (m & Hs & Hm).
  destruct s as [|c t]; [discriminate|].
  cbn [split_from]. rewrite H. f_equal.
  destruct m as [|c0 m]; [contradiction|].
  injection Hs as -> ->.
  replace (length (c0 :: m ++ rest) - length rest - 1) with (length m)
    by (change (length (c0 :: m ++ rest)) with (S (length (m ++ rest)));
        rewrite length_app; lia).
  apply split_from_skip.
Qed.

Lemma split_nomatch (c : ascii) (t cur : str) :
  sep_at (c :: t) = None -> split_from 0 cur (c :: t) = split_from 0 (cur ++ [c]) t.
Proof. intros H. cbn [split_from]. rewrite H. reflexivity. Qed.

Lemma split_in_order_bounded (n : nat) (s cur : str) :
  length s <= n -> occurs_in_order (split_from 0 cur s) (cur ++ s).
Proof.
  revert s cur; induction n as [|n IH]; intros s cur Hn.
  - destruct s; [|simpl in Hn; lia]. simpl.
    apply (oio_cons [] cur [] []). constructor.
  - destruct s as [|c t].
    + simpl. apply (oio_cons [] cur [] []). constructor.
    + destruct (sep_at (c :: t)) as [rest|] eqn:Hm.
      * rewrite (split_match _ _ cur Hm).
        destruct (sep_at_shape _ _ Hm) as (m & Hs & Hne). rewrite Hs.
        apply (oio_cons [] cur (m ++ rest)). apply oio_prefix.
        apply (IH rest []).
        apply (f_equal (@length ascii)) in Hs. rewrite length_app in Hs.
        destruct m; [contradiction|]. simpl in Hs, Hn. lia.
      * rewrite (split_nomatch _ _ cur Hm).
        replace (cur ++ c :: t) with ((cur ++ [c]) ++ t)
          by (rewrite <- app_assoc; reflexivity).
        apply IH. simpl in Hn. lia.
Qed.

(** The pieces [split] returns lie in the text in the order returned. *)
Lemma split_in_order (s : str) : occurs_in_order (split s) s.
Proof. apply (split_in_order_bounded (length s) s []). lia. Qed.

(** The rows are visited in the order they stand in the text. *)
Lemma all_rows_in_order (sql_content : str) :
  occurs_in_order (all_rows sql_content) sql_content.
Proof.
  unfold all_rows. apply oio_flat_map.
  - apply findall_in_order.
  - intros g _. apply split_in_order.
Qed.

(** ** The schema and the typing of tokens *)

Lemma COLUMNS_length : length COLUMNS = 62.
Proof. reflexivity. Qed.

Lemma nodupb_sound (xs : list str) : nodupb xs = true -> NoDup xs.
Proof.
  induction xs as [|x xs IH]; simpl; intros H.
  - constructor.
  - apply andb_true_iff in H as [Hx Hxs]. constructor.
    + intros Hin. apply str_in_In in Hin. rewrite Hin in Hx. discriminate.
    + apply IH. exact Hxs.
Qed.

Lemma COLUMNS_NoDup : NoDup COLUMNS.
Proof. apply nodupb_sound. vm_compute. reflexivity. Qed.

(** The [elif] chain, by the kind of column. *)
Lemma convert_cases (col val : str) :
  convert col val =
  if str_eqb val [] || str_eqb val (lit "''") then OK VNone
  else if is_int_column col then int_or_raise val
  else OK (VStr val).
Proof.
  unfold convert, is_int_column.
  destruct (str_eqb val [] || str_eqb val (lit "''")); [reflexivity|].
  destruct (str_in col [lit "ano"; lit "mes"]); [reflexivity|].
  cbn [orb].
  destruct (startswith col (lit "nota_") || startswith col (lit "alerta_")
            || str_in col [lit "total"; lit "nu_justificativa"; lit "nu_plano";
                           lit "st_justificativa"; lit "st_plano"]); [reflexivity|].
  cbn [orb].
  destruct (str_in col [lit "cd_sistema"; lit "cd_central"; lit "cd_cooperativa"]);
    reflexivity.
Qed.

Lemma convert_untypable (col val : str) :
  untypable col val = true -> convert col val = Raise ValueError.
Proof.
  rewrite convert_cases. unfold untypable, int_or_raise.
  destruct (str_eqb val []); [rewrite andb_false_r; discriminate|].
  destruct (str_eqb val (lit "''")); [rewrite andb_false_r; discriminate|].
  destruct (is_int_column col); [|discriminate].
  destruct (py_int val); [discriminate | reflexivity].
Qed.

Lemma convert_typable (col val : str) :
  untypable col val = false -> exists v, convert col val = OK v.
Proof.
  rewrite convert_cases. unfold untypable, int_or_raise.
  destruct (str_eqb val []); [eexists; reflexivity|].
  destruct (str_eqb val (lit "''")); [eexists; reflexivity|].
  destruct (is_int_column col); [|eexists; reflexivity].
  destruct (py_int val); [eexists; reflexivity | discriminate].
Qed.

Lemma convert_raise (col val : str) (e : exn) :
  convert col val = Raise e -> e = ValueError /\ untypable col val = true.
Proof.
  intros H. destruct (untypable col val) eqn:U.
  - rewrite (convert_untypable _ _ U) in H. injection H as <-. split; reflexivity.
  - destruct (convert_typable _ _ U) as (v & Hv). congruence.
Qed.

Lemma convert_empty (col : str) : convert col [] = OK VNone.
Proof. rewrite convert_cases. reflexivity. Qed.

Lemma convert_int_column (col val : str) (v : value) :
  is_int_column col = true -> convert col val = OK v -> int_or_null v.
Proof.
  intros Hc. rewrite convert_cases, Hc. unfold int_or_raise.
  destruct (str_eqb val [] || str_eqb val (lit "''")).
  - intros H. injection H as <-. left. reflexivity.
  - destruct (py_int val) as [z|]; [|discriminate].
    intros H. injection H as <-. right. exists z. reflexivity.
Qed.

(** ** Dictionaries *)

Lemma dict_set_fresh {V} (d : dict V) (k : str) (v : V) :
  ~ In k (keys d) -> dict_set d k v = d ++ [(k, v)].
Proof.
  induction d as [|[k' v'] d IH]; simpl; intros H; [reflexivity|].
  destruct (str_eqb k' k) eqn:E.
  - apply str_eqb_eq in E. exfalso. apply H. left. exact E.
  - f_equal. apply IH. intros Hin. apply H. right. exact Hin.
Qed.

Lemma dict_get_app {V} (d1 d2 : dict V) (k : str) :
  dict_get (d1 ++ d2) k =
  match dict_get d1 k with Some v => Some v | None => dict_get d2 k end.
Proof.
  induction d1 as [|[k' v'] d1 IH]; simpl; [reflexivity|].
  destruct (str_eqb k' k); [reflexivity | exact IH].
Qed.

Lemma dict_get_In {V} (d : dict V) (k : str) (v : V) :
  dict_get d k = Some v -> In (k, v) d.
Proof.
  induction d as [|[k' v'] d IH]; simpl; [discriminate|].
  destruct (str_eqb k' k) eqn:E.
  - apply str_eqb_eq in E. intros H. injection H as ->. left. congruence.
  - intros H. right. apply IH. exact H.
Qed.

Lemma dict_get_None {V} (d : dict V) (k : str) :
  dict_get d k = None <-> ~ In k (keys d).
Proof.
  induction d as [|[k' v'] d IH]; simpl.
  - split; [intros _ [] | reflexivity].
  - destruct (str_eqb k' k) eqn:E.
    + apply str_eqb_eq in E. split; [discriminate|]. intros H. exfalso. apply H. left. exact E.
    + apply str_eqb_neq in E. rewrite IH. split.
      * intros H [H'|H']; [contradiction | apply H; exact H'].
      * intros H H'. apply H. right. exact H'.
Qed.

(** In a dictionary without repeated keys, an entry is what [get] finds. *)
Lemma dict_get_NoDup {V} (d : dict V) (k : str) (v : V) :
  NoDup (keys d) -> In (k, v) d -> dict_get d k = Some v.
Proof.
  induction d as [|[k' v'] d IH]; simpl; intros Hnd Hin; [contradiction|].
  inversion Hnd as [|? ? Hk' Hnd']; subst.
  destruct Hin as [E|Hin].
  - injection E as -> ->. rewrite str_eqb_refl. reflexivity.
  - destruct (str_eqb k' k) eqn:E.
    + apply str_eqb_eq in E. subst. exfalso. apply Hk'.
      change k with (fst (k, v)). apply in_map. exact Hin.
    + apply IH; assumption.
Qed.

(** ** Building a record *)

Lemma fill_record_spec (pairs : list (str * str)) :
  forall (acc rec : record),
    NoDup (keys acc ++ map fst pairs) ->
    fill_record acc pairs = OK rec ->
    exists vs, rec = acc ++ combine (map fst pairs) vs /\
               Forall2 (fun p v => convert (fst p) (snd p) = OK v) pairs vs.
Proof.
  induction pairs as [|[col val] pairs IH]; simpl; intros acc rec Hnd H.
  - injection H as <-. exists []. rewrite app_nil_r. split; [reflexivity | constructor].
  - destruct (convert col val) as [v|e] eqn:Hc; simpl in H; [|discriminate].
    assert (Hfresh : ~ In col (keys acc)).
    { intros Hin. apply NoDup_remove_2 in Hnd. apply Hnd.
      apply in_or_app. left. exact Hin. }
    rewrite (dict_set_fresh _ _ _ Hfresh) in H.
    apply IH in H as (vs & -> & Hvs).
    + exists (v :: vs). split.
      * rewrite <- app_assoc. reflexivity.
      * constructor; assumption.
    + unfold keys. rewrite map_app. simpl. rewrite <- app_assoc. simpl.
      apply NoDup_remove_1 in Hnd as Hnd1.
      apply NoDup_remove_2 in Hnd as Hnd2.
      unfold keys in *.
      apply NoDup_Add with (a := col) (l := map fst acc ++ map fst pairs).
      * apply Add_app.
      * split; assumption.
Qed.

Lemma fill_record_raise (pairs : list (str * str)) :
  forall (acc : record) (e : exn),
    fill_record acc pairs = Raise e ->
    e = ValueError /\ existsb (fun p => untypable (fst p) (snd p)) pairs = true.
Proof.
  induction pairs as [|[col val] pairs IH]; simpl; intros acc e H; [discriminate|].
  destruct (convert col val) as [v|e'] eqn:Hc; simpl in H.
  - apply IH in H as [-> Hex]. rewrite Hex, orb_true_r. split; reflexivity.
  - injection H as <-. apply convert_raise in Hc as [-> ->]. split; reflexivity.
Qed.

Lemma fill_record_untypable (pairs : list (str * str)) :
  forall (acc : record),
    existsb (fun p => untypable (fst p) (snd p)) pairs = true ->
    fill_record acc pairs = Raise ValueError.
Proof.
  induction pairs as [|[col val] pairs IH]; simpl; intros acc H; [discriminate|].
  destruct (untypable col val) eqn:U.
  - rewrite (convert_untypable _ _ U). reflexivity.
  - destruct (convert_typable _ _ U) as (v & ->). simpl. apply IH. exact H.
Qed.

Lemma fill_record_typable (pairs : list (str * str)) :
  forall (acc : record),
    existsb (fun p => untypable (fst p) (snd p)) pairs = false ->
    exists rec, fill_record acc pairs = OK rec.
Proof.
  induction pairs as [|[col val] pairs IH]; simpl; intros acc H.
  - eexists. reflexivity.
  - apply orb_false_iff in H as [U H].
    destruct (convert_typable _ _ U) as (v & ->). simpl. apply IH. exact H.
Qed.

Lemma map_fst_combine_same_length {A B} (xs : list A) (ys : list B) :
  length xs = length ys -> map fst (combine xs ys) = xs.
Proof.
  revert ys; induction xs as [|x xs IH]; intros [|y ys]; simpl; intros H;
    try discriminate; [reflexivity|]. f_equal. apply IH. lia.
Qed.

(** A record built from as many tokens as the schema has columns: its keys
    are the columns in order and each field is the typed token of its place. *)
Lemma build_record_spec (vs : list str) (rec : record) :
  length vs = 62 ->
  build_record vs = OK rec ->
  exists fields,
    rec = combine COLUMNS fields /\ length fields = 62 /\
    Forall2 (fun p v => convert (fst p) (snd p) = OK v) (combine COLUMNS vs) fields.
Proof.
  intros Hlen H. unfold build_record in H.
  assert (Hfst : map fst (combine COLUMNS vs) = COLUMNS).
  { apply map_fst_combine_same_length. rewrite COLUMNS_length. lia. }
  apply fill_record_spec in H as (fields & -> & HF).
  - exists fields. rewrite Hfst. split; [reflexivity|]. split; [|exact HF].
    apply Forall2_length in HF. rewrite <- HF, length_combine, COLUMNS_length. lia.
  - change (NoDup (map fst (combine COLUMNS vs))). rewrite Hfst. apply COLUMNS_NoDup.
Qed.

Lemma build_record_keys (vs : list str) (rec : record) :
  length vs = 62 -> build_record vs = OK rec -> keys rec = COLUMNS.
Proof.
  intros Hlen H. apply build_record_spec in H as (fields & -> & Hf & _); [|exact Hlen].
  unfold keys. apply map_fst_combine_same_length. rewrite COLUMNS_length. lia.
Qed.

(** ** Rows and the two loops *)

Lemma process_row_row_record (acc : list record) (row : str) :
  process_row acc row =
  (o <- row_record row ;;
   OK (match o with Some rec => acc ++ [rec] | None => acc end)).
Proof.
  unfold process_row, row_record, row_tokens. rewrite COLUMNS_length.
  destruct (Nat.eqb (length (tokenize (clean_row row))) 62); [|reflexivity].
  destruct (build_record (tokenize (clean_row row))); reflexivity.
Qed.

Lemma row_record_raises (row : str) :
  row_raises row = true -> row_record row = Raise ValueError.
Proof.
  unfold row_raises, row_record. intros H. apply andb_true_iff in H as [Hn Hex].
  rewrite Hn. unfold build_record. rewrite (fill_record_untypable _ _ Hex). reflexivity.
Qed.

Lemma row_record_returns (row : str) :
  row_raises row = false -> exists o, row_record row = OK o.
Proof.
  unfold row_raises, row_record. intros H.
  destruct (Nat.eqb (length (row_tokens row)) 62); [|eexists; reflexivity].
  rewrite andb_true_l in H. unfold build_record.
  destruct (fill_record_typable _ [] H) as (rec & ->). eexists. reflexivity.
Qed.

Lemma row_record_raise (row : str) (e : exn) :
  row_record row = Raise e -> e = ValueError /\ row_raises row = true.
Proof.
  intros H. destruct (row_raises row) eqn:R.
  - rewrite (row_record_raises _ R) in H. injection H as <-. split; reflexivity.
  - destruct (row_record_returns _ R) as (o & Ho). congruence.
Qed.

(** The two nested loops visit [all_rows]. *)
Lemma parse_flat (sql_content : str) :
  parse_sql_insert_values sql_content = rows_records (all_rows sql_content).
Proof.
  unfold parse_sql_insert_values, rows_records, all_rows, process_match.
  apply for_each_flat_map.
Qed.

Lemma rows_raise (rows : list str) :
  forall acc,
    existsb row_raises rows = true ->
    for_each process_row rows acc = Raise ValueError.
Proof.
  induction rows as [|row rows IH]; simpl; intros acc H; [discriminate|].
  rewrite process_row_row_record.
  destruct (row_raises row) eqn:R.
  - rewrite (row_record_raises _ R). reflexivity.
  - destruct (row_record_returns _ R) as (o & ->). simpl. apply IH. exact H.
Qed.

Lemma rows_return (rows : list str) :
  forall acc,
    existsb row_raises rows = false ->
    exists records, for_each process_row rows acc = OK records.
Proof.
  induction rows as [|row rows IH]; simpl; intros acc H.
  - eexists. reflexivity.
  - apply orb_false_iff in H as [R H]. rewrite process_row_row_record.
    destruct (row_record_returns _ R) as (o & ->). simpl. apply IH. exact H.
Qed.

Lemma subseq_refl {A} (xs : list A) : subseq xs xs.
Proof. induction xs; constructor; assumption. Qed.

Lemma subseq_filter {A} (p : A -> bool) (xs : list A) : subseq (filter p xs) xs.
Proof.
  induction xs as [|x xs IH]; simpl; [constructor|].
  destruct (p x); constructor; exact IH.
Qed.

Lemma subseq_In {A} (xs ys : list A) (x : A) : subseq xs ys -> In x xs -> In x ys.
Proof.
  induction 1 as [|y xs ys H IH|y xs ys H IH]; simpl; intros Hin.
  - exact Hin.
  - right. apply IH. exact Hin.
  - destruct Hin as [E|Hin]; [left; exact E | right; apply IH; exact Hin].
Qed.

Lemma oio_subseq (xs ys : list str) (s : str) :
  subseq xs ys -> occurs_in_order ys s -> occurs_in_order xs s.
Proof.
  intros H; revert s; induction H as [|y xs ys H IH|y xs ys H IH]; intros s Hs.
  - constructor.
  - apply IH. apply (oio_drop y). exact Hs.
  - inversion Hs; subst. constructor. apply IH. assumption.
Qed.

(** The records a run of the row loop adds: one per row that gave a record,
    in the order of the rows. *)
Lemma rows_records_spec (rows : list str) :
  forall acc records,
    for_each process_row rows acc = OK records ->
    exists kept new,
      records = acc ++ new /\ subseq kept rows /\
      Forall2 (fun row rec => row_record row = OK (Some rec)) kept new.
Proof.
  induction rows as [|row rows IH]; simpl; intros acc records H.
  - injection H as <-. exists [], []. rewrite app_nil_r.
    split; [reflexivity|]. split; constructor.
  - rewrite process_row_row_record in H.
    destruct (row_record row) as [[rec|]|e] eqn:Hr; simpl in H; [| |discriminate].
    + apply IH in H as (kept & new & -> & Hsub & HF).
      exists (row :: kept), (rec :: new). rewrite <- app_assoc. split; [reflexivity|].
      split; constructor; assumption.
    + apply IH in H as (kept & new & -> & Hsub & HF).
      exists kept, new. split; [reflexivity|]. split; [constructor|]; assumption.
Qed.

Lemma parse_spec (sql_content : str) (records : list record) :
  parse_sql_insert_values sql_content = OK records ->
  exists kept,
    subseq kept (all_rows sql_content) /\
    Forall2 (fun row rec => row_record row = OK (Some rec)) kept records.
Proof.
  rewrite parse_flat. unfold rows_records. intros H.
  apply rows_records_spec in H as (kept & new & -> & Hsub & HF).
  exists kept. split; assumption.
Qed.

Lemma Forall2_In_r {A B} (P : A -> B -> Prop) (xs : list A) (ys : list B) (y : B) :
  Forall2 P xs ys -> In y ys -> exists x, In x xs /\ P x y.
Proof.
  induction 1 as [|x y' xs ys Hp HF IH]; simpl; intros Hin; [contradiction|].
  destruct Hin as [->|Hin].
  - exists x. split; [left; reflexivity | exact Hp].
  - destruct (IH Hin) as (x' & Hx' & Hp'). exists x'. split; [right|]; assumption.
Qed.

Lemma Forall2_nth_error {A B} (P : A -> B -> Prop) (xs : list A) (ys : list B) :
  Forall2 P xs ys ->
  forall i x, nth_error xs i = Some x -> exists y, nth_error ys i = Some y /\ P x y.
Proof.
  induction 1 as [|x0 y0 xs ys Hp HF IH]; intros [|i] x; simpl; try discriminate.
  - intros H. injection H as <-. exists y0. split; [reflexivity | exact Hp].
  - apply IH.
Qed.

Lemma nth_error_combine {A B} (xs : list A) (ys : list B) :
  forall i x y,
    nth_error xs i = Some x -> nth_error ys i = Some y ->
    nth_error (combine xs ys) i = Some (x, y).
Proof.
  revert ys; induction xs as [|x0 xs IH]; intros [|y0 ys] [|i] x y; simpl;
    try discriminate.
  - intros H1 H2. injection H1 as <-. injection H2 as <-. reflexivity.
  - apply IH.
Qed.

(** Every record comes from a row of the text with 62 tokens. *)
Lemma parsed_record_row (sql_content : str) (records : list record) (rec : record) :
  parse_sql_insert_values sql_content = OK records -> In rec records ->
  exists row, In row (all_rows sql_content) /\ length (row_tokens row) = 62 /\
              build_record (row_tokens row) = OK rec.
Proof.
  intros H Hin. apply parse_spec in H as (kept & Hsub & HF).
  destruct (Forall2_In_r _ _ _ _ HF Hin) as (row & Hrow & Hr).
  exists row. split; [eapply subseq_In; eassumption|].
  unfold row_record in Hr.
  destruct (Nat.eqb (length (row_tokens row)) 62) eqn:E; [|discriminate].
  apply Nat.eqb_eq in E. split; [exact E|].
  destruct (build_record (row_tokens row)); simpl in Hr; congruence.
Qed.

Lemma parsed_record_keys (sql_content : str) (records : list record) (rec : record) :
  parse_sql_insert_values sql_content = OK records -> In rec records ->
  keys rec = COLUMNS.
Proof.
  intros H Hin. destruct (parsed_record_row _ _ _ H Hin) as (row & _ & Hlen & Hb).
  eapply build_record_keys; eassumption.
Qed.

Lemma build_record_nth (vs : list str) (rec : record) :
  length vs = 62 -> build_record vs = OK rec ->
  forall i col val,
    nth_error COLUMNS i = Some col -> nth_error vs i = Some val ->
    exists v, convert col val = OK v /\ nth_error rec i = Some (col, v) /\
              dict_get rec col = Some v.
Proof.
  intros Hlen Hb i col val Hcol Hval.
  pose proof (build_record_keys _ _ Hlen Hb) as Hkeys.
  destruct (build_record_spec _ _ Hlen Hb) as (fields & -> & Hf & HF).
  pose proof (nth_error_combine _ _ _ _ _ Hcol Hval) as Hp.
  destruct (Forall2_nth_error _ _ _ HF _ _ Hp) as (v & Hv & Hc).
  exists v. split; [exact Hc|].
  pose proof (nth_error_combine _ _ _ _ _ Hcol Hv) as Hrec.
  split; [exact Hrec|].
  apply dict_get_NoDup.
  - rewrite Hkeys. apply COLUMNS_NoDup.
  - eapply nth_error_In. exact Hrec.
Qed.

(** Among the columns of the schema, [int] is applied to all but the two
    text columns. *)
Lemma int_column_iff_not_text (col : str) :
  In col COLUMNS ->
  is_int_column col = negb (str_in col [lit "tx_justificativa"; lit "tx_plano"]).
Proof.
  intros Hin.
  assert (H : forallb (fun c => Bool.eqb (is_int_column c)
                (negb (str_in c [lit "tx_justificativa"; lit "tx_plano"]))) COLUMNS = true)
    by (vm_compute; reflexivity).
  rewrite forallb_forall in H. apply H in Hin. apply Bool.eqb_prop. exact Hin.
Qed.

(** A field of a parsed record: the typed token of its column. *)
Lemma parsed_field
      (sql_content : str) (records : list record) (rec : record) (col : str) :
  parse_sql_insert_values sql_content = OK records ->
  In rec records ->
  In col COLUMNS ->
  exists val v, convert col val = OK v /\ dict_get rec col = Some v.
Proof.
  intros Hp Hrec Hcol.
  destruct (parsed_record_row _ _ _ Hp Hrec) as (row & _ & Hlen & Hb).
  destruct (In_nth_error _ _ Hcol) as (i & Hi).
  assert (Hlt : i < length (row_tokens row)).
  { rewrite Hlen, <- COLUMNS_length. apply nth_error_Some. congruence. }
  destruct (nth_error (row_tokens row) i) as [val|] eqn:Hval.
  - destruct (build_record_nth _ _ Hlen Hb _ _ _ Hi Hval) as (v & Hc & _ & Hget).
    exists val, v. split; assumption.
  - apply nth_error_None in Hval. lia.
Qed.

(** ** Integers as text *)

Lemma str_of_Z_parses (z : Z) :
  NilZero.int_of_string (string_of_list_ascii (str_of_Z z)) = Some (Z.to_int z).
Proof.
  unfold str_of_Z. rewrite string_of_list_ascii_of_string. apply NilZero.isi.
  - destruct z; simpl; try discriminate.
    intros H. injection H as H. exact (Stdlib.Numbers.DecimalPos.Unsigned.to_uint_nonnil _ H).
  - destruct z; simpl; try discriminate.
    intros H. injection H as H. exact (Stdlib.Numbers.DecimalPos.Unsigned.to_uint_nonnil _ H).
Qed.

(** [str] is one-to-one on the integers. *)
Lemma str_of_Z_inj (z1 z2 : Z) : str_of_Z z1 = str_of_Z z2 -> z1 = z2.
Proof.
  intros H. apply Stdlib.Numbers.DecimalZ.to_int_inj.
  pose proof (str_of_Z_parses z1) as H1. rewrite H, str_of_Z_parses in H1.
  congruence.
Qed.

Lemma str_of_Z_not_None (z : Z) : str_of_Z z <> lit "None".
Proof.
  intros H. pose proof (str_of_Z_parses z) as H1. rewrite H in H1.
  vm_compute in H1. discriminate.
Qed.

(** An integer and null, or two different integers, are never formatted
    alike. *)
Lemma format_value_inj (v1 v2 : value) :
  int_or_null v1 -> int_or_null v2 -> format_value v1 = format_value v2 -> v1 = v2.
Proof.
  intros [->|[z1 ->]] [->|[z2 ->]]; simpl; intros H.
  - reflexivity.
  - symmetry in H. apply str_of_Z_not_None in H. contradiction.
  - apply str_of_Z_not_None in H. contradiction.
  - f_equal. apply str_of_Z_inj. exact H.
Qed.

Lemma parse_sql_good : parse_sql_insert_values sql_good = OK records_good.
Proof. vm_compute. reflexivity. Qed.

(** ** Properties of [parse_sql_insert_values] *)

(** C1, counterexample: a row of 62 tokens whose first [nota_] column reads
    NULL makes [parse_sql_insert_values] raise [ValueError]; no list is
    returned. *)
Lemma parse_raises_on_null_token :
  length (row_tokens row_null) = 62 /\
  parse_sql_insert_values sql_null = Raise ValueError.
Proof. split; vm_compute; reflexivity. Qed.

(** C1, as amended: for every SQL text, [parse_sql_insert_values] raises
    [ValueError] when some row has 62 tokens and holds, in a column typed by
    [int], a token that is not empty and that [int] refuses; for every other
    text it returns a list of records. *)
Theorem parse_returns_or_raises_value_error (sql_content : str) :
  if existsb row_raises (all_rows sql_content)
  then parse_sql_insert_values sql_content = Raise ValueError
  else exists records, parse_sql_insert_values sql_content = OK records.
Proof.
  rewrite parse_flat. unfold rows_records.
  destruct (existsb row_raises (all_rows sql_content)) eqn:E.
  - apply rows_raise. exact E.
  - apply rows_return. exact E.
Qed.

(** C3: in every record returned by [parse_sql_insert_values], every column
    that the type conversion sends to [int] (all the columns of the schema
    but [tx_justificativa] and [tx_plano]) is present and holds an integer or
    null. *)
Theorem int_columns_hold_int_or_null
        (sql_content : str) (records : list record) (rec : record) (col : str) :
  parse_sql_insert_values sql_content = OK records ->
  In rec records ->
  In col COLUMNS ->
  is_int_column col = true ->
  exists v, dict_get rec col = Some v /\ int_or_null v.
Proof.
  intros Hp Hrec Hcol Hint.
  destruct (parsed_field _ _ _ _ Hp Hrec Hcol) as (val & v & Hconv & Hget).
  exists v. split; [exact Hget|].
  (* the column is typed by [int]: the token was empty, or [int] accepted it *)
  rewrite convert_cases, Hint in Hconv. unfold int_or_raise in Hconv.
  destruct (str_eqb val [] || str_eqb val (lit "''")).
  - injection Hconv as <-. left. reflexivity.
  - destruct (py_int val) as [z|]; [|discriminate].
    injection Hconv as <-. right. exists z. reflexivity.
Qed.

Lemma int_columns_hold_int_or_null_witness :
  parse_sql_insert_values sql_good = OK records_good /\
  forall rec, In rec records_good ->
    exists v, dict_get rec (lit "cd_cooperativa") = Some v /\ int_or_null v.
Proof.
  split; [exact parse_sql_good|]. intros rec Hrec.
  apply (int_columns_hold_int_or_null sql_good records_good rec (lit "cd_cooperativa")).
  - exact parse_sql_good.
  - exact Hrec.
  - vm_compute. tauto.
  - vm_compute. reflexivity.
Defined.

(** C4: a row whose token count is not 62 adds no record and raises nothing,
    and the result of the whole text is the result of the other rows, all of
    them still processed in order. *)
Theorem wrong_count_row_is_skipped
        (sql_content : str) (before after : list str) (row : str) :
  all_rows sql_content = before ++ row :: after ->
  length (row_tokens row) <> 62 ->
  (forall acc, process_row acc row = OK acc) /\
  parse_sql_insert_values sql_content = rows_records (before ++ after).
Proof.
  intros Hrows Hlen.
  assert (Hskip : forall acc, process_row acc row = OK acc).
  { intros acc. unfold process_row. fold (row_tokens row). rewrite COLUMNS_length.
    apply Nat.eqb_neq in Hlen. rewrite Hlen. reflexivity. }
  split; [exact Hskip|].
  rewrite parse_flat, Hrows. unfold rows_records.
  rewrite !for_each_app. destruct (for_each process_row before []) as [acc|e]; [|reflexivity].
  cbn [bind for_each]. rewrite Hskip. reflexivity.
Qed.

Lemma wrong_count_row_is_skipped_witness :
  (forall acc, process_row acc row_short = OK acc) /\
  parse_sql_insert_values sql_good = rows_records ([row_a] ++ [row_b; row_c]).
Proof.
  apply (wrong_count_row_is_skipped sql_good [row_a] [row_b; row_c] row_short).
  - vm_compute. reflexivity.
  - vm_compute. discriminate.
Defined.

(** C6, counterexample: [row_null] has 62 tokens and yields no record; the
    loop body raises [ValueError] on it. *)
Lemma full_row_with_null_raises :
  length (row_tokens row_null) = 62 /\
  process_row [] row_null = Raise ValueError.
Proof. split; vm_compute; reflexivity. Qed.

(** C6, as amended: a row of exactly 62 tokens either holds a token that
    [int] is applied to and refuses, and then the loop body raises
    [ValueError], or it adds exactly one record, whose 62 keys are the columns
    of [COLUMNS] in order and whose i-th field is the i-th token typed for the
    i-th column. *)
Theorem full_row_yields_record_in_schema_order (acc : list record) (row : str) :
  length (row_tokens row) = 62 ->
  if row_raises row then process_row acc row = Raise ValueError
  else exists rec,
      process_row acc row = OK (acc ++ [rec]) /\
      keys rec = COLUMNS /\ length rec = 62 /\
      forall i col val,
        nth_error COLUMNS i = Some col ->
        nth_error (row_tokens row) i = Some val ->
        exists v, convert col val = OK v /\ nth_error rec i = Some (col, v).
Proof.
  intros Hlen. rewrite process_row_row_record.
  destruct (row_raises row) eqn:R.
  - rewrite (row_record_raises _ R). reflexivity.
  - destruct (row_record_returns _ R) as (o & Ho). rewrite Ho.
    unfold row_record in Ho. apply Nat.eqb_eq in Hlen as Hlen'. rewrite Hlen' in Ho.
    destruct (build_record (row_tokens row)) as [rec|e] eqn:Hb; [|discriminate].
    injection Ho as <-. exists rec. split; [reflexivity|].
    pose proof (build_record_keys _ _ Hlen Hb) as Hkeys.
    split; [exact Hkeys|]. split.
    + rewrite <- COLUMNS_length, <- Hkeys. unfold keys. rewrite length_map. reflexivity.
    + intros i col val Hcol Hval.
      destruct (build_record_nth _ _ Hlen Hb _ _ _ Hcol Hval) as (v & Hc & Hn & _).
      exists v. split; assumption.
Qed.

Lemma full_row_yields_record_witness :
  length (row_tokens row_a) = 62 /\
  exists rec, process_row [] row_a = OK [rec] /\ keys rec = COLUMNS /\
              nth_error rec 58 = Some (lit "tx_justificativa", VStr (lit "late, twice")).
Proof.
  split; [vm_compute; reflexivity|].
  pose proof (full_row_yields_record_in_schema_order [] row_a) as H.
  assert (R : row_raises row_a = false) by (vm_compute; reflexivity).
  rewrite R in H.
  destruct H as (rec & Hp & Hk & _ & Hn); [vm_compute; reflexivity|].
  exists rec. split; [exact Hp|]. split; [exact Hk|].
  destruct (Hn 58 (lit "tx_justificativa") (lit "late, twice")) as (v & Hc & Hv);
    [vm_compute; reflexivity | vm_compute; reflexivity|].
  vm_compute in Hc. injection Hc as <-. exact Hv.
Defined.

(** ** The character loop *)

Lemma tok_step_inside (vs : list str) (cur : str) (c : ascii) :
  c <> "'"%char ->
  tok_step {| values := vs; current_value := cur; in_quotes := true |} c
  = {| values := vs; current_value := cur ++ [c]; in_quotes := true |}.
Proof.
  intros Hc. apply chr_eqb_neq in Hc. unfold tok_step. cbn [in_quotes values current_value].
  rewrite Hc. cbn [andb negb]. rewrite andb_false_r. reflexivity.
Qed.

(** Between the quotes every character, the comma included, is added to the
    value being read. *)
Lemma tok_loop_inside (content : str) :
  forall (vs : list str) (cur : str),
    ~ In "'"%char content ->
    tok_loop {| values := vs; current_value := cur; in_quotes := true |} content
    = {| values := vs; current_value := cur ++ content; in_quotes := true |}.
Proof.
  induction content as [|c content IH]; intros vs cur Hq.
  - rewrite app_nil_r. reflexivity.
  - unfold tok_loop. cbn [fold_left]. rewrite tok_step_inside.
    + fold (tok_loop {| values := vs; current_value := cur ++ [c]; in_quotes := true |} content).
      rewrite IH.
      * rewrite <- app_assoc. reflexivity.
      * intros Hin. apply Hq. right. exact Hin.
    + intros ->. apply Hq. left. reflexivity.
Qed.

Lemma tok_loop_app (st : tok_state) (a b : str) :
  tok_loop st (a ++ b) = tok_loop (tok_loop st a) b.
Proof. apply fold_left_app. Qed.

Lemma tok_step_open (st : tok_state) :
  in_quotes st = false ->
  tok_step st "'"%char
  = {| values := values st; current_value := []; in_quotes := true |}.
Proof. intros H. unfold tok_step. rewrite H. reflexivity. Qed.

Lemma tok_step_close (vs : list str) (cur : str) :
  tok_step {| values := vs; current_value := cur; in_quotes := true |} "'"%char
  = {| values := vs ++ [cur]; current_value := []; in_quotes := false |}.
Proof. reflexivity. Qed.

(** C2, counterexample: [row_gap] is [row_a] with an empty field, nothing
    between two commas, in the place of the first [nota_] column.  The empty
    field is left out of the token list, which has 61 tokens, and the text
    gives no record at all, so no null field. *)
Lemma empty_field_is_omitted :
  tokenize (lit "1,,2") = [lit "1"; lit "2"] /\
  length (row_tokens row_gap) = 61 /\
  parse_sql_insert_values sql_gap = OK [].
Proof. repeat split; vm_compute; reflexivity. Qed.

(** C2, as amended: a quoted-empty literal adds an empty token to the list,
    and every empty token of a row of 62 tokens becomes a null field of the
    record, in the column of its place; a field left empty or blank between
    two commas, without quotes, adds no token. *)
Theorem empty_tokens_become_null :
  (forall st rest,
      in_quotes st = false ->
      tok_loop st (lit "''" ++ rest)
      = tok_loop {| values := values st ++ [[]]; current_value := [];
                    in_quotes := false |} rest) /\
  (forall vs rec i col,
      length vs = 62 -> build_record vs = OK rec ->
      nth_error COLUMNS i = Some col -> nth_error vs i = Some [] ->
      nth_error rec i = Some (col, VNone) /\ dict_get rec col = Some VNone) /\
  (forall st,
      in_quotes st = false -> strip (current_value st) = [] ->
      tok_step st ","%char
      = {| values := values st; current_value := []; in_quotes := false |}).
Proof.
  split; [|split].
  - intros st rest Hout. unfold tok_loop.
    change (lit "''" ++ rest) with ("'"%char :: "'"%char :: rest).
    cbn [fold_left]. rewrite (tok_step_open st Hout), tok_step_close. reflexivity.
  - intros vs rec i col Hlen Hb Hcol Hval.
    destruct (build_record_nth _ _ Hlen Hb _ _ _ Hcol Hval) as (v & Hc & Hn & Hg).
    rewrite convert_empty in Hc. injection Hc as <-. split; assumption.
  - intros st Hout Hblank. unfold tok_step, flush. rewrite Hout, Hblank.
    cbn [andb negb truthy]. rewrite andb_false_r. reflexivity.
Qed.

Lemma empty_tokens_become_null_witness :
  exists rec,
    build_record (row_tokens row_a) = OK rec /\
    nth_error (row_tokens row_a) 59 = Some [] /\
    nth_error rec 59 = Some (lit "tx_plano", VNone) /\
    dict_get rec (lit "tx_plano") = Some VNone.
Proof.
  destruct (build_record (row_tokens row_a)) as [rec|e] eqn:Hb;
    [|vm_compute in Hb; discriminate Hb].
  destruct empty_tokens_become_null as (_ & Hnull & _).
  assert (Hlen : length (row_tokens row_a) = 62) by (vm_compute; reflexivity).
  assert (Hcol : nth_error COLUMNS 59 = Some (lit "tx_plano")) by (vm_compute; reflexivity).
  assert (Hval : nth_error (row_tokens row_a) 59 = Some []) by (vm_compute; reflexivity).
  destruct (Hnull (row_tokens row_a) rec 59 (lit "tx_plano") Hlen Hb Hcol Hval) as [H1 H2].
  exists rec. repeat split; assumption.
Defined.

(** ** Grouping by cooperative *)

Lemma dict_mem_In {V} (d : dict V) (k : str) :
  dict_mem d k = true <-> In k (keys d).
Proof.
  unfold dict_mem. destruct (dict_get d k) eqn:E.
  - split; [|reflexivity]. intros _.
    apply dict_get_In in E. change k with (fst (k, v)). apply in_map. exact E.
  - split; [discriminate|]. intros H. apply dict_get_None in E. contradiction.
Qed.

Lemma dict_set_keys {V} (d : dict V) (k : str) (v : V) :
  In k (keys d) -> keys (dict_set d k v) = keys d.
Proof.
  induction d as [|[k' v'] d IH]; simpl; intros H; [contradiction|].
  destruct (str_eqb k' k) eqn:E; [reflexivity|].
  simpl. f_equal. apply IH. destruct H as [H|H]; [|exact H].
  apply str_eqb_neq in E. contradiction.
Qed.

Lemma dict_set_In {V} (d : dict V) (k : str) (v : V) (k' : str) (v' : V) :
  NoDup (keys d) ->
  In (k', v') (dict_set d k v) ->
  (k' = k /\ v' = v) \/ (k' <> k /\ In (k', v') d).
Proof.
  induction d as [|[k0 v0] d IH]; simpl; intros Hnd.
  - intros [H|[]]. injection H as <- <-. left. split; reflexivity.
  - inversion Hnd as [|? ? Hk0 Hnd']; subst.
    destruct (str_eqb k0 k) eqn:E.
    + apply str_eqb_eq in E. subst k0. intros [H|H].
      * injection H as <- <-. left. split; reflexivity.
      * right. split; [|right; exact H].
        intros ->. apply Hk0. change k with (fst (k, v')). apply in_map. exact H.
    + apply str_eqb_neq in E. intros [H|H].
      * injection H as <- <-. right. split; [exact E | left; reflexivity].
      * destruct (IH Hnd' H) as [L|[N R]];
          [left; exact L | right; split; [exact N | right; exact R]].
Qed.

Lemma dict_set_app_last {V} (d : dict V) (k : str) (v0 v : V) :
  ~ In k (keys d) -> dict_set (d ++ [(k, v0)]) k v = d ++ [(k, v)].
Proof.
  induction d as [|[k' v'] d IH]; simpl; intros H.
  - rewrite str_eqb_refl. reflexivity.
  - destruct (str_eqb k' k) eqn:E.
    + apply str_eqb_eq in E. exfalso. apply H. left. exact E.
    + f_equal. apply IH. intros Hin. apply H. right. exact Hin.
Qed.

Lemma concat_dict_set {A} (d : dict (list A)) (k : str) (l x : list A) :
  dict_get d k = Some l ->
  Permutation (concat (map snd (dict_set d k (l ++ x)))) (concat (map snd d) ++ x).
Proof.
  induction d as [|[k' v'] d IH]; simpl; [discriminate|].
  destruct (str_eqb k' k) eqn:E.
  - intros H. injection H as ->. simpl. rewrite <- !app_assoc.
    apply Permutation_app_head. apply Permutation_app_comm.
  - intros H. simpl. rewrite <- app_assoc. apply Permutation_app_head. apply IH. exact H.
Qed.

(** One turn of the grouping loop, when the record has its key. *)
Lemma group_step_cases (by_cooperativa : dict (list record)) (rec : record) (k : str) :
  coop_key_of rec = Some k ->
  group_step by_cooperativa rec =
  match dict_get by_cooperativa k with
  | Some l => OK (dict_set by_cooperativa k (l ++ [rec]))
  | None => OK (by_cooperativa ++ [(k, [rec])])
  end.
Proof.
  unfold coop_key_of, group_step, getitem.
  destruct (dict_get rec (lit "cd_cooperativa")) as [v|]; [|discriminate].
  cbn [bind]. cbv zeta.
  remember (lit "cooperativa_" ++ format_value v) as key eqn:Hkey.
  intros H. injection H as ->. clear Hkey. unfold dict_mem.
  destruct (dict_get by_cooperativa k) as [l|] eqn:E.
  - rewrite E. reflexivity.
  - apply dict_get_None in E.
    rewrite (dict_set_fresh _ _ _ E), dict_get_app.
    apply dict_get_None in E. rewrite E. cbn [dict_get]. rewrite str_eqb_refl.
    cbn [bind app]. apply dict_get_None in E.
    rewrite (dict_set_app_last _ _ _ _ E). reflexivity.
Qed.

Lemma has_coop_key_iff (k : str) (rec : record) :
  has_coop_key k rec = true <-> coop_key_of rec = Some k.
Proof.
  unfold has_coop_key. destruct (coop_key_of rec) as [k'|].
  - rewrite str_eqb_eq. split; congruence.
  - split; discriminate.
Qed.

Lemma filter_snoc {A} (p : A -> bool) (xs : list A) (x : A) :
  filter p (xs ++ [x]) = filter p xs ++ (if p x then [x] else []).
Proof. rewrite filter_app. reflexivity. Qed.

Lemma filter_nil_iff {A} (p : A -> bool) (xs : list A) :
  (forall x, In x xs -> p x = false) -> filter p xs = [].
Proof.
  induction xs as [|x xs IH]; simpl; intros H; [reflexivity|].
  rewrite (H x (or_introl eq_refl)). apply IH. intros y Hy. apply H. right. exact Hy.
Qed.

Lemma grouped_nil : grouped [] [].
Proof.
  repeat split; simpl; try constructor; intros; contradiction.
Qed.

(** A turn of the grouping loop keeps [grouped]. *)
Lemma grouped_step (done : list record) (by_cooperativa : dict (list record))
      (rec : record) (k : str) :
  grouped done by_cooperativa ->
  coop_key_of rec = Some k ->
  exists by', group_step by_cooperativa rec = OK by' /\ grouped (done ++ [rec]) by'.
Proof.
  intros (Hnd & Hg & Hk & Hp) Hkey.
  rewrite (group_step_cases _ _ _ Hkey).
  destruct (dict_get by_cooperativa k) as [l|] eqn:E.
  - (* the key is there: the record is added to its list *)
    eexists. split; [reflexivity|].
    assert (Hin : In k (keys by_cooperativa)).
    { apply dict_get_In in E. change k with (fst (k, l)). apply in_map. exact E. }
    split; [rewrite (dict_set_keys _ _ _ Hin); exact Hnd|]. split; [|split].
    + intros k' g' Hin'. apply dict_set_In in Hin' as [[-> ->]|[Hne Hin']]; [| |exact Hnd].
      * split; [intros Hnil; apply app_eq_nil in Hnil as [_ Hnil]; discriminate|].
        rewrite filter_snoc.
        destruct (Hg k l (dict_get_In _ _ _ E)) as [_ <-].
        apply has_coop_key_iff in Hkey. rewrite Hkey. reflexivity.
      * destruct (Hg k' g' Hin') as [Hne' Hf]. split; [exact Hne'|].
        rewrite filter_snoc, <- Hf.
        destruct (has_coop_key k' rec) eqn:Hh.
        -- apply has_coop_key_iff in Hh. congruence.
        -- rewrite app_nil_r. reflexivity.
    + intros r Hr. rewrite (dict_set_keys _ _ _ Hin).
      apply in_app_or in Hr as [Hr|[<-|[]]]; [apply Hk; exact Hr|].
      exists k. split; assumption.
    + eapply Permutation_trans; [apply concat_dict_set; exact E|].
      apply Permutation_app_tail. exact Hp.
  - (* a new key: a new list, last in the dictionary *)
    eexists. split; [reflexivity|].
    apply dict_get_None in E.
    split; [|split; [|split]].
    + unfold keys. rewrite map_app. simpl.
      apply NoDup_Add with (a := k) (l := map fst by_cooperativa).
      * rewrite <- (app_nil_r (map fst by_cooperativa)) at 1.
        apply Add_app.
      * split; assumption.
    + intros k' g' Hin'. apply in_app_or in Hin' as [Hin'|[H|[]]].
      * destruct (Hg k' g' Hin') as [Hne' Hf]. split; [exact Hne'|].
        rewrite filter_snoc, <- Hf.
        destruct (has_coop_key k' rec) eqn:Hh.
        -- apply has_coop_key_iff in Hh. exfalso. apply E.
           assert (k' = k) by congruence. subst k'.
           change k with (fst (k, g')). apply in_map. exact Hin'.
        -- rewrite app_nil_r. reflexivity.
      * injection H as <- <-. split; [discriminate|].
        rewrite filter_snoc.
        apply has_coop_key_iff in Hkey as Hh. rewrite Hh.
        rewrite filter_nil_iff; [reflexivity|].
        intros r Hr. destruct (Hk r Hr) as (kr & Hkr & Hin).
        destruct (has_coop_key k r) eqn:Hh'; [|reflexivity].
        apply has_coop_key_iff in Hh'. exfalso. apply E. congruence.
    + intros r Hr. unfold keys. rewrite map_app.
      apply in_app_or in Hr as [Hr|[<-|[]]].
      * destruct (Hk r Hr) as (kr & Hkr & Hin). exists kr. split; [exact Hkr|].
        apply in_or_app. left. exact Hin.
      * exists k. split; [exact Hkey|]. apply in_or_app. right. left. reflexivity.
    + rewrite map_app, concat_app. simpl.
      apply Permutation_app_tail. exact Hp.
Qed.

(** The grouping loop over records that all have the column. *)
Lemma group_records_grouped (records : list record) :
  Forall (fun r => coop_key_of r <> None) records ->
  exists by_cooperativa,
    group_records records = OK by_cooperativa /\ grouped records by_cooperativa.
Proof.
  unfold group_records.
  induction records as [|rec records IH] using rev_ind; intros HF.
  - exists []. split; [reflexivity | apply grouped_nil].
  - apply Forall_app in HF as [HF Hrec]. inversion Hrec as [|? ? Hkey _]; subst.
    destruct (IH HF) as (by0 & Hby & Hgr).
    destruct (coop_key_of rec) as [k|] eqn:Hk; [|contradiction].
    destruct (grouped_step _ _ _ _ Hgr Hk) as (by' & Hstep & Hgr').
    exists by'. rewrite for_each_snoc, Hby. split; [exact Hstep | exact Hgr'].
Qed.

Lemma parsed_records_have_key (sql_content : str) (records : list record) :
  parse_sql_insert_values sql_content = OK records ->
  Forall (fun r => keys r = COLUMNS) records.
Proof.
  intros H. apply Forall_forall. intros r Hr. eapply parsed_record_keys; eassumption.
Qed.

Lemma schema_record_has_key (rec : record) :
  keys rec = COLUMNS -> coop_key_of rec <> None.
Proof.
  intros Hk. unfold coop_key_of.
  destruct (dict_get rec (lit "cd_cooperativa")) eqn:E; [discriminate|].
  apply dict_get_None in E. exfalso. apply E. rewrite Hk. vm_compute. tauto.
Qed.

(** ** The files written *)

Lemma write_cooperativa_trace (output_path : path) (k : str) (r : record)
      (g : list record) (v : value) :
  dict_get r (lit "cd_cooperativa") = Some v ->
  write_cooperativa output_path (k, r :: g)
  = (coop_events output_path (k, r :: g), OK tt).
Proof.
  intros H. unfold write_cooperativa, coop_events, first_cooperativa, getitem, coop_file_of.
  cbn [fst snd]. rewrite H. reflexivity.
Qed.

Lemma io_iter_write_cooperativa (output_path : path) (items : dict (list record)) :
  (forall k g, In (k, g) items ->
               exists r g' v, g = r :: g' /\ dict_get r (lit "cd_cooperativa") = Some v) ->
  io_iter (write_cooperativa output_path) items
  = (flat_map (coop_events output_path) items, OK tt).
Proof.
  induction items as [|[k g] items IH]; intros H; [reflexivity|].
  destruct (H k g (or_introl eq_refl)) as (r & g' & v & -> & Hv).
  cbn [io_iter flat_map]. rewrite (write_cooperativa_trace _ _ _ _ _ Hv).
  rewrite IH by (intros k' g0 Hin; apply (H k' g0); right; exact Hin).
  reflexivity.
Qed.

Lemma grouped_heads (done : list record) (by_cooperativa : dict (list record)) :
  grouped done by_cooperativa ->
  forall k g, In (k, g) by_cooperativa ->
              exists r g' v, g = r :: g' /\ dict_get r (lit "cd_cooperativa") = Some v.
Proof.
  intros (_ & Hg & _ & _) k g Hin. destruct (Hg k g Hin) as [Hne Hf].
  destruct g as [|r g']; [contradiction|].
  assert (Hr : In r (filter (has_coop_key k) done)) by (rewrite <- Hf; left; reflexivity).
  apply filter_In in Hr as [_ Hr]. apply has_coop_key_iff in Hr.
  unfold coop_key_of in Hr.
  destruct (dict_get r (lit "cd_cooperativa")) as [v|] eqn:Hv; [|discriminate].
  exists r, g', v. split; [reflexivity | exact Hv].
Qed.

(** What [save_to_json] does once the grouping loop has run. *)
Lemma save_to_json_trace (records : list record) (by_cooperativa : dict (list record))
      (output_path : path) :
  group_records records = OK by_cooperativa ->
  grouped records by_cooperativa ->
  save_to_json records output_path
  = (EWrite output_path
       (JsonConsolidated (length records) (length by_cooperativa)
          (lit "grc-web.sql") (lit "2025-10-23") records)
     :: EPrint (MJsonSaved output_path)
     :: flat_map (coop_events output_path) by_cooperativa, OK tt).
Proof.
  intros Hby Hgr. unfold save_to_json. rewrite Hby.
  unfold lift, emit, print. cbn [io_bind app].
  rewrite (io_iter_write_cooperativa _ _ (grouped_heads _ _ Hgr)).
  reflexivity.
Qed.

Lemma coop_files_of_events (output_path : path) (items : dict (list record)) :
  coop_files_written (flat_map (coop_events output_path) items)
  = map (fun kg => (coop_file_of output_path (fst kg), snd kg)) items.
Proof.
  induction items as [|[k g] items IH]; [reflexivity|].
  cbn [flat_map map]. unfold coop_files_written in *. rewrite flat_map_app, IH. reflexivity.
Qed.

Lemma total_registros_of_events (output_path : path) (items : dict (list record)) :
  total_registros_written (flat_map (coop_events output_path) items)
  = map (fun kg => length (snd kg)) items.
Proof.
  induction items as [|[k g] items IH]; [reflexivity|].
  cbn [flat_map map]. unfold total_registros_written in *. rewrite flat_map_app, IH. reflexivity.
Qed.

Lemma no_consolidated_in_events (output_path : path) (items : dict (list record)) :
  total_records_written (flat_map (coop_events output_path) items) = [] /\
  data_written (flat_map (coop_events output_path) items) = [] /\
  csv_data_rows_written (flat_map (coop_events output_path) items) = [] /\
  csv_written (flat_map (coop_events output_path) items) = [].
Proof.
  induction items as [|[k g] items (IH1 & IH2 & IH3 & IH4)]; [repeat split|].
  cbn [flat_map].
  unfold total_records_written, data_written, csv_data_rows_written, csv_written in *.
  rewrite !flat_map_app, IH1, IH2, IH3, IH4. repeat split.
Qed.

Lemma list_sum_lengths {A} (ls : list (list A)) :
  list_sum (map (@length A) ls) = length (concat ls).
Proof.
  induction ls as [|l ls IH]; simpl; [reflexivity|]. rewrite length_app, IH. reflexivity.
Qed.

Lemma coop_file_of_inj (output_path : path) (k1 k2 : str) :
  coop_file_of output_path k1 = coop_file_of output_path k2 -> k1 = k2.
Proof.
  unfold coop_file_of, path_join. intros H.
  apply app_inj_tail in H as [_ H]. apply app_inv_tail in H. exact H.
Qed.

Lemma NoDup_map_inj {A B} (f : A -> B) (xs : list A) :
  (forall x y, f x = f y -> x = y) -> NoDup xs -> NoDup (map f xs).
Proof.
  intros Hinj. induction 1 as [|x xs Hx Hnd IH]; simpl; constructor; [|exact IH].
  intros Hin. apply in_map_iff in Hin as (y & Hy & Hin). apply Hinj in Hy. subst. contradiction.
Qed.

(** ** [save_to_csv] on records of the schema *)

Lemma dict_to_list_schema (rec : record) :
  keys rec = COLUMNS -> dict_to_list COLUMNS rec = OK (csv_row rec).
Proof.
  intros Hk. unfold dict_to_list. rewrite Hk.
  assert (H : forallb (fun k => str_in k COLUMNS) COLUMNS = true)
    by (vm_compute; reflexivity).
  rewrite H. reflexivity.
Qed.

Lemma writerows_schema (records : list record) :
  Forall (fun r => keys r = COLUMNS) records ->
  writerows COLUMNS records = (map csv_row records, OK tt).
Proof.
  induction 1 as [|r records Hr HF IH]; [reflexivity|].
  cbn [writerows map]. rewrite (dict_to_list_schema _ Hr), IH. reflexivity.
Qed.

Lemma save_to_csv_trace (records : list record) (output_path : path) :
  Forall (fun r => keys r = COLUMNS) records ->
  save_to_csv records output_path =
  match records with
  | [] => ([EPrint MNothingToSave], OK tt)
  | _ :: _ => ([EWrite output_path (Csv (COLUMNS :: map csv_row records));
                EPrint (MCsvSaved output_path)], OK tt)
  end.
Proof.
  intros HF. unfold save_to_csv. destruct records as [|r records]; [reflexivity|].
  rewrite (writerows_schema _ HF). reflexivity.
Qed.

(** The grouping of parsed records, and the trace of [save_to_json] on them. *)
Lemma parsed_records_grouped (sql_content : str) (records : list record) :
  parse_sql_insert_values sql_content = OK records ->
  exists by_cooperativa,
    group_records records = OK by_cooperativa /\ grouped records by_cooperativa.
Proof.
  intros Hp. apply group_records_grouped.
  eapply Forall_impl; [|apply (parsed_records_have_key _ _ Hp)].
  intros r Hr. apply schema_record_has_key. exact Hr.
Qed.

(** Two parsed records are filed under the same key exactly when they hold
    the same [cd_cooperativa]. *)
Lemma same_key_same_value
      (sql_content : str) (records : list record) (r1 r2 : record) :
  parse_sql_insert_values sql_content = OK records ->
  In r1 records -> In r2 records ->
  (coop_key_of r1 = coop_key_of r2 <->
   dict_get r1 (lit "cd_cooperativa") = dict_get r2 (lit "cd_cooperativa")).
Proof.
  intros Hp H1 H2.
  assert (Hcol : In (lit "cd_cooperativa") COLUMNS) by (vm_compute; tauto).
  assert (Hint : is_int_column (lit "cd_cooperativa") = true) by (vm_compute; reflexivity).
  destruct (parsed_field _ _ _ _ Hp H1 Hcol) as (val1 & v1 & Hc1 & Hv1).
  destruct (parsed_field _ _ _ _ Hp H2 Hcol) as (val2 & v2 & Hc2 & Hv2).
  pose proof (convert_int_column _ _ _ Hint Hc1) as Hn1.
  pose proof (convert_int_column _ _ _ Hint Hc2) as Hn2.
  unfold coop_key_of. rewrite Hv1, Hv2. split.
  - intros H. injection H as H.
    f_equal. apply format_value_inj; assumption.
  - intros H. injection H as ->. reflexivity.
Qed.

(** ** Properties of [save_to_json] and [save_to_csv] *)

(** C7: for the records parsed from any text, the grouping loop of
    [save_to_json] returns a dictionary with no key twice in which every
    record lies in the list of one key and of no other, the lists put end to
    end being the records up to order; the list of a key holds the records
    with one value of [cd_cooperativa]; and [save_to_json] writes one file
    per key, each under a path of its own, holding the list of that key. *)
Theorem grouping_partitions_records
        (sql_content : str) (records : list record) (output_path : path) :
  parse_sql_insert_values sql_content = OK records ->
  exists by_cooperativa,
    group_records records = OK by_cooperativa /\
    NoDup (keys by_cooperativa) /\
    (forall r, In r records ->
       exists k g, In (k, g) by_cooperativa /\ In r g /\
         forall k' g', In (k', g') by_cooperativa -> In r g' -> k' = k /\ g' = g) /\
    Permutation (concat (map snd by_cooperativa)) records /\
    (forall k g r1 r2, In (k, g) by_cooperativa -> In r1 g -> In r2 records ->
       (In r2 g <-> dict_get r2 (lit "cd_cooperativa")
                    = dict_get r1 (lit "cd_cooperativa"))) /\
    snd (save_to_json records output_path) = OK tt /\
    coop_files_written (fst (save_to_json records output_path))
    = map (fun kg => (coop_file_of output_path (fst kg), snd kg)) by_cooperativa /\
    NoDup (map fst (coop_files_written (fst (save_to_json records output_path)))).
Proof.
  intros Hp. destruct (parsed_records_grouped _ _ Hp) as (by0 & Hby & Hgr).
  exists by0. pose proof Hgr as (Hnd & Hg & Hk & Hperm).
  split; [exact Hby|]. split; [exact Hnd|].
  split; [|split; [exact Hperm|split]].
  - intros r Hr. destruct (Hk r Hr) as (k & Hkey & Hin).
    apply in_map_iff in Hin as ([k0 g] & E & Hin). simpl in E. subst k0.
    exists k, g. split; [exact Hin|].
    destruct (Hg k g Hin) as [_ Hf]. split.
    + rewrite Hf. apply filter_In. split; [exact Hr|]. apply has_coop_key_iff. exact Hkey.
    + intros k' g' Hin' Hr'. destruct (Hg k' g' Hin') as [_ Hf'].
      rewrite Hf' in Hr'. apply filter_In in Hr' as [_ Hr'].
      apply has_coop_key_iff in Hr'. assert (k' = k) by congruence. subst k'.
      split; [reflexivity | congruence].
  - intros k g r1 r2 Hin H1 H2. destruct (Hg k g Hin) as [_ Hf].
    assert (Hr1 : In r1 records /\ coop_key_of r1 = Some k).
    { rewrite Hf in H1. apply filter_In in H1 as [H1 Hk1].
      apply has_coop_key_iff in Hk1. split; assumption. }
    destruct Hr1 as [Hr1 Hk1].
    rewrite <- (same_key_same_value _ _ r2 r1 Hp H2 Hr1), Hk1, Hf, filter_In.
    rewrite has_coop_key_iff. tauto.
  - rewrite (save_to_json_trace _ _ output_path Hby Hgr). cbn [fst snd].
    split; [reflexivity|].
    assert (Hfiles :
      coop_files_written
        (EWrite output_path
           (JsonConsolidated (length records) (length by0)
              (lit "grc-web.sql") (lit "2025-10-23") records)
         :: EPrint (MJsonSaved output_path) :: flat_map (coop_events output_path) by0)
      = map (fun kg => (coop_file_of output_path (fst kg), snd kg)) by0).
    { rewrite <- coop_files_of_events. reflexivity. }
    rewrite Hfiles. split; [reflexivity|].
    rewrite map_map. cbn [fst].
    rewrite <- (map_map fst (coop_file_of output_path)).
    apply NoDup_map_inj; [apply coop_file_of_inj | exact Hnd].
Qed.

Lemma grouping_partitions_records_witness :
  length records_good = 3 /\
  exists by_cooperativa,
    group_records records_good = OK by_cooperativa /\
    keys by_cooperativa = [lit "cooperativa_3"; lit "cooperativa_4"] /\
    Permutation (concat (map snd by_cooperativa)) records_good.
Proof.
  split; [reflexivity|].
  destruct (grouping_partitions_records sql_good records_good output_dir parse_sql_good)
    as (by0 & Hby & _ & _ & Hperm & _).
  exists by0. split; [exact Hby|]. split; [|exact Hperm].
  assert (Hv : group_records records_good = OK by0) by exact Hby.
  vm_compute in Hv. injection Hv as <-. reflexivity.
Defined.

(** C8: for a non-empty list of records parsed from any text, the
    [total_records] of the consolidated JSON, the number of rows after the
    header of the CSV file and the sum of the [total_registros] of the
    per-cooperative files are all the length of the list. *)
Theorem record_counts_agree
        (sql_content : str) (records : list record) (json_path csv_path : path) :
  parse_sql_insert_values sql_content = OK records ->
  records <> [] ->
  snd (save_to_json records json_path) = OK tt /\
  snd (save_to_csv records csv_path) = OK tt /\
  total_records_written (fst (save_to_json records json_path)) = [length records] /\
  csv_data_rows_written (fst (save_to_csv records csv_path)) = [length records] /\
  list_sum (total_registros_written (fst (save_to_json records json_path)))
  = length records.
Proof.
  intros Hp Hne. destruct (parsed_records_grouped _ _ Hp) as (by0 & Hby & Hgr).
  rewrite (save_to_json_trace _ _ json_path Hby Hgr).
  rewrite (save_to_csv_trace _ csv_path (parsed_records_have_key _ _ Hp)).
  destruct records as [|r records]; [contradiction|]. cbn [fst snd].
  split; [reflexivity|]. split; [reflexivity|].
  destruct (no_consolidated_in_events json_path by0) as (H1 & _ & _ & _).
  split; [|split].
  - unfold total_records_written in *. cbn [flat_map app]. rewrite H1. reflexivity.
  - unfold csv_data_rows_written. cbn [flat_map app].
    replace (length (COLUMNS :: map csv_row (r :: records)) - 1)
      with (length (r :: records)); [reflexivity|].
    cbn [length]. rewrite length_map. cbn [length]. lia.
  - change (list_sum (total_registros_written (flat_map (coop_events json_path) by0))
            = length (r :: records)).
    rewrite total_registros_of_events.
    rewrite <- (map_map snd (@length record)), list_sum_lengths.
    destruct Hgr as (_ & _ & _ & Hperm). apply Permutation_length. exact Hperm.
Qed.

Lemma record_counts_agree_witness :
  length records_good = 3 /\
  total_records_written (fst (save_to_json records_good [lit "out.json"])) = [3] /\
  csv_data_rows_written (fst (save_to_csv records_good [lit "out.csv"])) = [3] /\
  list_sum (total_registros_written (fst (save_to_json records_good [lit "out.json"]))) = 3.
Proof.
  assert (Hne : records_good <> []) by (vm_compute; discriminate).
  destruct (record_counts_agree sql_good records_good [lit "out.json"] [lit "out.csv"]
              parse_sql_good Hne) as (_ & _ & H1 & H2 & H3).
  change (length records_good) with 3 in H1, H2, H3.
  repeat split; assumption.
Defined.

(** C10: the records [parse_sql_insert_values] returns are, one for one and
    in the same order, the records of rows that stand in the text one after
    the other; the consolidated JSON holds the list as returned, the CSV file
    one row per record in that order after the header, and each
    per-cooperative file the records of its key in the order of the list. *)
Theorem records_keep_text_order
        (sql_content : str) (records : list record) (json_path csv_path : path) :
  parse_sql_insert_values sql_content = OK records ->
  (exists rows,
      occurs_in_order rows sql_content /\
      Forall2 (fun row rec => row_record row = OK (Some rec)) rows records) /\
  data_written (fst (save_to_json records json_path)) = [records] /\
  Forall (fun file => exists k, snd file = filter (has_coop_key k) records /\
                                subseq (snd file) records)
         (coop_files_written (fst (save_to_json records json_path))) /\
  csv_written (fst (save_to_csv records csv_path))
  = match records with
    | [] => []
    | _ :: _ => [COLUMNS :: map csv_row records]
    end.
Proof.
  intros Hp. split; [|split; [|split]].
  - destruct (parse_spec _ _ Hp) as (kept & Hsub & HF).
    exists kept. split; [|exact HF].
    eapply oio_subseq; [exact Hsub | apply all_rows_in_order].
  - destruct (parsed_records_grouped _ _ Hp) as (by0 & Hby & Hgr).
    rewrite (save_to_json_trace _ _ json_path Hby Hgr). cbn [fst].
    destruct (no_consolidated_in_events json_path by0) as (_ & H2 & _ & _).
    unfold data_written in *. cbn [flat_map app]. rewrite H2. reflexivity.
  - destruct (parsed_records_grouped _ _ Hp) as (by0 & Hby & Hgr).
    rewrite (save_to_json_trace _ _ json_path Hby Hgr). cbn [fst].
    change (Forall (fun file => exists k, snd file = filter (has_coop_key k) records /\
                                          subseq (snd file) records)
              (coop_files_written (flat_map (coop_events json_path) by0))).
    rewrite coop_files_of_events. apply Forall_forall. intros file Hin.
    apply in_map_iff in Hin as ([k g] & <- & Hin). cbn [fst snd].
    destruct Hgr as (_ & Hg & _ & _). destruct (Hg k g Hin) as [_ Hf].
    exists k. split; [exact Hf|]. rewrite Hf. apply subseq_filter.
  - rewrite (save_to_csv_trace _ csv_path (parsed_records_have_key _ _ Hp)).
    destruct records; reflexivity.
Qed.

Lemma records_keep_text_order_witness :
  (exists rows,
      occurs_in_order rows sql_good /\
      Forall2 (fun row rec => row_record row = OK (Some rec)) rows records_good) /\
  data_written (fst (save_to_json records_good [lit "out.json"])) = [records_good].
Proof.
  destruct (records_keep_text_order sql_good records_good [lit "out.json"] [lit "out.csv"]
              parse_sql_good) as (Hrows & Hdata & _).
  split; assumption.
Defined.

(** ** Properties of [main] *)

(** C9: when the SQL file does not exist, [main] prints its heading and the
    message that the file was not found, and returns: nothing is read or
    written and the closing rule is not printed.  When the file is read and
    no record is extracted, [main] prints the count, the warning and the
    closing rule, and writes no file.  [save_to_csv] on an empty list prints
    its own warning and writes nothing. *)
Theorem main_reports_and_writes_nothing :
  main None
  = ([EPrint MRule; EPrint MTitle; EPrint MRule; EPrint (MSqlNotFound sql_file)], OK tt)
  /\
  (forall sql_content,
      parse_sql_insert_values sql_content = OK [] ->
      main (Some sql_content)
      = ([EPrint MRule; EPrint MTitle; EPrint MRule; EPrint MReading; ERead sql_file;
          EPrint (MFileRead (length sql_content)); EPrint MExtracting;
          EPrint (MExtracted 0); EPrint MNoRecords; EPrint MLastRule], OK tt)
      /\ paths_written (fst (main (Some sql_content))) = [])
  /\
  (forall output_path, save_to_csv [] output_path = ([EPrint MNothingToSave], OK tt)).
Proof.
  split; [reflexivity|]. split; [|reflexivity].
  intros sql_content Hp.
  assert (Hmain : main (Some sql_content)
      = ([EPrint MRule; EPrint MTitle; EPrint MRule; EPrint MReading; ERead sql_file;
          EPrint (MFileRead (length sql_content)); EPrint MExtracting;
          EPrint (MExtracted 0); EPrint MNoRecords; EPrint MLastRule], OK tt)).
  { unfold main. rewrite Hp. reflexivity. }
  rewrite Hmain. split; reflexivity.
Qed.

Lemma main_reports_and_writes_nothing_witness :
  parse_sql_insert_values sql_other = OK [] /\
  paths_written (fst (main (Some sql_other))) = [] /\
  existsb is_read (fst (main None)) = false /\
  paths_written (fst (main None)) = [].
Proof.
  assert (Hp : parse_sql_insert_values sql_other = OK []) by (vm_compute; reflexivity).
  destruct main_reports_and_writes_nothing as (Hnone & Hsome & _).
  destruct (Hsome sql_other Hp) as (_ & Hw).
  split; [exact Hp|]. split; [exact Hw|].
  rewrite Hnone. split; reflexivity.
Defined.


(** ** Further properties of the parser and of [main] *)

Lemma strip_with_quote_free (p : ascii -> bool) (s : str) :
  quote_free s -> quote_free (strip_with p s).
Proof.
  intros H Hin. apply H. destruct (strip_with_infix p s) as (a & b & E).
  rewrite E. apply in_or_app. right. apply in_or_app. left. exact Hin.
Qed.

Lemma flush_quote_free (vs : list str) (cur : str) :
  Forall quote_free vs -> quote_free cur -> Forall quote_free (flush vs cur).
Proof.
  intros Hvs Hcur. unfold flush. destruct (truthy (strip cur)); [|exact Hvs].
  apply Forall_app. split; [exact Hvs|]. constructor; [|constructor].
  apply strip_with_quote_free. exact Hcur.
Qed.

Lemma tok_step_quote_free (st : tok_state) (c : ascii) :
  Forall quote_free (values st) /\ quote_free (current_value st) ->
  Forall quote_free (values (tok_step st c)) /\
  quote_free (current_value (tok_step st c)).
Proof.
  intros [Hvs Hcur]. unfold tok_step.
  destruct (chr_eqb c "'"%char) eqn:Hq; cbn [andb].
  - destruct (in_quotes st); cbn [negb values current_value].
    + split; [|intros []]. apply Forall_app. split; [exact Hvs|].
      constructor; [exact Hcur | constructor].
    + split; [exact Hvs | intros []].
  - destruct (chr_eqb c ","%char && negb (in_quotes st)); cbn [values current_value].
    + split; [apply flush_quote_free; assumption | intros []].
    + split; [exact Hvs|]. intros Hin. apply in_app_or in Hin as [Hin|[->|[]]].
      * exact (Hcur Hin).
      * rewrite chr_eqb_refl in Hq. discriminate.
Qed.

Lemma tok_loop_quote_free (row : str) :
  forall st,
    Forall quote_free (values st) /\ quote_free (current_value st) ->
    Forall quote_free (values (tok_loop st row)) /\
    quote_free (current_value (tok_loop st row)).
Proof.
  induction row as [|c row IH]; intros st H; [exact H|].
  apply (IH (tok_step st c)). apply tok_step_quote_free. exact H.
Qed.

Lemma tokens_quote_free (row : str) : Forall quote_free (tokenize row).
Proof.
  unfold tokenize, tok_finish.
  destruct (tok_loop_quote_free row tok_init) as [Hvs Hcur].
  - split; [constructor | intros []].
  - apply flush_quote_free; assumption.
Qed.

(** An empty string in [values] stands for two quote characters in a row in
    the text read so far, and an open literal with nothing in it yet for a
    quote at the end of that text: one turn of the loop keeps both. *)
Lemma tok_step_empty_token (p : str) (st : tok_state) (c : ascii) :
  (In [] (values st) -> holds_quoted_empty p) /\
  (in_quotes st = true -> current_value st = [] -> exists p', p = p' ++ ["'"%char]) ->
  (In [] (values (tok_step st c)) -> holds_quoted_empty (p ++ [c])) /\
  (in_quotes (tok_step st c) = true -> current_value (tok_step st c) = [] ->
   exists p', p ++ [c] = p' ++ ["'"%char]).
Proof.
  intros [Hvs Hopen].
  assert (Hmore : holds_quoted_empty p -> holds_quoted_empty (p ++ [c])).
  { intros (a & b & ->). exists a, (b ++ [c]). rewrite <- !app_assoc. reflexivity. }
  unfold tok_step. destruct (chr_eqb c "'"%char) eqn:Hq; cbn [andb].
  - apply chr_eqb_eq in Hq. subst c.
    destruct (in_quotes st) eqn:Hin; cbn [negb values current_value in_quotes].
    + split; [|discriminate]. intros H. apply in_app_or in H as [H|[H|[]]].
      * apply Hmore, Hvs, H.
      * destruct (Hopen eq_refl H) as (p' & ->).
        exists p', []. rewrite <- app_assoc. reflexivity.
    + split; [intros H; apply Hmore, Hvs, H|]. intros _ _. exists p. reflexivity.
  - destruct (chr_eqb c ","%char && negb (in_quotes st)) eqn:Hc;
      cbn [values current_value in_quotes].
    + apply andb_true_iff in Hc as [_ Hout]. apply negb_true_iff in Hout.
      split; [|rewrite Hout; discriminate].
      unfold flush. destruct (strip (current_value st)) as [|x t] eqn:Hs; cbn [truthy].
      * intros H. apply Hmore, Hvs, H.
      * intros H. apply in_app_or in H as [H|[H|[]]]; [|discriminate H].
        apply Hmore, Hvs, H.
    + split; [intros H; apply Hmore, Hvs, H|].
      intros _ H. destruct (current_value st); discriminate H.
Qed.

Lemma tok_loop_empty_token (row : str) :
  forall (p : str) (st : tok_state),
    (In [] (values st) -> holds_quoted_empty p) /\
    (in_quotes st = true -> current_value st = [] -> exists p', p = p' ++ ["'"%char]) ->
    In [] (values (tok_loop st row)) -> holds_quoted_empty (p ++ row).
Proof.
  induction row as [|c row IH]; intros p st H.
  - rewrite app_nil_r. exact (proj1 H).
  - replace (p ++ c :: row) with ((p ++ [c]) ++ row)
      by (rewrite <- app_assoc; reflexivity).
    apply (IH (p ++ [c]) (tok_step st c)). apply tok_step_empty_token. exact H.
Qed.

(** A token is typed as null only when it is empty. *)
Lemma convert_null (col val : str) :
  val <> lit "''" -> convert col val = OK VNone -> val = [].
Proof.
  intros Hne. apply str_eqb_neq in Hne. unfold convert, int_or_raise. rewrite Hne.
  destruct (str_eqb val []) eqn:E; [intros _; apply str_eqb_eq; exact E|].
  cbn [orb].
  destruct (str_in col [lit "ano"; lit "mes"]);
    [destruct (py_int val); discriminate|].
  destruct (startswith col (lit "nota_") || startswith col (lit "alerta_")
            || str_in col [lit "total"; lit "nu_justificativa"; lit "nu_plano";
                           lit "st_justificativa"; lit "st_plano"]);
    [destruct (py_int val); discriminate|].
  destruct (str_in col [lit "cd_sistema"; lit "cd_central"; lit "cd_cooperativa"]);
    [destruct (py_int val); discriminate | discriminate].
Qed.

(** X1: No token holds a quote character: the loop takes every quote as the start
    or the end of a literal.  The comparison of a token with the two-quote
    string, in the type conversion, is therefore never true: a token that
    is typed as null is empty, whatever its column.  And a row has an empty
    token only when it holds two quote characters in a row, the literal of
    an empty string: a field left blank without quotes gives no token. *)
Theorem tokens_hold_no_quote (row : str) :
  Forall quote_free (tokenize row) /\
  Forall (fun val => str_eqb val (lit "''") = false) (tokenize row) /\
  (forall col val,
      In val (tokenize row) -> convert col val = OK VNone -> val = []) /\
  (In [] (tokenize row) -> holds_quoted_empty row).
Proof.
  assert (H : Forall quote_free (tokenize row)) by apply tokens_quote_free.
  assert (H' : Forall (fun val => val <> lit "''") (tokenize row)).
  { eapply Forall_impl; [|exact H]. intros val Hq ->. apply Hq. left. reflexivity. }
  split; [exact H|]. split; [|split].
  - eapply Forall_impl; [|exact H']. intros val Hne. apply str_eqb_neq. exact Hne.
  - intros col val Hin. apply convert_null.
    rewrite Forall_forall in H'. apply H'. exact Hin.
  - unfold tokenize, tok_finish, flush. intros Hin.
    apply (tok_loop_empty_token row [] tok_init).
    + split; [intros [] | discriminate].
    + destruct (strip (current_value (tok_loop tok_init row))) as [|x t];
        cbn [truthy] in Hin; [exact Hin|].
      apply in_app_or in Hin as [Hin|[Hin|[]]]; [exact Hin | discriminate Hin].
Qed.

Lemma tokens_hold_no_quote_witness :
  tokenize (lit "7,'', ,3") = [lit "7"; []; lit "3"] /\
  holds_quoted_empty (lit "7,'', ,3") /\
  nth 1 (tokenize (lit "7,'', ,3")) (lit "none") = [].
Proof.
  destruct (tokens_hold_no_quote (lit "7,'', ,3")) as (_ & _ & Hnull & Hempty).
  split; [vm_compute; reflexivity|]. split.
  - apply Hempty. vm_compute. right. left. reflexivity.
  - apply (Hnull (lit "tx_plano")).
    + vm_compute. right. left. reflexivity.
    + vm_compute. reflexivity.
Defined.

(** ** What the patterns let through *)

Lemma oio_In (gs : list str) (s : str) :
  occurs_in_order gs s ->
  forall g, In g gs -> exists a b, s = a ++ g ++ b.
Proof.
  induction 1 as [s | a g0 b gs H IH]; intros g Hin; [contradiction|].
  destruct Hin as [<-|Hin].
  - exists a, b. reflexivity.
  - destruct (IH g Hin) as (a' & b' & ->).
    exists (a ++ g0 ++ a'), b'. rewrite <- !app_assoc. reflexivity.
Qed.

Lemma match_lazy_group (s g rest : str) :
  match_lazy s = Some (g, rest) -> g <> [] /\ ~ In ";"%char g.
Proof.
  induction s as [|c s IH]; simpl.
  - unfold match_values. simpl. discriminate.
  - destruct (match_values (c :: s)) as [m|] eqn:Hm.
    + intros H. injection H as ->. unfold match_values in Hm.
      destruct (after_prefix values_kw (c :: s)) as [r|]; [|discriminate].
      apply match_tail_shape in Hm as (w & _ & _ & Hne & Hns). split; assumption.
    + exact IH.
Qed.

Lemma match_at_group (s g rest : str) :
  match_at s = Some (g, rest) -> g <> [] /\ ~ In ";"%char g.
Proof.
  unfold match_at. destruct (after_prefix insert_prefix s); [|discriminate].
  apply match_lazy_group.
Qed.

Lemma match_at_prefix (s g rest : str) :
  match_at s = Some (g, rest) -> exists r, s = insert_prefix ++ r.
Proof.
  unfold match_at. destruct (after_prefix insert_prefix s) as [r|] eqn:E; [|discriminate].
  intros _. exists r. apply after_prefix_app. exact E.
Qed.

(** Induction along the scan of [findall]. *)
Lemma findall_scan_ind (P : str -> list str -> Prop) :
  P [] [] ->
  (forall c t, match_at (c :: t) = None -> P t (findall t) -> P (c :: t) (findall t)) ->
  (forall s g rest, match_at s = Some (g, rest) ->
                    P rest (findall rest) -> P s (g :: findall rest)) ->
  forall s, P s (findall s).
Proof.
  intros Hnil Hskip Hmatch s.
  remember (length s) as n eqn:Hn. revert s Hn.
  induction n as [n IH] using lt_wf_ind. intros s Hn.
  destruct s as [|c t]; [exact Hnil|].
  destruct (match_at (c :: t)) as [[g rest]|] eqn:Hm.
  - rewrite (findall_match _ _ _ Hm). apply (Hmatch _ _ _ Hm).
    destruct (match_at_shape _ _ _ Hm) as (a & Hs).
    apply (IH (length rest)); [|reflexivity].
    apply (f_equal (@length ascii)) in Hs. rewrite !length_app in Hs.
    subst n. cbn [length] in *. lia.
  - rewrite (findall_nomatch _ _ Hm). apply (Hskip _ _ Hm).
    apply (IH (length t)); [|reflexivity]. subst n. cbn [length]. lia.
Qed.

Lemma findall_groups (s : str) :
  Forall (fun g => g <> [] /\ ~ In ";"%char g) (findall s).
Proof.
  apply (findall_scan_ind (fun _ l => Forall (fun g => g <> [] /\ ~ In ";"%char g) l)).
  - constructor.
  - intros c t _ H. exact H.
  - intros s0 g rest Hm H. constructor; [|exact H]. eapply match_at_group. exact Hm.
Qed.

Lemma findall_needs_prefix (s : str) :
  findall s <> [] -> exists a b, s = a ++ insert_prefix ++ b.
Proof.
  apply (findall_scan_ind
           (fun s l => l <> [] -> exists a b, s = a ++ insert_prefix ++ b)).
  - intros H. contradiction.
  - intros c t _ IH H. destruct (IH H) as (a & b & ->). exists (c :: a), b. reflexivity.
  - intros s0 g rest Hm _ _. destruct (match_at_prefix _ _ _ Hm) as (r & ->).
    exists [], r. reflexivity.
Qed.

Lemma findall_needs_semicolon (s : str) :
  findall s <> [] -> In ";"%char s.
Proof.
  apply (findall_scan_ind (fun s l => l <> [] -> In ";"%char s)).
  - intros H. contradiction.
  - intros c t _ IH H. right. apply IH. exact H.
  - intros s0 g rest Hm _ _. destruct (match_at_shape _ _ _ Hm) as (a & ->).
    apply in_or_app. right. apply in_or_app. right. right. left. reflexivity.
Qed.

(** X2: A text in which the INSERT prefix of the table does not occur, or
    without any semicolon, gives no record and no error. *)
Theorem no_statement_no_records (sql_content : str) :
  (forall a b, sql_content <> a ++ insert_prefix ++ b) \/ ~ In ";"%char sql_content ->
  parse_sql_insert_values sql_content = OK [].
Proof.
  intros H. unfold parse_sql_insert_values.
  destruct (findall sql_content) as [|g gs] eqn:E; [reflexivity|].
  exfalso. assert (Hne : findall sql_content <> []) by (rewrite E; discriminate).
  destruct H as [H|H].
  - destruct (findall_needs_prefix _ Hne) as (a & b & Hs). exact (H a b Hs).
  - exact (H (findall_needs_semicolon _ Hne)).
Qed.

Lemma no_statement_no_records_witness :
  parse_sql_insert_values (lit "INSERT INTO `alerta_cooperativa_sicoob` VALUES (1,2)")
  = OK [].
Proof.
  apply no_statement_no_records. right. vm_compute. intuition discriminate.
Defined.

(** The characters of the rows: those of the text, the semicolon apart. *)
Lemma all_rows_no_semicolon (sql_content : str) :
  Forall (fun row => ~ In ";"%char row) (all_rows sql_content).
Proof.
  apply Forall_forall. intros row Hrow. unfold all_rows in Hrow.
  apply in_flat_map in Hrow as (g & Hg & Hrow).
  pose proof (findall_groups sql_content) as HF.
  rewrite Forall_forall in HF. destruct (HF g Hg) as [_ Hns].
  destruct (oio_In _ _ (split_in_order g) row Hrow) as (a & b & E).
  intros Hin. apply Hns. rewrite E. apply in_or_app. right. apply in_or_app. left. exact Hin.
Qed.

Lemma Forall_infix {A} (P : A -> Prop) (a x b : list A) :
  Forall P (a ++ x ++ b) -> Forall P x.
Proof.
  intros H. apply Forall_app in H as [_ H]. apply Forall_app in H as [H _]. exact H.
Qed.

Lemma strip_with_Forall (P : ascii -> Prop) (p : ascii -> bool) (s : str) :
  Forall P s -> Forall P (strip_with p s).
Proof.
  intros H. destruct (strip_with_infix p s) as (a & b & E). rewrite E in H.
  eapply Forall_infix. exact H.
Qed.

Lemma flush_Forall (P : ascii -> Prop) (vs : list str) (cur : str) :
  Forall (Forall P) vs -> Forall P cur -> Forall (Forall P) (flush vs cur).
Proof.
  intros Hvs Hcur. unfold flush. destruct (truthy (strip cur)); [|exact Hvs].
  apply Forall_app. split; [exact Hvs|]. constructor; [|constructor].
  apply strip_with_Forall. exact Hcur.
Qed.

Lemma tok_step_Forall (P : ascii -> Prop) (st : tok_state) (c : ascii) :
  P c ->
  Forall (Forall P) (values st) /\ Forall P (current_value st) ->
  Forall (Forall P) (values (tok_step st c)) /\ Forall P (current_value (tok_step st c)).
Proof.
  intros Hc [Hvs Hcur]. unfold tok_step.
  destruct (chr_eqb c "'"%char && negb (in_quotes st)); cbn [values current_value];
    [split; [exact Hvs | constructor]|].
  destruct (chr_eqb c "'"%char && in_quotes st); cbn [values current_value].
  - split; [|constructor]. apply Forall_app. split; [exact Hvs|].
    constructor; [exact Hcur | constructor].
  - destruct (chr_eqb c ","%char && negb (in_quotes st)); cbn [values current_value].
    + split; [apply flush_Forall; assumption | constructor].
    + split; [exact Hvs|]. apply Forall_app. split; [exact Hcur|].
      constructor; [exact Hc | constructor].
Qed.

Lemma tok_loop_Forall (P : ascii -> Prop) (row : str) :
  Forall P row ->
  forall st,
    Forall (Forall P) (values st) /\ Forall P (current_value st) ->
    Forall (Forall P) (values (tok_loop st row)) /\
    Forall P (current_value (tok_loop st row)).
Proof.
  induction 1 as [|c row Hc Hrow IH]; intros st H; [exact H|].
  apply (IH (tok_step st c)). apply tok_step_Forall; assumption.
Qed.

(** The tokens are made of characters of the row. *)
Lemma row_tokens_Forall (P : ascii -> Prop) (row : str) :
  Forall P row -> Forall (Forall P) (row_tokens row).
Proof.
  intros H. unfold row_tokens, tokenize, tok_finish, clean_row.
  assert (Hclean : Forall P (strip_parens (strip row))).
  { unfold strip_parens, strip. apply strip_with_Forall, strip_with_Forall. exact H. }
  destruct (tok_loop_Forall P _ Hclean tok_init) as [Hvs Hcur].
  - split; constructor.
  - apply flush_Forall; assumption.
Qed.

(** A field of a parsed record, with the row and the token it comes from. *)
Lemma parsed_field_token
      (sql_content : str) (records : list record) (rec : record) (col : str) :
  parse_sql_insert_values sql_content = OK records ->
  In rec records ->
  In col COLUMNS ->
  exists row val v,
    In row (all_rows sql_content) /\ In val (row_tokens row) /\
    convert col val = OK v /\ dict_get rec col = Some v.
Proof.
  intros Hp Hrec Hcol.
  destruct (parsed_record_row _ _ _ Hp Hrec) as (row & Hrow & Hlen & Hb).
  destruct (In_nth_error _ _ Hcol) as (i & Hi).
  assert (Hlt : i < length (row_tokens row)).
  { rewrite Hlen, <- COLUMNS_length. apply nth_error_Some. congruence. }
  destruct (nth_error (row_tokens row) i) as [val|] eqn:Hval.
  - destruct (build_record_nth _ _ Hlen Hb _ _ _ Hi Hval) as (v & Hc & _ & Hget).
    exists row, val, v. split; [exact Hrow|]. split; [|split; assumption].
    eapply nth_error_In. exact Hval.
  - apply nth_error_None in Hval. lia.
Qed.

(** X3: In every record returned by [parse_sql_insert_values], a column that is
    not typed by [int] ([tx_justificativa], [tx_plano]) holds null or a
    string, never an integer; the string is a token of the row as it stands:
    it is not empty and holds neither a quote nor a semicolon. *)
Theorem text_columns_hold_text_or_null
        (sql_content : str) (records : list record) (rec : record) (col : str) :
  parse_sql_insert_values sql_content = OK records ->
  In rec records ->
  In col COLUMNS ->
  is_int_column col = false ->
  exists v, dict_get rec col = Some v /\
            (v = VNone \/ exists s, v = VStr s /\ clean_text s).
Proof.
  intros Hp Hrec Hcol Htext.
  destruct (parsed_field_token _ _ _ _ Hp Hrec Hcol)
    as (row & val & v & Hrow & Hval & Hconv & Hget).
  exists v. split; [exact Hget|].
  rewrite convert_cases, Htext in Hconv.
  destruct (str_eqb val []) eqn:He; cbn [orb] in Hconv.
  - injection Hconv as <-. left. reflexivity.
  - destruct (str_eqb val (lit "''")); injection Hconv as <-;
      [left; reflexivity|].
    right. exists val. split; [reflexivity|]. split; [|split].
    + apply str_eqb_neq. exact He.
    + pose proof (tokens_quote_free (clean_row row)) as Hq.
      rewrite Forall_forall in Hq. apply Hq. exact Hval.
    + pose proof (all_rows_no_semicolon sql_content) as Hrows.
      rewrite Forall_forall in Hrows.
      assert (Hchars : Forall (fun c => c <> ";"%char) row).
      { apply Forall_forall. intros c Hc ->. exact (Hrows row Hrow Hc). }
      pose proof (row_tokens_Forall _ _ Hchars) as Htok.
      rewrite Forall_forall in Htok. pose proof (Htok val Hval) as Hv.
      rewrite Forall_forall in Hv. intros Hin. exact (Hv _ Hin eq_refl).
Qed.

Lemma text_columns_hold_text_or_null_witness :
  dict_get (nth 0 records_good []) (lit "tx_justificativa")
  = Some (VStr (lit "late, twice")) /\
  exists v, dict_get (nth 0 records_good []) (lit "tx_justificativa") = Some v /\
            (v = VNone \/ exists s, v = VStr s /\ clean_text s).
Proof.
  split; [vm_compute; reflexivity|].
  apply (text_columns_hold_text_or_null sql_good records_good
           (nth 0 records_good []) (lit "tx_justificativa")).
  - exact parse_sql_good.
  - vm_compute. tauto.
  - vm_compute. tauto.
  - vm_compute. reflexivity.
Defined.

(** The records are the rows of 62 tokens, one for one and in order. *)
Lemma rows_records_exact (rows : list str) :
  forall acc records,
    for_each process_row rows acc = OK records ->
    exists new,
      records = acc ++ new /\
      Forall2 (fun row rec => build_record (row_tokens row) = OK rec)
              (filter is_full_row rows) new.
Proof.
  induction rows as [|row rows IH]; simpl; intros acc records H.
  - injection H as <-. exists []. rewrite app_nil_r. split; [reflexivity | constructor].
  - rewrite process_row_row_record in H. unfold row_record in H. unfold is_full_row.
    destruct (Nat.eqb (length (row_tokens row)) 62).
    + destruct (build_record (row_tokens row)) as [rec|e] eqn:Hb; simpl in H; [|discriminate].
      apply IH in H as (new & -> & HF). exists (rec :: new).
      rewrite <- app_assoc. split; [reflexivity|]. constructor; assumption.
    + simpl in H. apply IH in H as (new & -> & HF). exists new. split; [reflexivity | exact HF].
Qed.

(** X4: When [parse_sql_insert_values] returns, it returns as many records as the
    text has rows of 62 tokens, and the n-th record is the one built from the
    tokens of the n-th such row. *)
Theorem records_are_the_full_rows (sql_content : str) (records : list record) :
  parse_sql_insert_values sql_content = OK records ->
  Forall2 (fun row rec => build_record (row_tokens row) = OK rec)
          (filter is_full_row (all_rows sql_content)) records /\
  length records = length (filter is_full_row (all_rows sql_content)).
Proof.
  rewrite parse_flat. unfold rows_records. intros H.
  apply rows_records_exact in H as (new & -> & HF).
  split; [exact HF|]. symmetry. apply (Forall2_length HF).
Qed.

Lemma records_are_the_full_rows_witness :
  filter is_full_row (all_rows sql_good) = [row_a; row_b; row_c] /\
  length records_good = 3 /\
  Forall2 (fun row rec => build_record (row_tokens row) = OK rec)
          [row_a; row_b; row_c] records_good.
Proof.
  assert (E : filter is_full_row (all_rows sql_good) = [row_a; row_b; row_c])
    by (vm_compute; reflexivity).
  destruct (records_are_the_full_rows sql_good records_good parse_sql_good) as [HF Hlen].
  rewrite E in HF, Hlen. split; [exact E|]. split; assumption.
Defined.

(** ** The row separator *)

Lemma sep_at_other (c : ascii) (t : str) :
  c <> ")"%char -> sep_at (c :: t) = None.
Proof.
  intros Hc. apply chr_eqb_neq in Hc. unfold sep_at.
  destruct t as [|c2 t]; [reflexivity|]. rewrite Hc. reflexivity.
Qed.

(** Text without a closing parenthesis goes to the current piece whole. *)
Lemma split_from_no_paren (a : str) :
  forall cur s,
    ~ In ")"%char a ->
    split_from 0 cur (a ++ s) = split_from 0 (cur ++ a) s.
Proof.
  induction a as [|c a IH]; intros cur s Ha.
  - rewrite app_nil_r. reflexivity.
  - cbn [app]. rewrite split_nomatch.
    + rewrite IH by (intros Hin; apply Ha; right; exact Hin).
      rewrite <- app_assoc. reflexivity.
    + apply sep_at_other. intros ->. apply Ha. left. reflexivity.
Qed.

Lemma drop_while_all (p : ascii -> bool) (w s : str) :
  forallb p w = true -> drop_while p (w ++ s) = drop_while p s.
Proof.
  induction w as [|c w IH]; simpl; [reflexivity|].
  intros H. apply andb_true_iff in H as [Hc Hw]. rewrite Hc. apply IH. exact Hw.
Qed.

Lemma sep_at_separator (w b : str) :
  forallb is_space w = true ->
  sep_at (")"%char :: ","%char :: w ++ "("%char :: b) = Some b.
Proof.
  intros Hw. unfold sep_at.
  change (chr_eqb ")"%char ")"%char && chr_eqb ","%char ","%char) with true.
  cbv iota. rewrite (drop_while_all _ _ _ Hw). reflexivity.
Qed.

(** X5: [split] cuts at a separator whatever stands before it, between quotes or
    not: when the text up to the first [),(] (blanks allowed after the comma)
    holds no closing parenthesis, that text is the first row and the rest is
    split in turn.  The character loop later sees each row on its own, so a
    quote opened in the first row is not closed in it. *)
Theorem split_cuts_at_separator (a w b : str) :
  ~ In ")"%char a ->
  forallb is_space w = true ->
  split (a ++ ")"%char :: ","%char :: w ++ "("%char :: b) = a :: split b.
Proof.
  intros Ha Hw. unfold split.
  rewrite (split_from_no_paren a [] _ Ha). cbn [app].
  apply split_match. apply sep_at_separator. exact Hw.
Qed.

Lemma split_cuts_at_separator_witness :
  split (lit "1,'a" ++ ")"%char :: ","%char :: [] ++ "("%char :: lit "b',2")
  = lit "1,'a" :: split (lit "b',2")
  /\ split (lit "1,'a),(b',2") = [lit "1,'a"; lit "b',2"].
Proof.
  split; [|vm_compute; reflexivity].
  apply (split_cuts_at_separator (lit "1,'a") [] (lit "b',2")).
  - vm_compute. intuition discriminate.
  - reflexivity.
Defined.

(** ** Reading back a dump

    [render_dump] writes rows of fields the way [mysqldump] does.  The lemmas
    below follow the parser over such a text: the statement pattern, the row
    separator, the stripping of the row and the character loop. *)

Lemma drop_while_head (p : ascii -> bool) (c : ascii) (s : str) :
  p c = false -> drop_while p (c :: s) = c :: s.
Proof. intros H. simpl. rewrite H. reflexivity. Qed.

(** Stripping leaves alone a string whose first and last characters stay. *)
Lemma strip_with_edges (p : ascii -> bool) (s m m' : str) (c d : ascii) :
  s = c :: m -> s = m' ++ [d] -> p c = false -> p d = false ->
  strip_with p s = s.
Proof.
  intros Hhead Hlast Hc Hd. unfold strip_with.
  rewrite Hhead at 1. rewrite (drop_while_head _ _ _ Hc), <- Hhead.
  rewrite Hlast at 1. rewrite rev_app_distr. cbn [rev app].
  rewrite (drop_while_head _ _ _ Hd).
  change (d :: rev m') with (rev [d] ++ rev m').
  rewrite <- rev_app_distr, rev_involutive. symmetry. exact Hlast.
Qed.

Lemma bare_char_spec (c : ascii) :
  bare_char c = true ->
  is_space c = false /\ is_paren c = false /\
  c <> "'"%char /\ c <> ","%char /\ c <> ")"%char /\ c <> ";"%char.
Proof.
  unfold bare_char, is_paren. intros H. apply negb_true_iff in H.
  apply orb_false_iff in H as [H H6]. apply orb_false_iff in H as [H H5].
  apply orb_false_iff in H as [H H4]. apply orb_false_iff in H as [H H3].
  apply orb_false_iff in H as [H1 H2].
  split; [exact H1|]. split; [rewrite H4, H5; reflexivity|].
  repeat split; apply chr_eqb_neq; assumption.
Qed.

Lemma quoted_char_spec (c : ascii) :
  quoted_char c = true -> c <> "'"%char /\ c <> ")"%char /\ c <> ";"%char.
Proof.
  unfold quoted_char. intros H. apply negb_true_iff in H.
  apply orb_false_iff in H as [H H3]. apply orb_false_iff in H as [H1 H2].
  repeat split; apply chr_eqb_neq; assumption.
Qed.

Lemma forallb_not_In (p : ascii -> bool) (x : ascii) (s : str) :
  (forall c, p c = true -> c <> x) -> forallb p s = true -> ~ In x s.
Proof.
  intros Hp Hs Hin. rewrite forallb_forall in Hs. exact (Hp x (Hs x Hin) eq_refl).
Qed.

Lemma exists_last_char (s : str) :
  s <> [] -> exists m d, s = m ++ [d] /\ In d s.
Proof.
  intros H. destruct (exists_last H) as (m & d & E). exists m, d.
  split; [exact E|]. rewrite E. apply in_or_app. right. left. reflexivity.
Qed.

(** Outside quotes, a character that is neither quote nor comma is added to
    the current value. *)
Lemma tok_loop_bare (s : str) :
  forall vs cur,
    ~ In "'"%char s -> ~ In ","%char s ->
    tok_loop {| values := vs; current_value := cur; in_quotes := false |} s
    = {| values := vs; current_value := cur ++ s; in_quotes := false |}.
Proof.
  induction s as [|c s IH]; intros vs cur Hq Hc.
  - rewrite app_nil_r. reflexivity.
  - unfold tok_loop. cbn [fold_left].
    assert (Hstep : tok_step {| values := vs; current_value := cur; in_quotes := false |} c
                    = {| values := vs; current_value := cur ++ [c]; in_quotes := false |}).
    { unfold tok_step. cbn [in_quotes values current_value negb].
      assert (E1 : chr_eqb c "'"%char = false)
        by (apply chr_eqb_neq; intros ->; apply Hq; left; reflexivity).
      assert (E2 : chr_eqb c ","%char = false)
        by (apply chr_eqb_neq; intros ->; apply Hc; left; reflexivity).
      rewrite E1, E2. reflexivity. }
    rewrite Hstep.
    fold (tok_loop {| values := vs; current_value := cur ++ [c]; in_quotes := false |} s).
    rewrite IH.
    + rewrite <- app_assoc. reflexivity.
    + intros Hin. apply Hq. right. exact Hin.
    + intros Hin. apply Hc. right. exact Hin.
Qed.

(** A quoted literal read from outside quotes adds its content to [values]. *)
Lemma tok_loop_quoted (st : tok_state) (content rest : str) :
  in_quotes st = false ->
  ~ In "'"%char content ->
  tok_loop st ("'"%char :: content ++ "'"%char :: rest)
  = tok_loop {| values := values st ++ [content]; current_value := [];
                in_quotes := false |} rest.
Proof.
  intros Hout Hq.
  change ("'"%char :: content ++ "'"%char :: rest)
    with (["'"%char] ++ content ++ ["'"%char] ++ rest).
  rewrite !tok_loop_app.
  change (tok_loop st ["'"%char]) with (tok_step st "'"%char).
  rewrite (tok_step_open st Hout), (tok_loop_inside content _ _ Hq).
  reflexivity.
Qed.

Lemma strip_bare (s : str) :
  s <> [] -> forallb bare_char s = true -> strip s = s.
Proof.
  intros Hne Hs. rewrite forallb_forall in Hs.
  destruct s as [|c m] eqn:E; [contradiction|]. rewrite <- E in *.
  destruct (exists_last_char s Hne) as (m' & d & Hlast & Hd).
  apply (strip_with_edges is_space s m m' c d); [exact E | exact Hlast | |].
  - apply bare_char_spec. apply Hs. rewrite E. left. reflexivity.
  - apply bare_char_spec. apply Hs. exact Hd.
Qed.

Lemma flush_nonblank (vs : list str) (s : str) :
  s <> [] -> strip s = s -> flush vs s = vs ++ [s].
Proof.
  intros Hne Hs. unfold flush. rewrite Hs. destruct s; [contradiction | reflexivity].
Qed.

Lemma flush_empty (vs : list str) : flush vs [] = vs.
Proof. reflexivity. Qed.

Lemma well_formed_bare (s : str) :
  well_formed (Bare s) = true -> s <> [] /\ forallb bare_char s = true.
Proof.
  unfold well_formed. intros H. apply andb_true_iff in H as [Hne Hs].
  split; [|exact Hs]. intros ->. discriminate.
Qed.

Lemma bare_no_quote (s : str) : forallb bare_char s = true -> ~ In "'"%char s.
Proof. apply forallb_not_In. intros c Hc. apply bare_char_spec. exact Hc. Qed.

Lemma bare_no_comma (s : str) : forallb bare_char s = true -> ~ In ","%char s.
Proof. apply forallb_not_In. intros c Hc. apply bare_char_spec. exact Hc. Qed.

Lemma quoted_no_quote (s : str) : forallb quoted_char s = true -> ~ In "'"%char s.
Proof. apply forallb_not_In. intros c Hc. apply quoted_char_spec. exact Hc. Qed.

Lemma tok_loop_cons (st : tok_state) (c : ascii) (r : str) :
  tok_loop st (c :: r) = tok_loop (tok_step st c) r.
Proof. reflexivity. Qed.

Lemma tok_step_comma (vs : list str) (cur : str) :
  tok_step {| values := vs; current_value := cur; in_quotes := false |} ","%char
  = {| values := flush vs cur; current_value := []; in_quotes := false |}.
Proof. reflexivity. Qed.

(** C5, as amended: from any state outside quotes, a quote, a content without
    quote character and the next quote add exactly one token to [values],
    the content unchanged, whatever commas it holds; the loop goes on after
    it outside quotes with an empty current value.  The next quote
    character ends the literal even when the dump escaped it: after a quote
    escaped by a backslash the literal is closed with the backslash as its
    last character, and the next comma is a delimiter, which adds what
    stands before it as a token of its own unless it is blank; a doubled
    quote cuts the literal into two tokens. *)
Theorem quoted_commas_stay_in_one_field :
  (forall (st : tok_state) (content rest : str),
      in_quotes st = false ->
      ~ In "'"%char content ->
      tok_loop st ("'"%char :: content ++ "'"%char :: rest)
      = tok_loop {| values := values st ++ [content]; current_value := [];
                    in_quotes := false |} rest) /\
  (forall (st : tok_state) (before after rest : str),
      in_quotes st = false ->
      ~ In "'"%char before ->
      ~ In "'"%char after -> ~ In ","%char after ->
      tok_loop st ("'"%char :: before ++ backslash :: "'"%char
                            :: after ++ ","%char :: rest)
      = tok_loop {| values := flush (values st ++ [before ++ [backslash]]) after;
                    current_value := []; in_quotes := false |} rest) /\
  (forall (st : tok_state) (before after rest : str),
      in_quotes st = false ->
      ~ In "'"%char before ->
      ~ In "'"%char after ->
      tok_loop st ("'"%char :: before ++ "'"%char :: "'"%char
                            :: after ++ "'"%char :: rest)
      = tok_loop {| values := values st ++ [before; after]; current_value := [];
                    in_quotes := false |} rest).
Proof.
  split; [|split].
  - intros st content rest Hout Hq. apply tok_loop_quoted; assumption.
  - intros st before after rest Hout Hb Ha Hc.
    replace ("'"%char :: before ++ backslash :: "'"%char :: after ++ ","%char :: rest)
      with ("'"%char :: (before ++ [backslash]) ++ "'"%char :: after ++ ","%char :: rest)
      by (rewrite <- app_assoc; reflexivity).
    rewrite tok_loop_quoted; [|exact Hout|].
    + rewrite tok_loop_app, (tok_loop_bare after _ _ Ha Hc).
      cbn [app]. rewrite tok_loop_cons, tok_step_comma. reflexivity.
    + intros Hin. apply in_app_or in Hin as [Hin|[E|[]]]; [exact (Hb Hin) | discriminate E].
  - intros st before after rest Hout Hb Ha.
    rewrite (tok_loop_quoted st before _ Hout Hb).
    rewrite tok_loop_quoted; [|reflexivity | exact Ha].
    cbn [values]. rewrite <- app_assoc. reflexivity.
Qed.

Lemma quoted_commas_stay_in_one_field_witness :
  (tok_loop (tok_loop tok_init (lit "7,"))
            ("'"%char :: lit "late, twice" ++ "'"%char :: lit ",3")
   = tok_loop {| values := values (tok_loop tok_init (lit "7,")) ++ [lit "late, twice"];
                 current_value := []; in_quotes := false |} (lit ",3")
   /\ tokenize (lit "7,'late, twice',3") = [lit "7"; lit "late, twice"; lit "3"]) /\
  (tok_loop (tok_loop tok_init (lit "1,"))
            ("'"%char :: lit "it" ++ backslash :: "'"%char
                      :: lit "s" ++ ","%char :: lit " ok',2")
   = tok_loop {| values := [lit "1"; lit "it" ++ [backslash]; lit "s"];
                 current_value := []; in_quotes := false |} (lit " ok',2")) /\
  (tok_loop (tok_loop tok_init (lit "1,"))
            ("'"%char :: lit "it" ++ "'"%char :: "'"%char
                      :: lit "s, ok" ++ "'"%char :: lit ",2")
   = tok_loop {| values := [lit "1"; lit "it"; lit "s, ok"];
                 current_value := []; in_quotes := false |} (lit ",2")).
Proof.
  destruct quoted_commas_stay_in_one_field as (Hquoted & Hbackslash & Hdoubled).
  split; [split; [|vm_compute; reflexivity] | split].
  - apply (Hquoted (tok_loop tok_init (lit "7,")) (lit "late, twice") (lit ",3")).
    + vm_compute. reflexivity.
    + vm_compute. intuition discriminate.
  - rewrite (Hbackslash (tok_loop tok_init (lit "1,")) (lit "it") (lit "s") (lit " ok',2")).
    + vm_compute. reflexivity.
    + vm_compute. reflexivity.
    + vm_compute. intuition discriminate.
    + vm_compute. intuition discriminate.
    + vm_compute. intuition discriminate.
  - rewrite (Hdoubled (tok_loop tok_init (lit "1,")) (lit "it") (lit "s, ok") (lit ",2")).
    + vm_compute. reflexivity.
    + vm_compute. reflexivity.
    + vm_compute. intuition discriminate.
    + vm_compute. intuition discriminate.
Defined.

(** C5, counterexample: a literal with an escaped quote.  After the quote
    escaped by a backslash the comma of the literal splits it, and the text
    between that comma and the next quote is lost; with a doubled quote the
    literal gives two tokens.  [row_escaped] is [row_a] with a backslash and
    a quote before the comma of its text field: the row has 61 tokens and
    the statement gives no record. *)
Lemma escaped_quote_splits_literal :
  tokenize (lit "1,'it\'s, ok',2")
  = [lit "1"; lit "it" ++ [backslash]; lit "s"; lit ",2"] /\
  tokenize (lit "1,'it''s, ok',2") = [lit "1"; lit "it"; lit "s, ok"; lit "2"] /\
  skipn 58 (row_tokens row_escaped)
  = [lit "late" ++ [backslash]; lit ","; lit ",0,1"] /\
  length (row_tokens row_escaped) = 61 /\
  parse_sql_insert_values sql_escaped = OK [].
Proof. repeat split; vm_compute; reflexivity. Qed.

(** A field followed by a comma, read from outside quotes with nothing
    pending: its value is added. *)
Lemma tok_loop_field_comma (f : field) (vs : list str) (rest : str) :
  well_formed f = true ->
  tok_loop {| values := vs; current_value := []; in_quotes := false |}
           (render_field f ++ ","%char :: rest)
  = tok_loop {| values := vs ++ [field_token f]; current_value := [];
                in_quotes := false |} rest.
Proof.
  intros Hwf. destruct f as [s|s]; cbn [render_field field_token].
  - apply well_formed_bare in Hwf as [Hne Hs].
    rewrite tok_loop_app, (tok_loop_bare s vs [] (bare_no_quote _ Hs) (bare_no_comma _ Hs)).
    cbn [app]. rewrite tok_loop_cons, tok_step_comma.
    rewrite (flush_nonblank vs s Hne (strip_bare s Hne Hs)). reflexivity.
  - cbn [well_formed] in Hwf.
    change (("'"%char :: s ++ ["'"%char]) ++ ","%char :: rest)
      with ("'"%char :: (s ++ ["'"%char]) ++ ","%char :: rest).
    rewrite <- app_assoc. cbn [app].
    rewrite (tok_loop_quoted
               {| values := vs; current_value := []; in_quotes := false |}
               s _ eq_refl (quoted_no_quote _ Hwf)).
    cbn [values]. rewrite tok_loop_cons, tok_step_comma, flush_empty. reflexivity.
Qed.

(** The last field of a row: its value is added when the loop is over. *)
Lemma tok_finish_field (f : field) (vs : list str) :
  well_formed f = true ->
  tok_finish (tok_loop {| values := vs; current_value := []; in_quotes := false |}
                       (render_field f))
  = vs ++ [field_token f].
Proof.
  intros Hwf. destruct f as [s|s]; cbn [render_field field_token].
  - apply well_formed_bare in Hwf as [Hne Hs].
    rewrite (tok_loop_bare s vs [] (bare_no_quote _ Hs) (bare_no_comma _ Hs)).
    unfold tok_finish. cbn [values current_value app].
    apply flush_nonblank; [exact Hne | apply strip_bare; assumption].
  - cbn [well_formed] in Hwf.
    rewrite (tok_loop_quoted
               {| values := vs; current_value := []; in_quotes := false |}
               s [] eq_refl (quoted_no_quote _ Hwf)). reflexivity.
Qed.

Lemma render_row_cons (f f' : field) (fs : list field) :
  render_row (f :: f' :: fs) = render_field f ++ ","%char :: render_row (f' :: fs).
Proof. reflexivity. Qed.

(** The character loop on a rendered row gives back the values of its
    fields. *)
Lemma tokenize_render_row (fs : list field) :
  forall vs,
    forallb well_formed fs = true ->
    tok_finish (tok_loop {| values := vs; current_value := []; in_quotes := false |}
                         (render_row fs))
    = vs ++ map field_token fs.
Proof.
  induction fs as [|f fs IH]; intros vs Hwf.
  - cbn [render_row map]. rewrite app_nil_r. reflexivity.
  - cbn [forallb] in Hwf. apply andb_true_iff in Hwf as [Hf Hfs].
    destruct fs as [|f' fs].
    + cbn [render_row map]. apply tok_finish_field. exact Hf.
    + rewrite render_row_cons, (tok_loop_field_comma f vs _ Hf), (IH _ Hfs).
      cbn [map]. rewrite <- app_assoc. reflexivity.
Qed.

Lemma well_formed_row_spec (fs : list field) :
  well_formed_row fs = true -> fs <> [] /\ forallb well_formed fs = true.
Proof.
  destruct fs as [|f fs]; [discriminate|]. intros H. split; [discriminate | exact H].
Qed.

Lemma render_field_head (f : field) :
  well_formed f = true ->
  exists c m, render_field f = c :: m /\ is_space c = false /\ is_paren c = false.
Proof.
  intros Hwf. destruct f as [s|s]; cbn [render_field].
  - apply well_formed_bare in Hwf as [Hne Hs]. destruct s as [|c m]; [contradiction|].
    cbn [forallb] in Hs. apply andb_true_iff in Hs as [Hc _].
    exists c, m. split; [reflexivity|]. apply bare_char_spec in Hc. tauto.
  - exists "'"%char, (s ++ ["'"%char]). repeat split.
Qed.

Lemma render_field_last (f : field) :
  well_formed f = true ->
  exists m d, render_field f = m ++ [d] /\ is_space d = false /\ is_paren d = false.
Proof.
  intros Hwf. destruct f as [s|s]; cbn [render_field].
  - apply well_formed_bare in Hwf as [Hne Hs].
    destruct (exists_last_char s Hne) as (m & d & E & Hd).
    rewrite forallb_forall in Hs. pose proof (bare_char_spec _ (Hs d Hd)) as Hb.
    exists m, d. split; [exact E | tauto].
  - exists ("'"%char :: s), "'"%char. repeat split.
Qed.

Lemma render_row_head (fs : list field) :
  fs <> [] -> forallb well_formed fs = true ->
  exists c m, render_row fs = c :: m /\ is_space c = false /\ is_paren c = false.
Proof.
  intros Hne Hwf. destruct fs as [|f fs]; [contradiction|].
  cbn [forallb] in Hwf. apply andb_true_iff in Hwf as [Hf _].
  destruct (render_field_head f Hf) as (c & m & E & Hc).
  destruct fs as [|f' fs].
  - exists c, m. split; [exact E | exact Hc].
  - rewrite render_row_cons, E. eexists c, _. split; [reflexivity | exact Hc].
Qed.

Lemma render_row_last (fs : list field) :
  fs <> [] -> forallb well_formed fs = true ->
  exists m d, render_row fs = m ++ [d] /\ is_space d = false /\ is_paren d = false.
Proof.
  induction fs as [|f fs IH]; intros Hne Hwf; [contradiction|].
  cbn [forallb] in Hwf. apply andb_true_iff in Hwf as [Hf Hfs].
  destruct fs as [|f' fs].
  - apply render_field_last. exact Hf.
  - destruct (IH ltac:(discriminate) Hfs) as (m & d & E & Hd).
    rewrite render_row_cons, E.
    exists (render_field f ++ ","%char :: m), d. split; [|exact Hd].
    rewrite <- app_assoc. reflexivity.
Qed.

(** Stripping blanks and parentheses leaves a rendered row as it is. *)
Lemma clean_render_row (fs : list field) :
  well_formed_row fs = true -> clean_row (render_row fs) = render_row fs.
Proof.
  intros H. apply well_formed_row_spec in H as [Hne Hwf].
  destruct (render_row_head fs Hne Hwf) as (c & m & Eh & Hc1 & Hc2).
  destruct (render_row_last fs Hne Hwf) as (m' & d & El & Hd1 & Hd2).
  unfold clean_row, strip, strip_parens.
  rewrite (strip_with_edges is_space _ m m' c d Eh El Hc1 Hd1).
  apply (strip_with_edges is_paren _ m m' c d Eh El Hc2 Hd2).
Qed.

Lemma row_tokens_render_row (fs : list field) :
  well_formed_row fs = true -> row_tokens (render_row fs) = map field_token fs.
Proof.
  intros H. unfold row_tokens. rewrite (clean_render_row fs H).
  apply well_formed_row_spec in H as [_ Hwf].
  unfold tokenize. apply (tokenize_render_row fs [] Hwf).
Qed.

(** No closing parenthesis and no semicolon in a rendered row. *)
Lemma render_field_chars (f : field) :
  well_formed f = true ->
  Forall (fun c => c <> ")"%char /\ c <> ";"%char) (render_field f).
Proof.
  intros Hwf. destruct f as [s|s]; cbn [render_field].
  - apply well_formed_bare in Hwf as [_ Hs]. rewrite forallb_forall in Hs.
    apply Forall_forall. intros c Hc. pose proof (bare_char_spec _ (Hs c Hc)). tauto.
  - cbn [well_formed] in Hwf. rewrite forallb_forall in Hwf.
    constructor; [split; discriminate|]. apply Forall_app. split.
    + apply Forall_forall. intros c Hc. pose proof (quoted_char_spec _ (Hwf c Hc)). tauto.
    + constructor; [split; discriminate | constructor].
Qed.

Lemma render_row_chars (fs : list field) :
  forallb well_formed fs = true ->
  Forall (fun c => c <> ")"%char /\ c <> ";"%char) (render_row fs).
Proof.
  induction fs as [|f fs IH]; intros Hwf; [constructor|].
  cbn [forallb] in Hwf. apply andb_true_iff in Hwf as [Hf Hfs].
  destruct fs as [|f' fs].
  - apply render_field_chars. exact Hf.
  - rewrite render_row_cons. apply Forall_app. split; [apply render_field_chars; exact Hf|].
    constructor; [split; discriminate | apply IH; exact Hfs].
Qed.

Lemma render_row_no_paren (fs : list field) :
  well_formed_row fs = true -> ~ In ")"%char (render_row fs).
Proof.
  intros H Hin. apply well_formed_row_spec in H as [_ Hwf].
  pose proof (render_row_chars fs Hwf) as HF. rewrite Forall_forall in HF.
  destruct (HF _ Hin) as [Hp _]. apply Hp. reflexivity.
Qed.

Lemma render_rows_cons (fs fs' : list field) (rows : list (list field)) :
  render_rows (fs :: fs' :: rows)
  = render_row fs ++ ")"%char :: ","%char :: [] ++ "("%char :: render_rows (fs' :: rows).
Proof. reflexivity. Qed.

Lemma split_whole (a : str) : ~ In ")"%char a -> split a = [a].
Proof.
  intros Ha. unfold split.
  rewrite <- (app_nil_r a) at 1. rewrite (split_from_no_paren a [] [] Ha). reflexivity.
Qed.

(** [split] gives back the rows of a rendered statement. *)
Lemma split_render_rows (rows : list (list field)) :
  rows <> [] -> forallb well_formed_row rows = true ->
  split (render_rows rows) = map render_row rows.
Proof.
  induction rows as [|fs rows IH]; intros Hne Hwf; [contradiction|].
  cbn [forallb] in Hwf. apply andb_true_iff in Hwf as [Hfs Hrows].
  destruct rows as [|fs' rows].
  - cbn [render_rows map]. apply split_whole. apply render_row_no_paren. exact Hfs.
  - rewrite render_rows_cons. unfold split.
    rewrite (split_from_no_paren _ [] _ (render_row_no_paren fs Hfs)). cbn [app].
    assert (Hsep : sep_at (")"%char :: ","%char :: "("%char :: render_rows (fs' :: rows))
                   = Some (render_rows (fs' :: rows)))
      by exact (sep_at_separator [] _ eq_refl).
    rewrite (split_match _ _ _ Hsep).
    cbn [map]. f_equal. apply (IH ltac:(discriminate) Hrows).
Qed.

Lemma render_rows_chars (rows : list (list field)) :
  forallb well_formed_row rows = true ->
  ~ In ";"%char (render_rows rows).
Proof.
  induction rows as [|fs rows IH]; intros Hwf; [intros []|].
  cbn [forallb] in Hwf. apply andb_true_iff in Hwf as [Hfs Hrows].
  assert (Hrow : ~ In ";"%char (render_row fs)).
  { apply well_formed_row_spec in Hfs as [_ Hfs].
    pose proof (render_row_chars fs Hfs) as HF. rewrite Forall_forall in HF.
    intros Hin. destruct (HF _ Hin) as [_ Hs]. apply Hs. reflexivity. }
  destruct rows as [|fs' rows]; [exact Hrow|].
  rewrite render_rows_cons. intros Hin. apply in_app_or in Hin as [Hin|Hin].
  - exact (Hrow Hin).
  - destruct Hin as [E|[E|[E|Hin]]]; try discriminate. exact (IH Hrows Hin).
Qed.

Lemma render_rows_nonempty (rows : list (list field)) :
  well_formed_statement rows = true -> render_rows rows <> [].
Proof.
  destruct rows as [|fs rows]; [discriminate|]. intros H.
  cbn [well_formed_statement forallb] in H. apply andb_true_iff in H as [Hfs _].
  apply well_formed_row_spec in Hfs as [Hne Hwf].
  destruct (render_row_head fs Hne Hwf) as (c & m & E & _).
  destruct rows as [|fs' rows].
  - cbn [render_rows]. rewrite E. discriminate.
  - rewrite render_rows_cons, E. discriminate.
Qed.

Lemma span_group_upto (x r : str) :
  ~ In ";"%char x -> span_group (x ++ ";"%char :: r) = (x, ";"%char :: r).
Proof.
  induction x as [|c x IH]; intros Hx; [reflexivity|].
  cbn [app span_group].
  assert (E : chr_eqb c ";"%char = false)
    by (apply chr_eqb_neq; intros ->; apply Hx; left; reflexivity).
  rewrite E, IH by (intros Hin; apply Hx; right; exact Hin). reflexivity.
Qed.

(** The tail of the pattern on [ (body);]. *)
Lemma match_tail_body (body rest : str) :
  body <> [] -> ~ In ";"%char body ->
  match_tail (" "%char :: "("%char :: body ++ ")"%char :: ";"%char :: rest)
  = Some (body, rest).
Proof.
  intros Hne Hns. unfold match_tail.
  change (drop_while is_space (" "%char :: "("%char :: body ++ ")"%char :: ";"%char :: rest))
    with ("("%char :: body ++ ")"%char :: ";"%char :: rest).
  change (chr_eqb "("%char "("%char) with true. cbv iota.
  replace (body ++ ")"%char :: ";"%char :: rest)
    with ((body ++ [")"%char]) ++ ";"%char :: rest)
    by (rewrite <- app_assoc; reflexivity).
  rewrite span_group_upto.
  - rewrite rev_app_distr. cbn [rev app].
    change (chr_eqb ")"%char ")"%char) with true. cbv iota.
    destruct (rev body) as [|x g_rev] eqn:E.
    + exfalso. apply Hne. rewrite <- (rev_involutive body), E. reflexivity.
    + rewrite <- E, rev_involutive. reflexivity.
  - intros Hin. apply in_app_or in Hin as [Hin|[E|[]]]; [exact (Hns Hin) | discriminate].
Qed.

Lemma match_at_statement (rows : list (list field)) (rest : str) :
  well_formed_statement rows = true ->
  match_at (render_statement rows ++ rest) = Some (render_rows rows, rest).
Proof.
  intros Hwf. unfold match_at, render_statement.
  assert (Hp : after_prefix insert_prefix
                 ((insert_prefix ++ lit " VALUES (" ++ render_rows rows ++ lit ");") ++ rest)
               = Some (lit " VALUES (" ++ render_rows rows ++ lit ");" ++ rest)).
  { apply after_prefix_app. rewrite <- !app_assoc. reflexivity. }
  rewrite Hp.
  change (lit " VALUES (" ++ render_rows rows ++ lit ");" ++ rest)
    with (" "%char :: values_kw ++ " "%char :: "("%char
          :: render_rows rows ++ ")"%char :: ";"%char :: rest).
  cbn [match_lazy].
  change (match_values (" "%char :: values_kw ++ " "%char :: "("%char
                        :: render_rows rows ++ ")"%char :: ";"%char :: rest))
    with (@None (str * str)).
  cbv iota.
  assert (Hv : match_values (values_kw ++ " "%char :: "("%char
                             :: render_rows rows ++ ")"%char :: ";"%char :: rest)
               = Some (render_rows rows, rest)).
  { unfold match_values.
    assert (Ha : after_prefix values_kw
                   (values_kw ++ " "%char :: "("%char
                    :: render_rows rows ++ ")"%char :: ";"%char :: rest)
                 = Some (" "%char :: "("%char
                         :: render_rows rows ++ ")"%char :: ";"%char :: rest))
      by (apply after_prefix_app; reflexivity).
    rewrite Ha. apply match_tail_body.
    - apply render_rows_nonempty. exact Hwf.
    - apply render_rows_chars. destruct rows; [discriminate | exact Hwf]. }
  destruct (values_kw ++ " "%char :: "("%char
            :: render_rows rows ++ ")"%char :: ";"%char :: rest) as [|c t] eqn:E;
    [discriminate Hv|].
  cbn [match_lazy]. rewrite Hv. reflexivity.
Qed.

Lemma findall_statement (rows : list (list field)) (rest : str) :
  well_formed_statement rows = true ->
  findall (render_statement rows ++ rest) = render_rows rows :: findall rest.
Proof.
  intros Hwf. apply findall_match. apply match_at_statement. exact Hwf.
Qed.

Lemma findall_newline (t : str) : findall (ascii_of_nat 10 :: t) = findall t.
Proof. apply findall_nomatch. reflexivity. Qed.

Lemma findall_render_dump (stmts : list (list (list field))) :
  forallb well_formed_statement stmts = true ->
  findall (render_dump stmts) = map render_rows stmts.
Proof.
  induction stmts as [|rows stmts IH]; intros Hwf; [reflexivity|].
  cbn [forallb] in Hwf. apply andb_true_iff in Hwf as [Hrows Hstmts].
  unfold render_dump. cbn [flat_map]. rewrite <- app_assoc.
  rewrite (findall_statement rows _ Hrows). cbn [app].
  rewrite findall_newline. cbn [map]. f_equal. apply IH. exact Hstmts.
Qed.

(** The rows the loops visit in a rendered dump are its rows. *)
Lemma all_rows_render_dump (stmts : list (list (list field))) :
  forallb well_formed_statement stmts = true ->
  all_rows (render_dump stmts) = map render_row (concat stmts).
Proof.
  intros Hwf. unfold all_rows. rewrite (findall_render_dump stmts Hwf).
  induction stmts as [|rows stmts IH]; [reflexivity|].
  cbn [forallb] in Hwf. apply andb_true_iff in Hwf as [Hrows Hstmts].
  cbn [map flat_map concat]. rewrite map_app, (IH Hstmts). f_equal.
  destruct rows as [|fs rows]; [discriminate|].
  apply split_render_rows; [discriminate | exact Hrows].
Qed.

Lemma process_rendered_row (acc : list record) (fs : list field) :
  well_formed_row fs = true ->
  process_row acc (render_row fs)
  = if Nat.eqb (length fs) 62 then
      rec <- build_record (map field_token fs) ;; OK (acc ++ [rec])
    else OK acc.
Proof.
  intros Hwf. unfold process_row. fold (row_tokens (render_row fs)).
  rewrite (row_tokens_render_row fs Hwf), length_map, COLUMNS_length. reflexivity.
Qed.

Lemma rows_records_rendered (rows : list (list field)) :
  forallb well_formed_row rows = true ->
  forall acc,
    for_each process_row (map render_row rows) acc
    = for_each (fun acc fs =>
                  if Nat.eqb (length fs) 62 then
                    rec <- build_record (map field_token fs) ;; OK (acc ++ [rec])
                  else OK acc) rows acc.
Proof.
  induction rows as [|fs rows IH]; intros Hwf acc; [reflexivity|].
  cbn [forallb] in Hwf. apply andb_true_iff in Hwf as [Hfs Hrows].
  cbn [map for_each]. rewrite (process_rendered_row acc fs Hfs).
  destruct (Nat.eqb (length fs) 62).
  - destruct (build_record (map field_token fs)); cbn [bind]; [apply IH; exact Hrows | reflexivity].
  - cbn [bind]. apply IH. exact Hrows.
Qed.

Lemma well_formed_rows_concat (stmts : list (list (list field))) :
  forallb well_formed_statement stmts = true ->
  forallb well_formed_row (concat stmts) = true.
Proof.
  induction stmts as [|rows stmts IH]; intros Hwf; [reflexivity|].
  cbn [forallb] in Hwf. apply andb_true_iff in Hwf as [Hrows Hstmts].
  cbn [concat]. rewrite forallb_app, (IH Hstmts), andb_true_r.
  destruct rows; [discriminate | exact Hrows].
Qed.

(** X6: Reading back a dump: for statements of one or more rows, each row of one
    or more fields, a field being bare (not empty, without blank, quote,
    comma, parenthesis or semicolon) or quoted (without quote, closing
    parenthesis or semicolon), [parse_sql_insert_values] on the text of the
    dump does what the row loop does on the field values themselves: a row of
    62 fields gives the record built from its values, any other row is
    skipped, in the order of the dump. *)
Theorem parse_reads_back_dump (stmts : list (list (list field))) :
  forallb well_formed_statement stmts = true ->
  parse_sql_insert_values (render_dump stmts) = records_of_fields (concat stmts).
Proof.
  intros Hwf. rewrite parse_flat. unfold rows_records, records_of_fields.
  rewrite (all_rows_render_dump stmts Hwf).
  apply rows_records_rendered. apply well_formed_rows_concat. exact Hwf.
Qed.

Lemma parse_reads_back_dump_witness :
  render_dump dump_good
  = insert_of [row_a; row_short] ++ [ascii_of_nat 10]
    ++ insert_of [row_b] ++ [ascii_of_nat 10]
  /\ parse_sql_insert_values (render_dump dump_good)
     = records_of_fields [fields_a; fields_short; fields_b]
  /\ exists rec_a rec_b, records_of_fields [fields_a; fields_short; fields_b]
                         = OK [rec_a; rec_b].
Proof.
  split; [vm_compute; reflexivity|]. split.
  - apply (parse_reads_back_dump dump_good). vm_compute. reflexivity.
  - vm_compute. eexists _, _. reflexivity.
Defined.

(** X7: The tokens of a row written field by field are the values of the
    fields, the content of a quoted field being kept whole, blanks and
    commas included. *)
Theorem row_tokens_are_field_values (fs : list field) :
  well_formed_row fs = true ->
  row_tokens (render_row fs) = map field_token fs.
Proof.
  intros H. unfold row_tokens. rewrite (clean_render_row fs H).
  apply well_formed_row_spec in H as [_ Hwf].
  exact (tokenize_render_row fs [] Hwf).
Qed.

Lemma row_tokens_are_field_values_witness :
  render_row fields_a = row_a /\
  row_tokens (render_row fields_a) = map field_token fields_a.
Proof.
  split; [vm_compute; reflexivity|].
  apply (row_tokens_are_field_values fields_a). vm_compute. reflexivity.
Defined.

(** ** The writers on records that are not of the schema *)









(** ** Sets of values, [min] and [max] *)

Lemma value_eqb_eq (a b : value) : value_eqb a b = true <-> a = b.
Proof.
  destruct a as [|x|x], b as [|y|y]; simpl; split; try discriminate; try reflexivity.
  - intros H. apply Z.eqb_eq in H. congruence.
  - intros H. injection H as ->. apply Z.eqb_refl.
  - intros H. apply str_eqb_eq in H. congruence.
  - intros H. injection H as ->. apply str_eqb_refl.
Qed.

Lemma py_set_In (xs : list value) (x : value) : In x (py_set xs) <-> In x xs.
Proof.
  induction xs as [|y xs IH]; [reflexivity|].
  cbn [py_set]. split.
  - intros [->|H]; [left; reflexivity|].
    apply filter_In in H as [H _]. right. apply IH. exact H.
  - intros [->|H]; [left; reflexivity|].
    destruct (value_eqb y x) eqn:E.
    + apply value_eqb_eq in E. left. exact E.
    + right. apply filter_In. split; [apply IH; exact H | rewrite E; reflexivity].
Qed.

Lemma py_set_NoDup (xs : list value) : NoDup (py_set xs).
Proof.
  induction xs as [|y xs IH]; [constructor|].
  cbn [py_set]. constructor.
  - intros H. apply filter_In in H as [_ H].
    assert (E : value_eqb y y = true) by (apply value_eqb_eq; reflexivity).
    rewrite E in H. discriminate.
  - apply NoDup_filter. exact IH.
Qed.

Lemma value_lt_raise (a b : value) (e : exn) : value_lt a b = Raise e -> e = TypeError.
Proof. destruct a, b; simpl; intros H; congruence. Qed.

(** Once [None] is met, [min] and [max] raise [TypeError]. *)
Lemma min_loop_none (t : list value) :
  forall cur,
    In VNone t ->
    for_each (fun cur item => b <- value_lt item cur ;; OK (if b then item else cur)) t cur
    = Raise TypeError.
Proof.
  induction t as [|item t IH]; intros cur Hin; [contradiction|].
  cbn [for_each]. destruct (value_lt item cur) as [b|e] eqn:E; cbn [bind].
  - destruct Hin as [->|Hin]; [discriminate E|]. apply IH. exact Hin.
  - apply value_lt_raise in E. subst. reflexivity.
Qed.

Lemma py_min_mixed (xs : list value) (y : value) :
  In VNone xs -> In y xs -> y <> VNone -> py_min xs = Raise TypeError.
Proof.
  intros Hn Hy Hne. destruct xs as [|x t]; [contradiction|]. cbn [py_min].
  destruct Hn as [->|Hn]; [|apply min_loop_none; exact Hn].
  destruct Hy as [<-|Hy]; [contradiction|].
  destruct t as [|item t]; [contradiction|]. cbn [for_each].
  destruct item; reflexivity.
Qed.

Lemma min_loop_ints (t : list value) :
  forall z,
    forallb is_int_value t = true ->
    exists m,
      for_each (fun cur item => b <- value_lt item cur ;; OK (if b then item else cur))
               t (VInt z) = OK (VInt m) /\
      (m <= z)%Z /\ (forall w, In (VInt w) t -> (m <= w)%Z) /\
      (m = z \/ In (VInt m) t).
Proof.
  induction t as [|item t IH]; intros z Hint.
  - exists z. split; [reflexivity|]. split; [lia|]. split; [intros w []|left; reflexivity].
  - cbn [forallb] in Hint. apply andb_true_iff in Hint as [Hi Ht].
    destruct item as [|w|s]; try discriminate. cbn [for_each value_lt bind].
    destruct (Z.ltb w z) eqn:E.
    + apply Z.ltb_lt in E. destruct (IH w Ht) as (m & Hm & Hle & Hall & Hin).
      exists m. split; [exact Hm|]. split; [lia|]. split.
      * intros w' [H|H]; [injection H as <-; exact Hle | apply Hall; exact H].
      * right. destruct Hin as [->|Hin]; [left; reflexivity | right; exact Hin].
    + apply Z.ltb_ge in E. destruct (IH z Ht) as (m & Hm & Hle & Hall & Hin).
      exists m. split; [exact Hm|]. split; [exact Hle|]. split.
      * intros w' [H|H]; [injection H as <-; lia | apply Hall; exact H].
      * destruct Hin as [->|Hin]; [left; reflexivity | right; right; exact Hin].
Qed.

Lemma max_loop_ints (t : list value) :
  forall z,
    forallb is_int_value t = true ->
    exists m,
      for_each (fun cur item => b <- value_lt cur item ;; OK (if b then item else cur))
               t (VInt z) = OK (VInt m) /\
      (z <= m)%Z /\ (forall w, In (VInt w) t -> (w <= m)%Z) /\
      (m = z \/ In (VInt m) t).
Proof.
  induction t as [|item t IH]; intros z Hint.
  - exists z. split; [reflexivity|]. split; [lia|]. split; [intros w []|left; reflexivity].
  - cbn [forallb] in Hint. apply andb_true_iff in Hint as [Hi Ht].
    destruct item as [|w|s]; try discriminate. cbn [for_each value_lt bind].
    destruct (Z.ltb z w) eqn:E.
    + apply Z.ltb_lt in E. destruct (IH w Ht) as (m & Hm & Hle & Hall & Hin).
      exists m. split; [exact Hm|]. split; [lia|]. split.
      * intros w' [H|H]; [injection H as <-; exact Hle | apply Hall; exact H].
      * right. destruct Hin as [->|Hin]; [left; reflexivity | right; exact Hin].
    + apply Z.ltb_ge in E. destruct (IH z Ht) as (m & Hm & Hle & Hall & Hin).
      exists m. split; [exact Hm|]. split; [exact Hle|]. split.
      * intros w' [H|H]; [injection H as <-; lia | apply Hall; exact H].
      * destruct Hin as [->|Hin]; [left; reflexivity | right; right; exact Hin].
Qed.

(** On integers, [min] and [max] return the least and the greatest. *)
Lemma py_min_ints (xs : list value) :
  xs <> [] -> forallb is_int_value xs = true ->
  exists m, py_min xs = OK (VInt m) /\ In (VInt m) xs /\
            forall w, In (VInt w) xs -> (m <= w)%Z.
Proof.
  intros Hne Hint. destruct xs as [|x t]; [contradiction|].
  cbn [forallb] in Hint. apply andb_true_iff in Hint as [Hx Ht].
  destruct x as [|z|s]; try discriminate. cbn [py_min].
  destruct (min_loop_ints t z Ht) as (m & Hm & Hle & Hall & Hin).
  exists m. split; [exact Hm|]. split.
  - destruct Hin as [->|Hin]; [left; reflexivity | right; exact Hin].
  - intros w [H|H]; [injection H as <-; exact Hle | apply Hall; exact H].
Qed.

Lemma py_max_ints (xs : list value) :
  xs <> [] -> forallb is_int_value xs = true ->
  exists m, py_max xs = OK (VInt m) /\ In (VInt m) xs /\
            forall w, In (VInt w) xs -> (w <= m)%Z.
Proof.
  intros Hne Hint. destruct xs as [|x t]; [contradiction|].
  cbn [forallb] in Hint. apply andb_true_iff in Hint as [Hx Ht].
  destruct x as [|z|s]; try discriminate. cbn [py_max].
  destruct (max_loop_ints t z Ht) as (m & Hm & Hle & Hall & Hin).
  exists m. split; [exact Hm|]. split.
  - destruct Hin as [->|Hin]; [left; reflexivity | right; exact Hin].
  - intros w [H|H]; [injection H as <-; exact Hle | apply Hall; exact H].
Qed.

Lemma column_loop (k : str) (records : list record) :
  forall acc,
    Forall (fun r => dict_mem r k = true) records ->
    for_each (fun acc r => v <- getitem r k ;; OK (acc ++ [v])) records acc
    = OK (acc ++ column_values k records).
Proof.
  induction records as [|r records IH]; intros acc HF.
  - cbn [for_each column_values flat_map]. rewrite app_nil_r. reflexivity.
  - inversion HF as [|? ? Hr HF']; subst. cbn [for_each].
    unfold getitem, dict_mem in *. unfold column_values. cbn [flat_map].
    destruct (dict_get r k) as [v|]; [|discriminate]. cbn [bind].
    rewrite (IH _ HF'). rewrite <- app_assoc. reflexivity.
Qed.

(** [set(r[k] for r in records)] when every record has the key. *)
Lemma column_set_values (k : str) (records : list record) :
  Forall (fun r => dict_mem r k = true) records ->
  column_set k records = OK (py_set (column_values k records)).
Proof.
  intros HF. unfold column_set. rewrite (column_loop k records [] HF). reflexivity.
Qed.

Lemma column_values_In (k : str) (records : list record) (v : value) :
  In v (column_values k records) <-> exists r, In r records /\ dict_get r k = Some v.
Proof.
  unfold column_values. rewrite in_flat_map. split.
  - intros (r & Hr & Hv). exists r. split; [exact Hr|].
    destruct (dict_get r k) as [v'|]; [|contradiction].
    destruct Hv as [->|[]]. reflexivity.
  - intros (r & Hr & Hv). exists r. split; [exact Hr|]. rewrite Hv. left. reflexivity.
Qed.

Lemma schema_records_have (k : str) (records : list record) :
  In k COLUMNS ->
  Forall (fun r => keys r = COLUMNS) records ->
  Forall (fun r => dict_mem r k = true) records.
Proof.
  intros Hk HF. eapply Forall_impl; [|exact HF].
  intros r Hr. apply dict_mem_In. rewrite Hr. exact Hk.
Qed.

Lemma NoDup_map_inj_on {A B} (f : A -> B) (l : list A) :
  NoDup l ->
  (forall a b, In a l -> In b l -> f a = f b -> a = b) ->
  NoDup (map f l).
Proof.
  intros Hnd Hinj. induction Hnd as [|x xs Hx Hnd IH]; simpl; constructor.
  - intros Hin. apply in_map_iff in Hin as (y & Hy & Hin).
    assert (y = x) by (apply Hinj; [right; exact Hin | left; reflexivity | exact Hy]).
    subst. contradiction.
  - apply IH. intros a b Ha Hb. apply Hinj; right; assumption.
Qed.

(** The values of [cd_cooperativa] in parsed records are integers or null. *)
Lemma parsed_cooperativa_values (sql_content : str) (records : list record) (v : value) :
  parse_sql_insert_values sql_content = OK records ->
  In v (column_values (lit "cd_cooperativa") records) -> int_or_null v.
Proof.
  intros Hp Hv. apply column_values_In in Hv as (r & Hr & Hget).
  assert (Hcol : In (lit "cd_cooperativa") COLUMNS) by (vm_compute; tauto).
  destruct (parsed_field _ _ _ _ Hp Hr Hcol) as (val & v' & Hc & Hget').
  assert (v' = v) by congruence. subst v'.
  eapply convert_int_column; [|exact Hc]. vm_compute. reflexivity.
Qed.

(** The number of groups is the number of distinct values of
    [cd_cooperativa]. *)
Lemma groups_count_distinct_values
      (sql_content : str) (records : list record) (by_cooperativa : dict (list record)) :
  parse_sql_insert_values sql_content = OK records ->
  grouped records by_cooperativa ->
  length by_cooperativa
  = length (py_set (column_values (lit "cd_cooperativa") records)).
Proof.
  intros Hp (Hnd & Hg & Hk & _).
  assert (Hvs : forall v, In v (py_set (column_values (lit "cd_cooperativa") records)) ->
                          int_or_null v).
  { intros v Hv. apply (proj1 (py_set_In _ _)) in Hv.
    eapply parsed_cooperativa_values; eassumption. }
  assert (Hperm : Permutation (keys by_cooperativa)
                    (map key_of_value
                       (py_set (column_values (lit "cd_cooperativa") records)))).
  { apply NoDup_Permutation.
    - exact Hnd.
    - apply NoDup_map_inj_on; [apply py_set_NoDup|].
      intros x y Hx Hy E. unfold key_of_value in E. apply app_inv_head in E.
      apply format_value_inj; auto.
    - intros k. split.
      + intros Hin. apply in_map_iff in Hin as ([k0 g] & E & Hin). simpl in E. subst k0.
        destruct (Hg k g Hin) as [Hne Hf]. destruct g as [|r g]; [contradiction|].
        assert (Hr : In r (filter (has_coop_key k) records)) by (rewrite <- Hf; left; reflexivity).
        apply filter_In in Hr as [Hr Hkey]. apply has_coop_key_iff in Hkey.
        unfold coop_key_of in Hkey.
        destruct (dict_get r (lit "cd_cooperativa")) as [v|] eqn:Hv; [|discriminate].
        injection Hkey as <-. apply in_map_iff. exists v. split; [reflexivity|].
        apply (proj2 (py_set_In _ _)). apply column_values_In. exists r. split; assumption.
      + intros Hin. apply in_map_iff in Hin as (v & <- & Hv).
        apply (proj1 (py_set_In _ _)) in Hv.
        apply column_values_In in Hv as (r & Hr & Hget).
        destruct (Hk r Hr) as (k & Hkey & Hin). unfold coop_key_of in Hkey.
        rewrite Hget in Hkey. injection Hkey as <-. exact Hin. }
  apply Permutation_length in Hperm. unfold keys in Hperm.
  rewrite !length_map in Hperm. exact Hperm.
Qed.

(** X10: For the records parsed from any text, the [total_cooperativas] written
    in the consolidated JSON is the number of distinct values of
    [cd_cooperativa] among the records, null counting as one value: the
    size of the set [main] prints in its statistics. *)
Theorem total_cooperativas_counts_distinct_values
        (sql_content : str) (records : list record) (output_path : path) :
  parse_sql_insert_values sql_content = OK records ->
  column_set (lit "cd_cooperativa") records
  = OK (py_set (column_values (lit "cd_cooperativa") records)) /\
  total_cooperativas_written (fst (save_to_json records output_path))
  = [length (py_set (column_values (lit "cd_cooperativa") records))].
Proof.
  intros Hp. split.
  - apply column_set_values. apply schema_records_have; [vm_compute; tauto|].
    apply (parsed_records_have_key _ _ Hp).
  - destruct (parsed_records_grouped _ _ Hp) as (by0 & Hby & Hgr).
    rewrite (save_to_json_trace _ _ output_path Hby Hgr). cbn [fst].
    rewrite <- (groups_count_distinct_values _ _ _ Hp Hgr).
    unfold total_cooperativas_written. cbn [flat_map app]. f_equal.
    clear. induction by0 as [|[k g] by0 IH]; [reflexivity|]. exact IH.
Qed.

Lemma total_cooperativas_counts_distinct_values_witness :
  py_set (column_values (lit "cd_cooperativa") records_good) = [VInt 3; VInt 4] /\
  total_cooperativas_written (fst (save_to_json records_good [lit "out.json"])) = [2].
Proof.
  assert (E : py_set (column_values (lit "cd_cooperativa") records_good) = [VInt 3; VInt 4])
    by (vm_compute; reflexivity).
  destruct (total_cooperativas_counts_distinct_values sql_good records_good
              [lit "out.json"] parse_sql_good) as [_ H].
  rewrite E in H. split; [exact E | exact H].
Defined.

(** ** [main] on a file that is read *)

(** What [main] prints and reads before it parses. *)
Lemma main_parse_raises (sql_content : str) (e : exn) :
  parse_sql_insert_values sql_content = Raise e ->
  main (Some sql_content)
  = ([EPrint MRule; EPrint MTitle; EPrint MRule; EPrint MReading; ERead sql_file;
      EPrint (MFileRead (length sql_content)); EPrint MExtracting], Raise e).
Proof. intros H. unfold main. rewrite H. reflexivity. Qed.

(** X11: A row of 62 tokens with a token [int] refuses stops the whole run:
    [main] raises [ValueError] after reading the file; it prints no count,
    writes no file and does not print its closing rule, whatever the other
    rows hold. *)
Theorem main_stops_on_untypable_row (sql_content : str) :
  existsb row_raises (all_rows sql_content) = true ->
  main (Some sql_content)
  = ([EPrint MRule; EPrint MTitle; EPrint MRule; EPrint MReading; ERead sql_file;
      EPrint (MFileRead (length sql_content)); EPrint MExtracting], Raise ValueError)
  /\ paths_written (fst (main (Some sql_content))) = [].
Proof.
  intros H.
  assert (Hp : parse_sql_insert_values sql_content = Raise ValueError).
  { rewrite parse_flat. apply rows_raise. exact H. }
  rewrite (main_parse_raises _ _ Hp). split; reflexivity.
Qed.

Lemma main_stops_on_untypable_row_witness :
  snd (main (Some sql_null)) = Raise ValueError /\
  paths_written (fst (main (Some sql_null))) = [].
Proof.
  destruct (main_stops_on_untypable_row sql_null) as [H1 H2];
    [vm_compute; reflexivity|].
  rewrite H1 in *. split; [reflexivity | exact H2].
Defined.

Lemma parsed_column_set (sql_content : str) (records : list record) (k : str) :
  parse_sql_insert_values sql_content = OK records ->
  In k COLUMNS ->
  column_set k records = OK (py_set (column_values k records)).
Proof.
  intros Hp Hk. apply column_set_values. apply schema_records_have; [exact Hk|].
  apply (parsed_records_have_key _ _ Hp).
Qed.

(** X12: When the parsed records hold a null [cd_cooperativa] and an integer one,
    [main] raises [TypeError] on [min(cooperativas)]: it has printed the
    count of records and the heading of the statistics, and has written no
    file. *)
Theorem main_raises_on_mixed_cooperativa
        (sql_content : str) (records : list record) (r1 r2 : record) (z : Z) :
  parse_sql_insert_values sql_content = OK records ->
  In r1 records -> In r2 records ->
  dict_get r1 (lit "cd_cooperativa") = Some VNone ->
  dict_get r2 (lit "cd_cooperativa") = Some (VInt z) ->
  main (Some sql_content)
  = ([EPrint MRule; EPrint MTitle; EPrint MRule; EPrint MReading; ERead sql_file;
      EPrint (MFileRead (length sql_content)); EPrint MExtracting;
      EPrint (MExtracted (length records)); EPrint MStatistics], Raise TypeError).
Proof.
  intros Hp H1 H2 Hn Hz.
  assert (Hcoop := parsed_column_set _ _ (lit "cd_cooperativa") Hp ltac:(vm_compute; tauto)).
  assert (Hano := parsed_column_set _ _ (lit "ano") Hp ltac:(vm_compute; tauto)).
  assert (Hmin : py_min (py_set (column_values (lit "cd_cooperativa") records))
                 = Raise TypeError).
  { apply (py_min_mixed _ (VInt z)); [| |discriminate].
    - apply (proj2 (py_set_In _ _)). apply column_values_In. exists r1. split; assumption.
    - apply (proj2 (py_set_In _ _)). apply column_values_In. exists r2. split; assumption. }
  destruct records as [|r rs]; [contradiction|].
  unfold main. rewrite Hp. unfold lift, print, emit. cbn [io_bind app].
  rewrite Hcoop. cbn [io_bind app]. rewrite Hano. cbn [io_bind app].
  rewrite Hmin. reflexivity.
Qed.

Lemma main_raises_on_mixed_cooperativa_witness :
  snd (main (Some sql_mixed)) = Raise TypeError /\
  paths_written (fst (main (Some sql_mixed))) = [].
Proof.
  destruct (parse_sql_insert_values sql_mixed) as [records|e] eqn:Hp;
    [|vm_compute in Hp; discriminate Hp].
  assert (Hv : parse_sql_insert_values sql_mixed = OK records) by exact Hp.
  vm_compute in Hv. injection Hv as Hv.
  destruct records as [|r1 [|r2 rs]]; try discriminate Hv.
  injection Hv as Hr1 Hr2 Hrs.
  rewrite (main_raises_on_mixed_cooperativa sql_mixed (r1 :: r2 :: rs) r1 r2 4 Hp).
  - split; reflexivity.
  - left. reflexivity.
  - right. left. reflexivity.
  - rewrite <- Hr1. vm_compute. reflexivity.
  - rewrite <- Hr2. vm_compute. reflexivity.
Defined.

Lemma py_set_ints (xs : list value) :
  forallb is_int_value xs = true -> forallb is_int_value (py_set xs) = true.
Proof.
  intros H. rewrite forallb_forall in *. intros v Hv. apply H.
  apply (proj1 (py_set_In _ _)). exact Hv.
Qed.

Lemma py_set_nonempty (xs : list value) : xs <> [] -> py_set xs <> [].
Proof. destruct xs; [contradiction | discriminate]. Qed.

Lemma column_values_nonempty (k : str) (r : record) (rs : list record) :
  dict_mem r k = true -> column_values k (r :: rs) <> [].
Proof.
  unfold dict_mem, column_values. cbn [flat_map].
  destruct (dict_get r k); [discriminate | discriminate].
Qed.

(** The whole run of [main] on a file whose records hold integers in
    [cd_cooperativa] and in [ano]. *)
Lemma main_trace_ints (sql_content : str) (records : list record) :
  parse_sql_insert_values sql_content = OK records ->
  records <> [] ->
  forallb is_int_value (column_values (lit "cd_cooperativa") records) = true ->
  forallb is_int_value (column_values (lit "ano") records) = true ->
  exists by_cooperativa lo hi lo' hi',
    group_records records = OK by_cooperativa /\
    py_min (py_set (column_values (lit "cd_cooperativa") records)) = OK (VInt lo) /\
    py_max (py_set (column_values (lit "cd_cooperativa") records)) = OK (VInt hi) /\
    py_min (py_set (column_values (lit "ano") records)) = OK (VInt lo') /\
    py_max (py_set (column_values (lit "ano") records)) = OK (VInt hi') /\
    main (Some sql_content)
    = ([EPrint MRule; EPrint MTitle; EPrint MRule; EPrint MReading; ERead sql_file;
        EPrint (MFileRead (length sql_content)); EPrint MExtracting;
        EPrint (MExtracted (length records)); EPrint MStatistics;
        EPrint (MCooperativas (length by_cooperativa) (VInt lo) (VInt hi));
        EPrint (MPeriodo (VInt lo') (VInt hi'));
        EPrint (MTotal (length records)); EPrint MSaving;
        EWrite json_path
          (JsonConsolidated (length records) (length by_cooperativa)
             (lit "grc-web.sql") (lit "2025-10-23") records);
        EPrint (MJsonSaved json_path)]
       ++ flat_map (coop_events json_path) by_cooperativa
       ++ [EWrite csv_path (Csv (COLUMNS :: map csv_row records));
           EPrint (MCsvSaved csv_path); EPrint MDone; EPrint MLastRule], OK tt).
Proof.
  intros Hp Hne Hc Ha.
  assert (Hcoop := parsed_column_set _ _ (lit "cd_cooperativa") Hp ltac:(vm_compute; tauto)).
  assert (Hano := parsed_column_set _ _ (lit "ano") Hp ltac:(vm_compute; tauto)).
  destruct (parsed_records_grouped _ _ Hp) as (by0 & Hby & Hgr).
  pose proof (parsed_records_have_key _ _ Hp) as Hkeys.
  destruct records as [|r rs]; [contradiction|].
  assert (Hc1 : py_set (column_values (lit "cd_cooperativa") (r :: rs)) <> []).
  { apply py_set_nonempty, column_values_nonempty.
    inversion Hkeys as [|? ? Hr _]; subst. apply dict_mem_In. rewrite Hr. vm_compute. tauto. }
  assert (Ha1 : py_set (column_values (lit "ano") (r :: rs)) <> []).
  { apply py_set_nonempty, column_values_nonempty.
    inversion Hkeys as [|? ? Hr _]; subst. apply dict_mem_In. rewrite Hr. vm_compute. tauto. }
  destruct (py_min_ints _ Hc1 (py_set_ints _ Hc)) as (lo & Hlo & _).
  destruct (py_max_ints _ Hc1 (py_set_ints _ Hc)) as (hi & Hhi & _).
  destruct (py_min_ints _ Ha1 (py_set_ints _ Ha)) as (lo' & Hlo' & _).
  destruct (py_max_ints _ Ha1 (py_set_ints _ Ha)) as (hi' & Hhi' & _).
  exists by0, lo, hi, lo', hi'.
  split; [exact Hby|]. split; [exact Hlo|]. split; [exact Hhi|].
  split; [exact Hlo'|]. split; [exact Hhi'|].
  unfold main. rewrite Hp. unfold lift, print, emit. cbn [io_bind app].
  rewrite Hcoop. cbn [io_bind app]. rewrite Hano. cbn [io_bind app].
  rewrite Hlo. cbn [io_bind app]. rewrite Hhi. cbn [io_bind app].
  rewrite Hlo'. cbn [io_bind app]. rewrite Hhi'. cbn [io_bind app].
  fold json_path csv_path.
  rewrite (save_to_json_trace _ _ json_path Hby Hgr).
  rewrite (save_to_csv_trace _ csv_path Hkeys).
  cbn [io_bind app]. rewrite <- (groups_count_distinct_values _ _ _ Hp Hgr).
  rewrite <- !app_assoc. reflexivity.
Qed.

Lemma paths_of_coop_events (output_path : path) (items : dict (list record)) :
  paths_written (flat_map (coop_events output_path) items)
  = map (fun kg => coop_file_of output_path (fst kg)) items.
Proof.
  induction items as [|[k g] items IH]; [reflexivity|].
  cbn [flat_map map]. unfold paths_written in *. rewrite flat_map_app, IH. reflexivity.
Qed.

Lemma coop_file_not_output (k : str) :
  coop_file_of json_path k <> json_path /\ coop_file_of json_path k <> csv_path.
Proof.
  split; intros H; apply (f_equal (@length str)) in H; vm_compute in H; discriminate.
Qed.

Lemma first_seen_In (ks : list str) (k : str) :
  In k (first_seen ks) <-> In k ks.
Proof.
  induction ks as [|x t IH]; cbn [first_seen]; [reflexivity|]. split.
  - intros [E|H]; [left; exact E|].
    apply filter_In in H as [H _]. right. apply IH. exact H.
  - intros [E|H]; [left; exact E|].
    destruct (str_eqb x k) eqn:Exk.
    + left. apply str_eqb_eq. exact Exk.
    + right. apply filter_In. split; [apply IH; exact H|]. rewrite Exk. reflexivity.
Qed.

(** One more string at the end is new in the order of first appearance
    exactly when it has not been seen. *)
Lemma first_seen_snoc (ks : list str) (k : str) :
  first_seen (ks ++ [k]) = if str_in k ks then first_seen ks else first_seen ks ++ [k].
Proof.
  induction ks as [|x t IH]; [reflexivity|].
  cbn [app first_seen]. rewrite IH. unfold str_in. cbn [existsb]. fold (str_in k t).
  destruct (str_in k t).
  - rewrite orb_true_r. reflexivity.
  - rewrite orb_false_r, filter_app. cbn [filter].
    destruct (str_eqb k x) eqn:E.
    + apply str_eqb_eq in E. subst x. rewrite str_eqb_refl. cbn [negb].
      rewrite app_nil_r. reflexivity.
    + assert (E' : str_eqb x k = false).
      { apply str_eqb_neq. apply str_eqb_neq in E. intros ->. apply E. reflexivity. }
      rewrite E'. reflexivity.
Qed.

(** The keys of [by_cooperativa] stand in the order in which the records
    bring them in: a key that is there keeps its place, a new one goes
    last. *)
Lemma group_records_keys (records : list record) :
  forall by_cooperativa,
    group_records records = OK by_cooperativa ->
    keys by_cooperativa
    = first_seen (map key_of_value (column_values (lit "cd_cooperativa") records)).
Proof.
  unfold group_records.
  induction records as [|rec records IH] using rev_ind; intros by1 H.
  - injection H as <-. reflexivity.
  - rewrite for_each_snoc in H.
    destruct (for_each group_step records []) as [by0|e]; [|discriminate H].
    cbn [bind] in H. specialize (IH by0 eq_refl).
    destruct (dict_get rec (lit "cd_cooperativa")) as [v|] eqn:Hv.
    + assert (Hk : coop_key_of rec = Some (key_of_value v))
        by (unfold coop_key_of; rewrite Hv; reflexivity).
      rewrite (group_step_cases _ _ _ Hk) in H.
      assert (Hcol : column_values (lit "cd_cooperativa") (records ++ [rec])
                     = column_values (lit "cd_cooperativa") records ++ [v]).
      { unfold column_values. rewrite flat_map_app. cbn [flat_map].
        rewrite Hv, app_nil_r. reflexivity. }
      rewrite Hcol, map_app. cbn [map]. rewrite first_seen_snoc.
      destruct (dict_get by0 (key_of_value v)) as [l|] eqn:Eg.
      * injection H as <-.
        assert (Hin : In (key_of_value v) (keys by0))
          by (apply dict_mem_In; unfold dict_mem; rewrite Eg; reflexivity).
        rewrite (dict_set_keys _ _ _ Hin), IH.
        rewrite IH in Hin. apply (proj1 (first_seen_In _ _)) in Hin.
        apply (proj2 (str_in_In _ _)) in Hin. rewrite Hin. reflexivity.
      * injection H as <-. apply dict_get_None in Eg.
        unfold keys in *. rewrite map_app. cbn [map fst]. rewrite IH.
        destruct (str_in (key_of_value v)
                    (map key_of_value (column_values (lit "cd_cooperativa") records)))
          eqn:Hs; [|reflexivity].
        exfalso. apply Eg. rewrite IH. apply (proj2 (first_seen_In _ _)).
        apply (proj1 (str_in_In _ _)). exact Hs.
    + unfold group_step, getitem in H. rewrite Hv in H. discriminate H.
Qed.

(** X13: A full run: when the parsed records are not empty and hold integers in
    [cd_cooperativa] and in [ano], [main] ends without an exception and
    writes, in this order, the consolidated JSON, one file per cooperative
    in the order the cooperatives first appear in the records, and the CSV;
    no path is written twice. *)
Theorem main_exports_all (sql_content : str) (records : list record) :
  parse_sql_insert_values sql_content = OK records ->
  records <> [] ->
  forallb is_int_value (column_values (lit "cd_cooperativa") records) = true ->
  forallb is_int_value (column_values (lit "ano") records) = true ->
  exists by_cooperativa,
    group_records records = OK by_cooperativa /\
    keys by_cooperativa
    = first_seen (map key_of_value (column_values (lit "cd_cooperativa") records)) /\
    snd (main (Some sql_content)) = OK tt /\
    paths_written (fst (main (Some sql_content)))
    = json_path
      :: map (coop_file_of json_path)
             (first_seen (map key_of_value
                              (column_values (lit "cd_cooperativa") records)))
      ++ [csv_path] /\
    NoDup (paths_written (fst (main (Some sql_content)))).
Proof.
  intros Hp Hne Hc Ha.
  destruct (main_trace_ints _ _ Hp Hne Hc Ha)
    as (by0 & lo & hi & lo' & hi' & Hby & _ & _ & _ & _ & Hmain).
  exists by0. split; [exact Hby|].
  pose proof (group_records_keys _ _ Hby) as Hkeys.
  split; [exact Hkeys|]. rewrite Hmain. cbn [fst snd]. split; [reflexivity|].
  assert (Hpaths :
    paths_written
      ([EPrint MRule; EPrint MTitle; EPrint MRule; EPrint MReading; ERead sql_file;
        EPrint (MFileRead (length sql_content)); EPrint MExtracting;
        EPrint (MExtracted (length records)); EPrint MStatistics;
        EPrint (MCooperativas (length by0) (VInt lo) (VInt hi));
        EPrint (MPeriodo (VInt lo') (VInt hi'));
        EPrint (MTotal (length records)); EPrint MSaving;
        EWrite json_path
          (JsonConsolidated (length records) (length by0)
             (lit "grc-web.sql") (lit "2025-10-23") records);
        EPrint (MJsonSaved json_path)]
       ++ flat_map (coop_events json_path) by0
       ++ [EWrite csv_path (Csv (COLUMNS :: map csv_row records));
           EPrint (MCsvSaved csv_path); EPrint MDone; EPrint MLastRule])
    = json_path :: map (coop_file_of json_path) (keys by0) ++ [csv_path]).
  { unfold paths_written. rewrite !flat_map_app.
    fold (paths_written (flat_map (coop_events json_path) by0)).
    rewrite paths_of_coop_events. unfold keys. rewrite map_map. reflexivity. }
  rewrite Hpaths, <- Hkeys. split; [reflexivity|].
  destruct (parsed_records_grouped _ _ Hp) as (by1 & Hby1 & Hgr).
  assert (by1 = by0) by congruence. subst by1. destruct Hgr as (Hnd & _).
  assert (Hfiles : NoDup (map (coop_file_of json_path) (keys by0)))
    by (apply NoDup_map_inj; [apply coop_file_of_inj | exact Hnd]).
  constructor.
  - intros Hin. apply in_app_or in Hin as [Hin|[Hin|[]]].
    + apply in_map_iff in Hin as (k & E & _).
      destruct (coop_file_not_output k) as [H _]. exact (H E).
    + vm_compute in Hin. discriminate.
  - apply NoDup_app; [exact Hfiles | constructor; [intros [] | constructor] |].
    intros p Hin [E|[]]. subst p.
    apply in_map_iff in Hin as (k & E & _).
    destruct (coop_file_not_output k) as [_ H]. exact (H E).
Qed.

Lemma main_exports_all_witness :
  snd (main (Some sql_good)) = OK tt /\
  paths_written (fst (main (Some sql_good)))
  = [json_path; coop_file_of json_path (lit "cooperativa_3");
     coop_file_of json_path (lit "cooperativa_4"); csv_path].
Proof.
  destruct (main_exports_all sql_good records_good parse_sql_good)
    as (by0 & _ & _ & Hres & Hpaths & _).
  - vm_compute. discriminate.
  - vm_compute. reflexivity.
  - vm_compute. reflexivity.
  - split; [exact Hres|]. rewrite Hpaths. vm_compute. reflexivity.
Defined.

(** X14: The statistics line of a full run: [main] prints the number of distinct
    cooperatives with the least and the greatest [cd_cooperativa] of the
    records, each of them the value of some record. *)
Theorem main_prints_cooperativa_range (sql_content : str) (records : list record) :
  parse_sql_insert_values sql_content = OK records ->
  records <> [] ->
  forallb is_int_value (column_values (lit "cd_cooperativa") records) = true ->
  forallb is_int_value (column_values (lit "ano") records) = true ->
  exists n lo hi,
    In (EPrint (MCooperativas n (VInt lo) (VInt hi))) (fst (main (Some sql_content))) /\
    n = length (py_set (column_values (lit "cd_cooperativa") records)) /\
    (exists r, In r records /\ dict_get r (lit "cd_cooperativa") = Some (VInt lo)) /\
    (exists r, In r records /\ dict_get r (lit "cd_cooperativa") = Some (VInt hi)) /\
    forall r z, In r records -> dict_get r (lit "cd_cooperativa") = Some (VInt z) ->
                (lo <= z <= hi)%Z.
Proof.
  intros Hp Hne Hc Ha.
  destruct (main_trace_ints _ _ Hp Hne Hc Ha)
    as (by0 & lo & hi & lo' & hi' & Hby & Hlo & Hhi & _ & _ & Hmain).
  destruct (parsed_records_grouped _ _ Hp) as (by1 & Hby1 & Hgr).
  assert (by1 = by0) by congruence. subst by1.
  exists (length by0), lo, hi. rewrite Hmain. cbn [fst]. split.
  - apply in_or_app. left. do 9 right. left. reflexivity.
  - split; [apply (groups_count_distinct_values _ _ _ Hp Hgr)|].
    assert (Hset : py_set (column_values (lit "cd_cooperativa") records) <> []).
    { intros E. rewrite E in Hlo. discriminate. }
    destruct (py_min_ints _ Hset (py_set_ints _ Hc)) as (m & Hm & Hin & Hle).
    destruct (py_max_ints _ Hset (py_set_ints _ Hc)) as (M & HM & Hin' & Hge).
    assert (m = lo) by congruence. assert (M = hi) by congruence. subst m M.
    apply (proj1 (py_set_In _ _)) in Hin. apply column_values_In in Hin.
    apply (proj1 (py_set_In _ _)) in Hin'. apply column_values_In in Hin'.
    split; [exact Hin|]. split; [exact Hin'|].
    intros r z Hr Hz.
    assert (Hv : In (VInt z) (py_set (column_values (lit "cd_cooperativa") records))).
    { apply (proj2 (py_set_In _ _)). apply column_values_In. exists r. split; assumption. }
    split; [apply Hle | apply Hge]; exact Hv.
Qed.

Lemma main_prints_cooperativa_range_witness :
  In (EPrint (MCooperativas 2 (VInt 3) (VInt 4))) (fst (main (Some sql_good))).
Proof.
  destruct (main_prints_cooperativa_range sql_good records_good parse_sql_good)
    as (n & lo & hi & Hin & Hn & (r1 & Hr1 & Hlo) & (r2 & Hr2 & Hhi) & Hrange).
  - vm_compute. discriminate.
  - vm_compute. reflexivity.
  - vm_compute. reflexivity.
  - assert (En : n = 2) by (rewrite Hn; vm_compute; reflexivity).
    assert (Hall : forall r, In r records_good ->
              dict_get r (lit "cd_cooperativa") = Some (VInt 3) \/
              dict_get r (lit "cd_cooperativa") = Some (VInt 4)).
    { intros r Hr. vm_compute in Hr.
      destruct Hr as [<-|[<-|[<-|[]]]]; vm_compute; tauto. }
    assert (H3 : (lo <= 3 <= hi)%Z).
    { apply (Hrange (nth 0 records_good [])); [vm_compute; tauto | vm_compute; reflexivity]. }
    assert (H4 : (lo <= 4 <= hi)%Z).
    { apply (Hrange (nth 1 records_good [])); [vm_compute; tauto | vm_compute; reflexivity]. }
    assert (Elo : lo = 3%Z) by (destruct (Hall r1 Hr1) as [E|E]; rewrite E in Hlo; injection Hlo as <-; lia).
    assert (Ehi : hi = 4%Z) by (destruct (Hall r2 Hr2) as [E|E]; rewrite E in Hhi; injection Hhi as <-; lia).
    subst n lo hi. exact Hin.
Defined.

(** ** The documents written for parsed records *)

Lemma coop_docs_of_events (output_path : path) (items : dict (list record)) :
  coop_docs_written (flat_map (coop_events output_path) items)
  = map (fun kg => (coop_file_of output_path (fst kg), first_cooperativa (snd kg),
                    length (snd kg), snd kg)) items.
Proof.
  induction items as [|[k g] items IH]; [reflexivity|].
  cbn [flat_map map]. unfold coop_docs_written in *. rewrite flat_map_app, IH. reflexivity.
Qed.

(** The key of a parsed record, by its [cd_cooperativa]. *)
Lemma parsed_coop_key (sql_content : str) (records : list record) (r : record) :
  parse_sql_insert_values sql_content = OK records ->
  In r records ->
  exists v, dict_get r (lit "cd_cooperativa") = Some v /\ int_or_null v /\
            coop_key_of r = Some (key_of_value v).
Proof.
  intros Hp Hr.
  assert (Hcol : In (lit "cd_cooperativa") COLUMNS) by (vm_compute; tauto).
  destruct (parsed_field _ _ _ _ Hp Hr Hcol) as (val & v & Hc & Hget).
  exists v. split; [exact Hget|]. split.
  - eapply convert_int_column; [|exact Hc]. vm_compute. reflexivity.
  - unfold coop_key_of. rewrite Hget. reflexivity.
Qed.

Lemma key_of_value_inj (v1 v2 : value) :
  int_or_null v1 -> int_or_null v2 -> key_of_value v1 = key_of_value v2 -> v1 = v2.
Proof.
  intros H1 H2 E. unfold key_of_value in E. apply app_inv_head in E.
  apply format_value_inj; assumption.
Qed.

(** X15: Every per-cooperative file written for parsed records is consistent: its
    name is made of its [cooperativa], its [total_registros] is the number
    of its [periodos], which are not empty and are exactly the records whose
    [cd_cooperativa] is its [cooperativa]. *)
Theorem cooperativa_files_are_consistent
        (sql_content : str) (records : list record) (output_path : path) :
  parse_sql_insert_values sql_content = OK records ->
  Forall (fun doc =>
            let '(p, v, n, periodos) := doc in
            p = coop_file_of output_path (key_of_value v) /\
            n = length periodos /\ periodos <> [] /\
            forall r, In r periodos <->
                      In r records /\ dict_get r (lit "cd_cooperativa") = Some v)
         (coop_docs_written (fst (save_to_json records output_path))).
Proof.
  intros Hp. destruct (parsed_records_grouped _ _ Hp) as (by0 & Hby & Hgr).
  rewrite (save_to_json_trace _ _ output_path Hby Hgr). cbn [fst].
  change (coop_docs_written
            (EWrite output_path
               (JsonConsolidated (length records) (length by0)
                  (lit "grc-web.sql") (lit "2025-10-23") records)
             :: EPrint (MJsonSaved output_path) :: flat_map (coop_events output_path) by0))
    with (coop_docs_written (flat_map (coop_events output_path) by0)).
  rewrite coop_docs_of_events. apply Forall_forall. intros doc Hdoc.
  apply in_map_iff in Hdoc as ([k g] & <- & Hin). cbn [fst snd].
  destruct Hgr as (_ & Hg & _ & _). destruct (Hg k g Hin) as [Hne Hf].
  destruct g as [|r0 g0] eqn:Eg; [contradiction|]. rewrite <- Eg in *.
  assert (Hr0 : In r0 records /\ coop_key_of r0 = Some k).
  { assert (H0 : In r0 g) by (rewrite Eg; left; reflexivity).
    rewrite Hf in H0. apply filter_In in H0 as [H0 Hk0].
    apply has_coop_key_iff in Hk0. split; assumption. }
  destruct Hr0 as [Hr0 Hk0].
  destruct (parsed_coop_key _ _ _ Hp Hr0) as (v0 & Hv0 & Hn0 & Hkey0).
  assert (Hfirst : first_cooperativa g = v0).
  { rewrite Eg. unfold first_cooperativa. rewrite Hv0. reflexivity. }
  assert (Hk : k = key_of_value v0) by congruence.
  rewrite Hfirst. split; [rewrite Hk; reflexivity|]. split; [reflexivity|].
  split; [rewrite Eg; discriminate|].
  intros r. rewrite Hf, filter_In, has_coop_key_iff. split.
  - intros [Hr Hkr]. split; [exact Hr|].
    destruct (parsed_coop_key _ _ _ Hp Hr) as (v & Hv & Hn & Hkey).
    assert (E : key_of_value v = key_of_value v0) by congruence.
    apply key_of_value_inj in E; [|assumption|assumption]. congruence.
  - intros [Hr Hv]. split; [exact Hr|]. unfold coop_key_of. rewrite Hv, Hk. reflexivity.
Qed.

Lemma cooperativa_files_are_consistent_witness :
  map (fun doc => let '(p, v, n, periodos) := doc in (v, n))
      (coop_docs_written (fst (save_to_json records_good [lit "out.json"])))
  = [(VInt 3, 2); (VInt 4, 1)]
  /\ Forall (fun doc =>
               let '(p, v, n, periodos) := doc in
               p = coop_file_of [lit "out.json"] (key_of_value v) /\
               n = length periodos /\ periodos <> [] /\
               forall r, In r periodos <->
                         In r records_good /\ dict_get r (lit "cd_cooperativa") = Some v)
            (coop_docs_written (fst (save_to_json records_good [lit "out.json"]))).
Proof.
  split; [vm_compute; reflexivity|].
  exact (cooperativa_files_are_consistent sql_good records_good [lit "out.json"]
           parse_sql_good).
Defined.

(** ** The CSV file keeps the records apart *)

Lemma convert_field_ok (col val : str) (v : value) :
  convert col val = OK v -> field_ok col v.
Proof.
  intros H. unfold field_ok. destruct (is_int_column col) eqn:Hc.
  - eapply convert_int_column; eassumption.
  - rewrite convert_cases, Hc in H.
    destruct (str_eqb val []) eqn:He; cbn [orb] in H.
    + injection H as <-. left. reflexivity.
    + destruct (str_eqb val (lit "''")); injection H as <-; [left; reflexivity|].
      right. exists val. split; [reflexivity|]. apply str_eqb_neq. exact He.
Qed.

Lemma str_of_Z_nonempty (z : Z) : str_of_Z z <> [].
Proof.
  intros H. pose proof (str_of_Z_parses z) as H1. rewrite H in H1.
  vm_compute in H1. discriminate.
Qed.

(** The cell of a field says what the field is. *)
Lemma csv_field_inj (col : str) (v1 v2 : value) :
  field_ok col v1 -> field_ok col v2 ->
  csv_field (Some v1) = csv_field (Some v2) -> v1 = v2.
Proof.
  unfold field_ok. destruct (is_int_column col).
  - intros [->|[z1 ->]] [->|[z2 ->]]; cbn [csv_field]; intros E.
    + reflexivity.
    + symmetry in E. apply str_of_Z_nonempty in E. contradiction.
    + apply str_of_Z_nonempty in E. contradiction.
    + f_equal. apply str_of_Z_inj. exact E.
  - intros [->|(s1 & -> & H1)] [->|(s2 & -> & H2)]; cbn [csv_field]; intros E.
    + reflexivity.
    + symmetry in E. contradiction.
    + contradiction.
    + congruence.
Qed.

Lemma csv_field_empty (col : str) (v : value) :
  field_ok col v -> (csv_field (Some v) = [] <-> v = VNone).
Proof.
  unfold field_ok. destruct (is_int_column col).
  - intros [->|[z ->]]; cbn [csv_field]; split; try reflexivity; try discriminate.
    intros E. apply str_of_Z_nonempty in E. contradiction.
  - intros [->|(s & -> & Hs)]; cbn [csv_field]; split; try reflexivity; try discriminate.
    intros E. contradiction.
Qed.

Lemma dict_get_combine (ks : list str) :
  forall (vs : list value),
    NoDup ks -> length ks = length vs ->
    map (fun k => dict_get (combine ks vs) k) ks = map Some vs.
Proof.
  induction ks as [|k ks IH]; intros [|v vs] Hnd Hlen; try discriminate; [reflexivity|].
  inversion Hnd as [|? ? Hk Hnd']; subst.
  cbn [combine map dict_get]. rewrite str_eqb_refl. f_equal.
  rewrite <- (IH vs Hnd' ltac:(simpl in Hlen; lia)).
  apply map_ext_in. intros k' Hk'.
  destruct (str_eqb k k') eqn:E; [|reflexivity].
  apply str_eqb_eq in E. subst. contradiction.
Qed.

(** A parsed record, by its fields. *)
Lemma parsed_record_fields (sql_content : str) (records : list record) (rec : record) :
  parse_sql_insert_values sql_content = OK records ->
  In rec records ->
  exists fields,
    rec = combine COLUMNS fields /\ length fields = 62 /\
    Forall2 field_ok COLUMNS fields /\
    csv_row rec = map (fun v => csv_field (Some v)) fields.
Proof.
  intros Hp Hrec.
  destruct (parsed_record_row _ _ _ Hp Hrec) as (row & _ & Hlen & Hb).
  destruct (build_record_spec _ _ Hlen Hb) as (fields & -> & Hf & HF).
  exists fields. split; [reflexivity|]. split; [exact Hf|]. split.
  - assert (Hgen : forall cols vs fs,
               Forall2 (fun p v => convert (fst p) (snd p) = OK v) (combine cols vs) fs ->
               length cols = length vs ->
               Forall2 field_ok cols fs).
    { induction cols as [|c cols IH]; intros [|v vs] fs H Hl; try discriminate.
      - inversion H; subst. constructor.
      - cbn [combine] in H. inversion H as [|? f ? fs' Hc HF']; subst.
        constructor; [eapply convert_field_ok; exact Hc|].
        apply (IH vs); [exact HF' | simpl in Hl; lia]. }
    apply (Hgen COLUMNS (row_tokens row)); [exact HF | rewrite COLUMNS_length; lia].
  - unfold csv_row.
    rewrite <- (map_map (fun k => dict_get (combine COLUMNS fields) k) csv_field).
    rewrite (dict_get_combine COLUMNS fields COLUMNS_NoDup)
      by (rewrite COLUMNS_length; lia).
    rewrite map_map. reflexivity.
Qed.

Lemma fields_of_cells (cols : list str) :
  forall f1 f2,
    Forall2 field_ok cols f1 -> Forall2 field_ok cols f2 ->
    map (fun v => csv_field (Some v)) f1 = map (fun v => csv_field (Some v)) f2 ->
    f1 = f2.
Proof.
  induction cols as [|c cols IH]; intros f1 f2 H1 H2 E.
  - inversion H1; inversion H2; reflexivity.
  - inversion H1 as [|? v1 ? f1' Hv1 H1']; subst.
    inversion H2 as [|? v2 ? f2' Hv2 H2']; subst.
    cbn [map] in E. injection E as Ev Ef. f_equal.
    + eapply csv_field_inj; eassumption.
    + apply IH; assumption.
Qed.

(** X16: The CSV rows lose nothing of parsed records: two records with the same
    row are the same record, and a cell is empty exactly when the field of
    its column is null. *)
Theorem csv_rows_keep_records_apart
        (sql_content : str) (records : list record) (r1 r2 : record) :
  parse_sql_insert_values sql_content = OK records ->
  In r1 records -> In r2 records ->
  (csv_row r1 = csv_row r2 -> r1 = r2) /\
  (forall col, In col COLUMNS ->
               (csv_field (dict_get r1 col) = [] <-> dict_get r1 col = Some VNone)).
Proof.
  intros Hp H1 H2.
  destruct (parsed_record_fields _ _ _ Hp H1) as (f1 & -> & Hl1 & Hok1 & Hrow1).
  destruct (parsed_record_fields _ _ _ Hp H2) as (f2 & -> & Hl2 & Hok2 & Hrow2).
  split.
  - intros E. rewrite Hrow1, Hrow2 in E. f_equal.
    eapply fields_of_cells; eassumption.
  - intros col Hcol.
    destruct (parsed_field _ _ _ _ Hp H1 Hcol) as (val & v & Hc & Hget).
    rewrite Hget. pose proof (csv_field_empty col v (convert_field_ok _ _ _ Hc)) as Hiff.
    rewrite Hiff. split; congruence.
Qed.

Lemma csv_rows_keep_records_apart_witness :
  csv_row (nth 0 records_good []) <> csv_row (nth 2 records_good []) /\
  csv_field (dict_get (nth 0 records_good []) (lit "tx_plano")) = [] /\
  dict_get (nth 0 records_good []) (lit "tx_plano") = Some VNone.
Proof.
  destruct (csv_rows_keep_records_apart sql_good records_good
              (nth 0 records_good []) (nth 2 records_good []) parse_sql_good)
    as [Hinj Hempty]; [vm_compute; tauto | vm_compute; tauto |].
  split.
  - intros E. apply Hinj in E. vm_compute in E. discriminate E.
  - assert (Hc : csv_field (dict_get (nth 0 records_good []) (lit "tx_plano")) = [])
      by (vm_compute; reflexivity).
    split; [exact Hc|]. apply (Hempty (lit "tx_plano")); [vm_compute; tauto | exact Hc].
Defined.

(** ** Statements among other text *)

Lemma agrees_false (p t rest : str) :
  agrees p t = false -> after_prefix p (t ++ rest) = None.
Proof.
  revert t; induction p as [|x p IH]; intros [|y t]; cbn [agrees app after_prefix];
    try discriminate.
  intros H. destruct (chr_eqb x y); [|reflexivity]. apply IH. exact H.
Qed.

Lemma findall_other_text (noise s : str) :
  other_text noise = true -> findall (noise ++ s) = findall s.
Proof.
  induction noise as [|c noise IH]; intros H; [reflexivity|].
  cbn [other_text] in H. apply andb_true_iff in H as [Hc Hn].
  apply negb_true_iff in Hc. cbn [app]. rewrite findall_nomatch.
  - apply IH. exact Hn.
  - unfold match_at.
    change (c :: noise ++ s) with ((c :: noise) ++ s).
    rewrite (agrees_false _ _ s Hc). reflexivity.
Qed.

(** X17: Text at no place of which the INSERT prefix of the table starts
    (comments, statements of other tables, blank lines) is ignored in front
    of any text: the result is the result of what follows. *)
Theorem parse_skips_other_text (noise sql_content : str) :
  other_text noise = true ->
  parse_sql_insert_values (noise ++ sql_content)
  = parse_sql_insert_values sql_content.
Proof.
  intros H. unfold parse_sql_insert_values.
  rewrite (findall_other_text noise sql_content H). reflexivity.
Qed.

Lemma parse_skips_other_text_witness :
  parse_sql_insert_values (noise_good ++ sql_good) = OK records_good.
Proof.
  rewrite (parse_skips_other_text noise_good sql_good).
  - exact parse_sql_good.
  - vm_compute. reflexivity.
Defined.

(** The row loop from a list of records: the records it adds do not depend
    on the list it starts from. *)
Lemma rows_records_acc (rows : list str) :
  forall acc,
    for_each process_row rows acc
    = (new <- for_each process_row rows [] ;; OK (acc ++ new)).
Proof.
  induction rows as [|row rows IH]; intros acc.
  - cbn [for_each bind]. rewrite app_nil_r. reflexivity.
  - cbn [for_each]. rewrite !process_row_row_record.
    destruct (row_record row) as [[rec|]|e]; cbn [bind]; [| |reflexivity].
    + rewrite (IH (acc ++ [rec])), (IH ([] ++ [rec])).
      destruct (for_each process_row rows []) as [new|e]; cbn [bind]; [|reflexivity].
      rewrite <- app_assoc. reflexivity.
    + apply IH.
Qed.

Lemma match_tail_blanks (w body rest : str) :
  forallb is_space w = true -> body <> [] -> ~ In ";"%char body ->
  match_tail (w ++ "("%char :: body ++ ")"%char :: ";"%char :: rest)
  = Some (body, rest).
Proof.
  intros Hw Hne Hns. unfold match_tail.
  rewrite (drop_while_all is_space w _ Hw).
  change (drop_while is_space ("("%char :: body ++ ")"%char :: ";"%char :: rest))
    with ("("%char :: body ++ ")"%char :: ";"%char :: rest).
  change (chr_eqb "("%char "("%char) with true. cbv iota.
  replace (body ++ ")"%char :: ";"%char :: rest)
    with ((body ++ [")"%char]) ++ ";"%char :: rest)
    by (rewrite <- app_assoc; reflexivity).
  rewrite span_group_upto.
  - rewrite rev_app_distr. cbn [rev app].
    change (chr_eqb ")"%char ")"%char) with true. cbv iota.
    destruct (rev body) as [|x g_rev] eqn:E.
    + exfalso. apply Hne. rewrite <- (rev_involutive body), E. reflexivity.
    + rewrite <- E, rev_involutive. reflexivity.
  - intros Hin. apply in_app_or in Hin as [Hin|[E|[]]]; [exact (Hns Hin) | discriminate].
Qed.

(** The lazy part of the pattern runs over text in which VALUES does not
    start, up to the first VALUES that is followed by a group. *)
Lemma match_lazy_over (mid tail : str) (m : str * str) :
  no_values mid = true ->
  match_values tail = Some m ->
  match_lazy (mid ++ tail) = Some m.
Proof.
  intros Hmid Htail. induction mid as [|c mid IH].
  - cbn [app]. destruct tail as [|c t]; cbn [match_lazy]; rewrite Htail; reflexivity.
  - cbn [no_values] in Hmid. apply andb_true_iff in Hmid as [Hc Hmid].
    apply negb_true_iff in Hc. cbn [app match_lazy].
    assert (Hv : match_values (c :: mid ++ tail) = None).
    { unfold match_values. change (c :: mid ++ tail) with ((c :: mid) ++ tail).
      rewrite (agrees_false _ _ tail Hc). reflexivity. }
    rewrite Hv. apply IH. exact Hmid.
Qed.

Lemma match_at_statement_with (mid w : str) (rows : list (list field)) (rest : str) :
  no_values mid = true -> forallb is_space w = true ->
  well_formed_statement rows = true ->
  match_at (render_statement_with mid w rows ++ rest) = Some (render_rows rows, rest).
Proof.
  intros Hmid Hw Hwf. unfold match_at, render_statement_with.
  assert (Hp : after_prefix insert_prefix
                 ((insert_prefix ++ mid ++ values_kw ++ w
                   ++ "("%char :: render_rows rows ++ lit ");") ++ rest)
               = Some (mid ++ values_kw ++ w
                       ++ "("%char :: render_rows rows ++ ")"%char :: ";"%char :: rest)).
  { apply after_prefix_app. rewrite <- !app_assoc. cbn [app].
    rewrite <- !app_assoc. reflexivity. }
  rewrite Hp. apply match_lazy_over; [exact Hmid|].
  unfold match_values.
  assert (Ha : after_prefix values_kw
                 (values_kw ++ w ++ "("%char :: render_rows rows
                  ++ ")"%char :: ";"%char :: rest)
               = Some (w ++ "("%char :: render_rows rows ++ ")"%char :: ";"%char :: rest))
    by (apply after_prefix_app; reflexivity).
  rewrite Ha. apply match_tail_blanks.
  - exact Hw.
  - apply render_rows_nonempty. exact Hwf.
  - apply render_rows_chars. destruct rows; [discriminate | exact Hwf].
Qed.

(** X18: A statement of the table with well-formed rows, whatever stands
    between the table name and the first VALUES (a column list, even the end
    of that statement and other statements, as long as VALUES does not start
    in it), followed by any text: the records are those of the rows after
    that VALUES, then those of the text that follows; an exception in the
    rows is raised before the rest is looked at. *)
Theorem parse_statement_then_rest
        (mid w : str) (rows : list (list field)) (rest : str) :
  no_values mid = true ->
  forallb is_space w = true ->
  well_formed_statement rows = true ->
  parse_sql_insert_values (render_statement_with mid w rows ++ rest)
  = (first <- records_of_fields rows ;;
     others <- parse_sql_insert_values rest ;;
     OK (first ++ others)).
Proof.
  intros Hmid Hw Hwf. rewrite !parse_flat. unfold rows_records, all_rows.
  rewrite (findall_match _ _ _ (match_at_statement_with mid w rows rest Hmid Hw Hwf)).
  cbn [flat_map].
  assert (Hrows : forallb well_formed_row rows = true)
    by (destruct rows; [discriminate | exact Hwf]).
  assert (Hne : rows <> []) by (intros ->; discriminate Hwf).
  rewrite (split_render_rows rows Hne Hrows).
  rewrite for_each_app.
  unfold records_of_fields. rewrite <- (rows_records_rendered rows Hrows []).
  destruct (for_each process_row (map render_row rows) []) as [first|e]; cbn [bind];
    [|reflexivity].
  apply rows_records_acc.
Qed.

Lemma parse_statement_then_rest_witness :
  parse_sql_insert_values
    (render_statement_with (lit " (`cd_sistema`, `cd_central`) ") (lit " ")
                           [fields_a; fields_short]
     ++ ascii_of_nat 10 :: render_statement [fields_b])
  = (first <- records_of_fields [fields_a; fields_short] ;;
     others <- parse_sql_insert_values (ascii_of_nat 10 :: render_statement [fields_b]) ;;
     OK (first ++ others))
  /\ exists rec_a rec_b,
       parse_sql_insert_values
         (render_statement_with (lit " (`cd_sistema`, `cd_central`) ") (lit " ")
                                [fields_a; fields_short]
          ++ ascii_of_nat 10 :: render_statement [fields_b])
       = OK [rec_a; rec_b].
Proof.
  split.
  - apply (parse_statement_then_rest
             (lit " (`cd_sistema`, `cd_central`) ") (lit " ") [fields_a; fields_short]);
      vm_compute; reflexivity.
  - vm_compute. eexists _, _. reflexivity.
Defined.
